(** * bwt-go: suffix array by prefix doubling, BWT, rank tables, inversion

    A shallow embedding of the Go package [bwt] (files [sa.go] and the BWT
    file holding [Bwt], [CTab], [OTab] and [Rbwt]) together with theorems
    about it.

    Conventions of the embedding:
    - a Go [int32] is a [Z] kept in range by [wrap32] at every arithmetic
      operation that can leave the range; an [int64] likewise by [wrap64];
    - a Go [int] (64 bit) only ever holds an index, a slice length or a
      count bounded by a slice length, so it is a [Z] without wrap-around;
    - a [string] or [[]byte] is a [list byte]; a [[]int32] or [[]int] is a
      [list Z]; every slice the package makes has its capacity equal to its
      length;
    - a run-time panic (index out of range, negative [make]) is the result
      [Panic]; slices passed to a function are returned by it with their
      new contents, since the callee writes through the shared array. *)

From Stdlib Require Import ZArith Lia.
From Stdlib Require Import Strings.Byte.
From stdpp Require Import base option list sorting.

Local Open Scope Z_scope.

(** ** Results of a Go call *)

Inductive result (A : Type) : Type :=
  | Ok (a : A)
  | Panic
  | OutOfFuel.
Arguments Ok {A} a.
Arguments Panic {A}.
Arguments OutOfFuel {A}.

#[global] Instance result_ret : MRet result := λ A a, Ok a.
#[global] Instance result_bind : MBind result := λ A B f m,
  match m with
  | Ok a => f a
  | Panic => Panic
  | OutOfFuel => OutOfFuel
  end.

(** ** Machine integers *)

Definition wrap32 (z : Z) : Z := (z + 2 ^ 31) mod 2 ^ 32 - 2 ^ 31.
Definition wrap64 (z : Z) : Z := (z + 2 ^ 63) mod 2 ^ 64 - 2 ^ 63.
Definition add32 (a b : Z) : Z := wrap32 (a + b).
Definition max_int32 : Z := 2 ^ 31 - 1.

(** [int(a)] for a byte, and [byte(a)] for an int. *)
Definition int_of_byte (a : byte) : Z := Z.of_N (Byte.to_N a).
Definition byte_of_int (z : Z) : byte :=
  match Byte.of_N (Z.to_N (z mod 256)) with
  | Some b => b
  | None => x00
  end.

#[global] Instance byte_eq_dec : EqDecision byte := Byte.byte_eq_dec.

(** ** Slices *)

Definition len {A} (l : list A) : Z := Z.of_nat (length l).

(** [l[i]], read. *)
Definition index {A} (l : list A) (i : Z) : result A :=
  if i <? 0 then Panic
  else match l !! Z.to_nat i with
       | Some a => Ok a
       | None => Panic
       end.

(** [l[i] = v]. *)
Definition store {A} (l : list A) (i : Z) (v : A) : result (list A) :=
  if (0 <=? i) && (i <? len l) then Ok (<[Z.to_nat i := v]> l) else Panic.

(** [make([]T, n)], zero-filled. *)
Definition make {A} (n : Z) (zero : A) : result (list A) :=
  if n <? 0 then Panic else Ok (replicate (Z.to_nat n) zero).

(** [l[lo:hi]] and writing the contents of such a sub-slice back. *)
Definition slice {A} (l : list A) (lo hi : Z) : result (list A) :=
  if (0 <=? lo) && (lo <=? hi) && (hi <=? len l)
  then Ok (take (Z.to_nat (hi - lo)) (drop (Z.to_nat lo) l))
  else Panic.

Definition splice {A} (l : list A) (lo : Z) (s : list A) : list A :=
  take (Z.to_nat lo) l ++ s ++ drop (Z.to_nat lo + length s) l.

(** ** Loops *)

(** [for i := lo; i < lo + count; i++ { body }] *)
Fixpoint for_loop {St} (count : nat) (i : Z) (body : Z → St → result St)
    (s : St) : result St :=
  match count with
  | O => Ok s
  | S c => s' ← body i s; for_loop c (i + 1) body s'
  end.

(** [for j := count - 1; j >= 0; j-- { body }] *)
Fixpoint for_down {St} (count : nat) (body : Z → St → result St) (s : St)
  : result St :=
  match count with
  | O => Ok s
  | S c => s' ← body (Z.of_nat c) s; for_down c body s'
  end.

(** [for _, a := range l { body }] *)
Fixpoint for_range {A St} (l : list A) (body : A → St → result St) (s : St)
  : result St :=
  match l with
  | [] => Ok s
  | a :: l' => s' ← body a s; for_range l' body s'
  end.

(** ** sa.go *)

(** The bodies of the three loops of [calcRank0]: tag the letters that
    occur, number them, map every letter of [x] to its number. *)
Definition tag_body (a : byte) (alpha : list Z) : result (list Z) :=
  store alpha (int_of_byte a) 1.

Definition assign_body (a : Z) (st : list Z * Z) : result (list Z * Z) :=
  let '(alpha, sigma) := st in
  v ← index alpha a;
  if v =? 1
  then alpha' ← store alpha a sigma; Ok (alpha', wrap32 (sigma + 1))
  else Ok (alpha, sigma).

Definition map_body (x : list byte) (alpha : list Z)
    (i : Z) (rank : list Z) : result (list Z) :=
  xi ← index x i;
  v ← index alpha (int_of_byte xi);
  store rank i v.

(** [calcRank0]: the rank of each suffix by its first character. *)
Definition calcRank0 (x : list byte) : result (list Z * Z) :=
  let alpha := replicate 256 0 in
  rank ← make (len x + 1) 0;
  alpha ← for_range x tag_body alpha;
  '(alpha, sigma) ← for_loop 256 0 assign_body (alpha, 1);
  rank ← for_loop (length x) 0 (map_body x alpha) rank;
  Ok (rank, sigma).

(** [sa0]: the indices from 0 to n - 1. *)
Definition sa0 (n : Z) : result (list Z) :=
  sa ← make n 0;
  for_loop (Z.to_nat n) 0 (λ i sa, store sa i (wrap32 i)) sa.

(** [getRank]: the rank at index [i], zero past the end. *)
Definition getRank (rank : list Z) (i : Z) : result Z :=
  if i <? len rank then index rank i else Ok 0.

(** The bucket of element [i] of [src] in the pass for [shift]:
    [getRank(rank, src[i]+k) >> shift], where [src] is the slice [sa_p] points to. *)
Definition bucket_of (rank src : list Z) (k : Z) (shift : Z) (i : Z)
  : result Z :=
  s ← index src i;
  r ← getRank rank (add32 s k);
  Ok (Z.shiftr r shift).

(** The three loops of one iteration of the loop over [shift] in
    [radixSortBuckets]; [src] is the slice behind [sa_p] and [dst] the one
    behind [buf_p]. *)

(** [b := ...; buckets[b]++] *)
Definition count_body (rank src : list Z) (k shift : Z)
    (i : Z) (buckets : list Z) : result (list Z) :=
  b ← bucket_of rank src k shift i;
  c ← index buckets b;
  store buckets b (wrap32 (c + 1)).

(** [b := buckets[i]; buckets[i] = acc; acc += b] *)
Definition accumulate_body (i : Z) (st : list Z * Z) : result (list Z * Z) :=
  let '(buckets, acc) := st in
  b ← index buckets i;
  buckets' ← store buckets i acc;
  Ok (buckets', wrap32 (acc + b)).

(** [b := ...; dst[buckets[b]] = src[i]; buckets[b]++] *)
Definition place_body (rank src : list Z) (k shift : Z)
    (i : Z) (st : list Z * list Z) : result (list Z * list Z) :=
  let '(buckets, dst) := st in
  b ← bucket_of rank src k shift i;
  pos ← index buckets b;
  s ← index src i;
  dst' ← store dst pos s;
  buckets' ← store buckets b (wrap32 (pos + 1));
  Ok (buckets', dst').

(** One iteration of the loop over [shift]: count, accumulate, place the
    elements of [src] in [dst]; [n] is [len(sa)]. *)
Definition radix_pass (rank : list Z) (n : nat) (k shift : Z)
    (src dst : list Z) : result (list Z) :=
  let buckets := replicate 256 0 in
  buckets ← for_loop n 0 (count_body rank src k shift) buckets;
  '(buckets, _) ← for_loop 256 0 accumulate_body (buckets, 0);
  '(_, dst) ← for_loop n 0 (place_body rank src k shift) (buckets, dst);
  Ok dst.

(** The state of the loop over [shift]: the contents of the array [sa_p]
    points to, of the array [buf_p] points to, and whether the two pointers
    are exchanged with respect to the parameters [sa] and [buf]. *)
Definition radix_step (rank : list Z) (n : nat) (k : Z)
    (shift : Z) (st : list Z * list Z * bool)
  : result (list Z * list Z * bool) :=
  let '(p, q, flipped) := st in
  q' ← radix_pass rank n k shift p q;
  Ok (q', p, negb flipped).

(** [radixSortBuckets]: returns the contents of [sa] and of [buf]. *)
Definition radixSortBuckets (rank sa buf : list Z) (k : Z)
  : result (list Z * list Z) :=
  '(p, q, flipped) ←
    for_range [0; 8; 16; 24] (radix_step rank (length sa) k) (sa, buf, false);
  Ok (if flipped : bool then (q, p) else (p, q)).

(** The inner loop of [radixSort]:
    [for b_end < len(sa) && rank[sa[b_start]] == rank[sa[b_end]] { b_end++ }]
    with [remaining] the number of indices from [b_end] to the end. *)
Fixpoint scan_bucket (remaining : nat) (rank sa : list Z) (b_start b_end : Z)
  : result Z :=
  match remaining with
  | O => Ok b_end
  | S r =>
      s0 ← index sa b_start;
      r0 ← index rank s0;
      s1 ← index sa b_end;
      r1 ← index rank s1;
      if r0 =? r1 then scan_bucket r rank sa b_start (b_end + 1)
      else Ok b_end
  end.

(** The body of the outer loop of [radixSort] after the scan:
    [if (b_end - b_start) > 1 { radixSortBuckets(rank, sa[b_start:b_end],
    buf[b_start:b_end], k) }]; the callee writes through the two
    sub-slices. *)
Definition sort_bucket (k : Z) (rank sa buf : list Z) (b_start b_end : Z)
  : result (list Z * list Z) :=
  if 1 <? b_end - b_start then
    s ← slice sa b_start b_end;
    b ← slice buf b_start b_end;
    '(s, b) ← radixSortBuckets rank s b k;
    Ok (splice sa b_start s, splice buf b_start b)
  else Ok (sa, buf).

(** The outer loop of [radixSort]. *)
Fixpoint radixSort_loop (fuel : nat) (k : Z) (rank sa buf : list Z)
    (b_start b_end : Z) : result (list Z * list Z) :=
  if b_start <? len sa then
    match fuel with
    | O => OutOfFuel
    | S f =>
        b_end ← scan_bucket (Z.to_nat (len sa - b_end)) rank sa b_start b_end;
        '(sa, buf) ← sort_bucket k rank sa buf b_start b_end;
        radixSort_loop f k rank sa buf b_end b_end
    end
  else Ok (sa, buf).

(** [radixSort]: every iteration of the outer loop advances [b_start], so
    [len(sa)] iterations are enough. *)
Definition radixSort (k : Z) (rank sa buf : list Z)
  : result (list Z * list Z) :=
  radixSort_loop (length sa) k rank sa buf 0 0.

(** The packing of two ranks in [updateRank]:
    [int64(r)<<32 | int64(s)]. *)
Definition pack (r s : Z) : Z := Z.lor (wrap64 (Z.shiftl r 32)) s.

(** The closure [pair] of [updateRank]. *)
Definition pair (rank sa : list Z) (i k : Z) : result Z :=
  s ← index sa i;
  r ← index rank s;
  g ← getRank rank (add32 s k);
  Ok (pack r g).

(** The body of the loop of [updateRank]; the state is [a], [prev_pair]
    and the contents of [out]. *)
Definition update_body (rank sa : list Z) (k : Z)
    (i : Z) (st : Z * Z * list Z) : result (Z * Z * list Z) :=
  let '(a, prev_pair, out) := st in
  cur_pair ← pair rank sa (wrap32 i) k;
  let a := if prev_pair =? cur_pair then a else wrap32 (a + 1) in
  s ← index sa i;
  out' ← store out s a;
  Ok (a, cur_pair, out').

(** [updateRank]: returns the contents of [out] and [sigma]. *)
Definition updateRank (sa rank out : list Z) (k : Z) : result (list Z * Z) :=
  let a := 0 in
  s0 ← index sa 0;
  out ← store out s0 a;
  prev_pair ← pair rank sa 0 k;
  '(a, _, out) ←
    for_loop (length sa - 1) 1 (update_body rank sa k) (a, prev_pair, out);
  Ok (out, wrap32 (a + 1)).

(** The state of the loop of [PrefixDoubling]; [pd_rank] is the slice behind [rank_p] and
    [pd_buf] the one behind [buf_p]. *)
Record pd_state : Type := PdState {
  pd_sa : list Z;
  pd_rank : list Z;
  pd_buf : list Z;
  pd_sigma : Z;
  pd_k : Z;
}.

(** One round, the body of the loop of [PrefixDoubling]: sort, update the
    ranks into the buffer, exchange [buf_p] and [rank_p], double [k]. *)
Definition doubling_round (st : pd_state) : result pd_state :=
  '(sa, buf) ← radixSort (pd_k st) (pd_rank st) (pd_sa st) (pd_buf st);
  '(buf, sigma) ← updateRank sa (pd_rank st) buf (pd_k st);
  Ok {| pd_sa := sa; pd_rank := buf; pd_buf := pd_rank st;
        pd_sigma := sigma; pd_k := wrap32 (pd_k st * 2) |}.

(** [for k := int32(1); int(sigma) < len(rank); k *= 2 { ... }], with
    [n_rank] the length of [rank]. *)
Fixpoint doubling_loop (fuel : nat) (n_rank : Z) (st : pd_state)
  : result pd_state :=
  if pd_sigma st <? n_rank then
    match fuel with
    | O => OutOfFuel
    | S f => st' ← doubling_round st; doubling_loop f n_rank st'
    end
  else Ok st.

(** The state on entry of the loop of [PrefixDoubling]. *)
Definition doubling_init (x : list byte) : result pd_state :=
  sa ← sa0 (len x + 1);
  buf ← make (len sa) 0;
  '(rank, sigma) ← calcRank0 x;
  '(sa, buf) ← radixSortBuckets rank sa buf 0;
  Ok {| pd_sa := sa; pd_rank := rank; pd_buf := buf;
        pd_sigma := sigma; pd_k := 1 |}.

(** The offset [k] doubles in [int32]: it is [2^j] in round [j] up to
    round 30, and [-2^31] in round 31, where [getRank] is called with a
    negative index.  No run has more than 32 rounds (lemma
    [nt_PrefixDoubling] below). *)
Definition doubling_fuel : nat := 32.

Definition PrefixDoubling_loop (x : list byte) : result pd_state :=
  st ← doubling_init x;
  doubling_loop doubling_fuel (len x + 1) st.

Definition PrefixDoubling (x : list byte) : result (list Z) :=
  st ← PrefixDoubling_loop x;
  Ok (pd_sa st).

(** ** The BWT and its tables *)

(** The body of the loop of [Bwt]; the state is the index [i] and the
    contents of [y]. *)
Definition bwt_body (x : list byte) (j : Z) (st : Z * list byte)
  : result (Z * list byte) :=
  let '(i, y) := st in
  y' ← (if j =? 0 then store y i x00
        else c ← index x (j - 1); store y i c);
  Ok (i + 1, y').

Definition Bwt (x : list byte) : result (list byte) :=
  sa ← PrefixDoubling x;
  y ← make (len x + 1) x00;
  '(_, y) ← for_range sa (bwt_body x) (0, y);
  Ok y.

Record CTab : Type := MkCTab { CumSum : list Z }.

Definition CTab_Rank (ctab : CTab) (a : byte) : result Z :=
  index (CumSum ctab) (int_of_byte a).

Definition NewCTab (bwt : list byte) (asize : Z) : result CTab :=
  counts ← make asize 0;
  counts ← for_range bwt (λ b counts,
      c ← index counts (int_of_byte b);
      store counts (int_of_byte b) (c + 1)) counts;
  '(counts, _) ← for_loop (length counts) 0 (λ i '(counts, n),
      count ← index counts i;
      counts' ← store counts i n;
      Ok (counts', n + count)) (counts, 0);
  Ok (MkCTab counts).

Record OTab : Type := MkOTab {
  nrow : Z;
  ncol : Z;
  table : list Z;
}.

Definition OTab_offset (otab : OTab) (a : byte) (i : Z) : Z :=
  ncol otab * (int_of_byte a - 1) + (i - 1).

Definition OTab_get (otab : OTab) (a : byte) (i : Z) : result Z :=
  index (table otab) (OTab_offset otab a i).

Definition OTab_set (otab : OTab) (a : byte) (i val : Z) : result OTab :=
  t ← store (table otab) (OTab_offset otab a i) val;
  Ok (MkOTab (nrow otab) (ncol otab) t).

Definition OTab_Rank (otab : OTab) (a : byte) (i : Z) : result Z :=
  if i =? 0 then Ok 0 else OTab_get otab a i.

Definition NewOTab (bwt : list byte) (asize : Z) : result OTab :=
  let nrow := asize - 1 in
  let ncol := len bwt in
  table ← make (nrow * ncol) 0;
  let otab := MkOTab nrow ncol table in
  b0 ← index bwt 0;
  otab ← OTab_set otab b0 1 1;
  for_loop (Z.to_nat (asize - 1)) 1 (λ a otab,
    let ba := byte_of_int a in
    for_loop (length bwt - 1) 2 (λ i otab,
      val ← OTab_get otab ba (i - 1);
      c ← index bwt (i - 1);
      let val := if decide (c = ba) then val + 1 else val in
      OTab_set otab ba i val) otab) otab.

Definition Rbwt (y : list byte) : result (list byte) :=
  let z := y in
  let sigma := 256 in
  ctab ← NewCTab z sigma;
  otab ← NewOTab z sigma;
  x ← make (len y - 1) x00;
  '(x, _) ← for_down (length y - 1) (λ j '(x, i),
      a ← index y i;
      x' ← store x j a;
      c ← CTab_Rank ctab a;
      o ← OTab_Rank otab a i;
      Ok (x', c + o)) (x, 0);
  Ok x.

(** ** Test data *)

Definition bytes_of (l : list Z) : list byte := map byte_of_int l.

(** ["mississippi"] and ["aaaa"]. *)
Definition mississippi : list byte :=
  bytes_of [109; 105; 115; 115; 105; 115; 115; 105; 112; 112; 105].
Definition aaaa : list byte := bytes_of [97; 97; 97; 97].

(** Four bytes 255 followed by the bytes 1 to 254: 258 bytes, none zero. *)
Definition long_input : list byte :=
  bytes_of ([255; 255; 255; 255] ++ map Z.of_nat (seq 1 254)).

(** * Theorems *)

(** ** The result monad and the slice operations *)

Lemma bind_Ok {A B} (m : result A) (f : A → result B) (b : B) :
  m ≫= f = Ok b ↔ ∃ a, m = Ok a ∧ f a = Ok b.
Proof.
  destruct m as [a| |]; simpl; split.
  - intros H. exists a. done.
  - intros (a' & [= <-] & H). done.
  - done.
  - intros (a' & [=] & _).
  - done.
  - intros (a' & [=] & _).
Qed.

Lemma Ok_bind {A B} (a : A) (f : A → result B) : Ok a ≫= f = f a.
Proof. done. Qed.

Lemma index_Ok {A} (l : list A) (i : Z) (a : A) :
  index l i = Ok a ↔ 0 ≤ i ∧ l !! Z.to_nat i = Some a.
Proof.
  unfold index. destruct (Z.ltb_spec i 0).
  - split; [done | lia].
  - destruct (l !! Z.to_nat i) as [a'|]; split.
    + intros [= <-]. done.
    + intros [_ [= <-]]. done.
    + done.
    + intros [_ [=]].
Qed.

Lemma index_lookup {A} (l : list A) (i : nat) (a : A) :
  l !! i = Some a → index l (Z.of_nat i) = Ok a.
Proof. intros H. apply index_Ok. rewrite Nat2Z.id. split; [lia | done]. Qed.

Lemma index_lookup_Z {A} (l : list A) (i : Z) (a : A) :
  0 ≤ i → l !! Z.to_nat i = Some a → index l i = Ok a.
Proof. intros. by apply index_Ok. Qed.

Lemma index_Ok_lt {A} (l : list A) (i : Z) (a : A) :
  index l i = Ok a → 0 ≤ i < len l.
Proof.
  intros [H0 H]%index_Ok. apply lookup_lt_Some in H. unfold len. lia.
Qed.

Lemma index_in_range {A} (l : list A) (i : Z) :
  0 ≤ i < len l → ∃ a, index l i = Ok a ∧ l !! Z.to_nat i = Some a.
Proof.
  intros H. unfold len in H.
  destruct (lookup_lt_is_Some_2 l (Z.to_nat i)) as [a Ha]; [lia|].
  exists a. split; [|done]. apply index_Ok. split; [lia | done].
Qed.

Lemma store_Ok {A} (l l' : list A) (i : Z) (v : A) :
  store l i v = Ok l' ↔ 0 ≤ i < len l ∧ l' = <[Z.to_nat i := v]> l.
Proof.
  unfold store.
  destruct (Z.leb_spec 0 i), (Z.ltb_spec i (len l)); simpl; split;
    try (intros [= <-]; split; [lia | done]);
    try (intros [? ->]; done); try done; intros [? _]; lia.
Qed.

Lemma store_in_range {A} (l : list A) (i : Z) (v : A) :
  0 ≤ i < len l → store l i v = Ok (<[Z.to_nat i := v]> l).
Proof. intros H. apply store_Ok. done. Qed.

Lemma len_insert {A} (l : list A) (i : nat) (v : A) : len (<[i := v]> l) = len l.
Proof. unfold len. by rewrite length_insert. Qed.

Lemma len_replicate {A} (n : nat) (v : A) : len (replicate n v) = Z.of_nat n.
Proof. unfold len. by rewrite length_replicate. Qed.

(** ** Bytes *)

Lemma int_of_byte_range (a : byte) : 0 ≤ int_of_byte a < 256.
Proof.
  unfold int_of_byte. pose proof (Byte.to_N_bounded a) as H.
  lia.
Qed.

Lemma byte_of_int_of_byte (a : byte) : byte_of_int (int_of_byte a) = a.
Proof.
  unfold byte_of_int. pose proof (int_of_byte_range a) as H.
  rewrite Z.mod_small by done. unfold int_of_byte.
  rewrite N2Z.id, Byte.of_to_N. done.
Qed.

Lemma int_of_byte_of_int (z : Z) : 0 ≤ z < 256 → int_of_byte (byte_of_int z) = z.
Proof.
  intros H. unfold byte_of_int. rewrite Z.mod_small by done.
  destruct (Byte.of_N (Z.to_N z)) as [b|] eqn:E.
  - apply Byte.to_of_N in E. unfold int_of_byte. rewrite E. lia.
  - apply Byte.of_N_None_iff in E. lia.
Qed.

Lemma int_of_byte_inj (a b : byte) : int_of_byte a = int_of_byte b → a = b.
Proof.
  intros H. rewrite <- (byte_of_int_of_byte a), <- (byte_of_int_of_byte b).
  by rewrite H.
Qed.

Lemma int_of_byte_zero (a : byte) : int_of_byte a = 0 ↔ a = x00.
Proof.
  split; [|by intros ->]. intros H. by apply int_of_byte_inj.
Qed.

(** ** Loop invariants *)

(** A counted loop whose body keeps an invariant and never panics under it
    returns, with the invariant at the final index. *)
Lemma for_loop_total {St} (I : Z → St → Prop) (count : nat) (lo : Z)
    (body : Z → St → result St) (s : St) :
  I lo s →
  (∀ i s, lo ≤ i < lo + Z.of_nat count → I i s →
     ∃ s', body i s = Ok s' ∧ I (i + 1) s') →
  ∃ s', for_loop count lo body s = Ok s' ∧ I (lo + Z.of_nat count) s'.
Proof.
  revert lo s. induction count as [|c IH]; intros lo s H0 Hstep.
  - exists s. split; [done|]. by replace (lo + Z.of_nat 0) with lo by lia.
  - destruct (Hstep lo s) as (s1 & Hb & H1); [lia | done |].
    destruct (IH (lo + 1) s1) as (s2 & Hl & H2); [done | |].
    + intros i s' Hi. apply Hstep. lia.
    + exists s2. simpl. rewrite Hb. simpl. split; [done|].
      by replace (lo + Z.of_nat (S c)) with (lo + 1 + Z.of_nat c) by lia.
Qed.

(** A counted loop that returns has kept every invariant its body keeps. *)
Lemma for_loop_partial {St} (I : Z → St → Prop) (count : nat) (lo : Z)
    (body : Z → St → result St) (s s' : St) :
  for_loop count lo body s = Ok s' →
  I lo s →
  (∀ i s s', lo ≤ i < lo + Z.of_nat count → I i s → body i s = Ok s' →
     I (i + 1) s') →
  I (lo + Z.of_nat count) s'.
Proof.
  revert lo s. induction count as [|c IH]; intros lo s Hl H0 Hstep.
  - injection Hl as <-. by replace (lo + Z.of_nat 0) with lo by lia.
  - simpl in Hl. apply bind_Ok in Hl as (s1 & Hb & Hl).
    replace (lo + Z.of_nat (S c)) with (lo + 1 + Z.of_nat c) by lia.
    apply (IH (lo + 1) s1); [done | |].
    + apply (Hstep lo s); [lia | done | done].
    + intros i t t' Hi. apply Hstep. lia.
Qed.

Lemma for_range_total {A St} (I : list A → St → Prop) (l : list A)
    (body : A → St → result St) (s : St) :
  I [] s →
  (∀ done a s, I done s → ∃ s', body a s = Ok s' ∧ I (done ++ [a]) s') →
  ∃ s', for_range l body s = Ok s' ∧ I l s'.
Proof.
  intros H0 Hstep.
  cut (∀ done s, I done s → ∃ s', for_range l body s = Ok s' ∧ I (done ++ l) s').
  { intros H. apply (H [] s H0). }
  clear s H0. induction l as [|a l IH]; intros done s H0.
  - exists s. by rewrite app_nil_r.
  - destruct (Hstep done a s H0) as (s1 & Hb & H1).
    destruct (IH (done ++ [a]) s1 H1) as (s2 & Hl & H2).
    exists s2. simpl. rewrite Hb. simpl. split; [done|].
    by rewrite <- app_assoc in H2.
Qed.

Lemma for_range_partial {A St} (I : list A → St → Prop) (l : list A)
    (body : A → St → result St) (s s' : St) :
  for_range l body s = Ok s' →
  I [] s →
  (∀ done a s s', I done s → body a s = Ok s' → I (done ++ [a]) s') →
  I l s'.
Proof.
  intros Hl H0 Hstep.
  cut (∀ done s, for_range l body s = Ok s' → I done s → I (done ++ l) s').
  { intros H. apply (H [] s Hl H0). }
  clear s Hl H0. induction l as [|a l IH]; intros done s Hl H0.
  - injection Hl as <-. by rewrite app_nil_r.
  - simpl in Hl. apply bind_Ok in Hl as (s1 & Hb & Hl).
    replace (done ++ a :: l) with ((done ++ [a]) ++ l) by by rewrite <- app_assoc.
    apply (IH _ s1 Hl). by apply (Hstep done a s).
Qed.

(** ** The packing of rank pairs *)

Lemma wrap64_small (z : Z) : - 2 ^ 63 ≤ z < 2 ^ 63 → wrap64 z = z.
Proof. intros H. unfold wrap64. rewrite Z.mod_small; lia. Qed.

Lemma wrap32_small (z : Z) : - 2 ^ 31 ≤ z < 2 ^ 31 → wrap32 z = z.
Proof. intros H. unfold wrap32. rewrite Z.mod_small; lia. Qed.

Lemma wrap32_range (z : Z) : - 2 ^ 31 ≤ wrap32 z < 2 ^ 31.
Proof.
  unfold wrap32. pose proof (Z.mod_pos_bound (z + 2 ^ 31) (2 ^ 32)). lia.
Qed.

Lemma lor_high_low (r s : Z) :
  0 ≤ s < 2 ^ 32 → Z.lor (r * 2 ^ 32) s = r * 2 ^ 32 + s.
Proof.
  intros Hs.
  assert (Z.land (r * 2 ^ 32) s = 0) as Hland.
  { apply Z.bits_inj'; intros i Hi. rewrite Z.land_spec, Z.bits_0.
    destruct (Z.lt_ge_cases i 32) as [Hlt|Hge].
    - by rewrite Z.mul_pow2_bits_low by lia.
    - rewrite (Z.bits_above_log2 s i), andb_false_r; [done | lia |].
      destruct (Z.eq_dec s 0) as [->|Hne]; [simpl; lia|].
      apply Z.log2_lt_pow2; [lia|].
      apply Z.lt_le_trans with (2 ^ 32); [lia|].
      apply Z.pow_le_mono_r; lia. }
  rewrite <- Z.lxor_lor by done. symmetry. by apply Z.add_nocarry_lxor.
Qed.

(** With both ranks non-negative [int32] values the packed key is the
    number with digits [r] and [s] in base [2^32]. *)
Lemma pack_value (r s : Z) :
  0 ≤ r ≤ max_int32 → 0 ≤ s ≤ max_int32 → pack r s = r * 2 ^ 32 + s.
Proof.
  unfold max_int32, pack. intros Hr Hs.
  rewrite Z.shiftl_mul_pow2 by lia. rewrite wrap64_small by lia.
  apply lor_high_low. lia.
Qed.

Lemma pair_Ok (rank sa : list Z) (i k key : Z) :
  pair rank sa i k = Ok key ↔
  ∃ s r g, index sa i = Ok s ∧ index rank s = Ok r ∧
           getRank rank (add32 s k) = Ok g ∧ key = pack r g.
Proof.
  unfold pair. split.
  - intros (s & Hs & (r & Hr & (g & Hg & [= <-])%bind_Ok)%bind_Ok)%bind_Ok.
    by exists s, r, g.
  - intros (s & r & g & Hs & Hr & Hg & ->).
    rewrite Hs; simpl. rewrite Hr; simpl. by rewrite Hg.
Qed.

(** ** The C-table *)

(** The number of characters of [l] with value [v], and with a value
    below [v]. *)
Definition occ (v : Z) (l : list byte) : Z :=
  len (filter (λ c, int_of_byte c = v) l).
Definition below (v : Z) (l : list byte) : Z :=
  len (filter (λ c, int_of_byte c < v) l).

Lemma occ_nil v : occ v [] = 0.
Proof. done. Qed.

Lemma occ_snoc v l c :
  occ v (l ++ [c]) = occ v l + (if decide (int_of_byte c = v) then 1 else 0).
Proof.
  unfold occ, len. rewrite filter_app, length_app.
  rewrite filter_cons, filter_nil. case_decide; simpl; lia.
Qed.

Lemma occ_cons v l c :
  occ v (c :: l) = (if decide (int_of_byte c = v) then 1 else 0) + occ v l.
Proof.
  unfold occ, len. rewrite filter_cons. case_decide; simpl; lia.
Qed.

Lemma below_cons v l c :
  below v (c :: l) = (if decide (int_of_byte c < v) then 1 else 0) + below v l.
Proof.
  unfold below, len. rewrite filter_cons. case_decide; simpl; lia.
Qed.

Lemma occ_nonneg v l : 0 ≤ occ v l.
Proof. unfold occ, len. lia. Qed.

Lemma below_succ v l : below (v + 1) l = below v l + occ v l.
Proof.
  induction l as [|c l IH]; [done|].
  rewrite !below_cons, occ_cons, IH. repeat case_decide; lia.
Qed.

Lemma below_mono v w l : v ≤ w → below v l ≤ below w l.
Proof.
  intros Hvw. induction l as [|c l IH]; [done|].
  rewrite !below_cons. repeat case_decide; lia.
Qed.

Lemma below_zero l : below 0 l = 0.
Proof.
  induction l as [|c l IH]; [done|].
  rewrite below_cons, IH. pose proof (int_of_byte_range c).
  case_decide; lia.
Qed.

(** The first loop of [NewCTab] counts every character. *)
Lemma NewCTab_count (bwt : list byte) :
  ∃ counts,
    for_range bwt (λ b counts,
      c ← index counts (int_of_byte b);
      store counts (int_of_byte b) (c + 1)) (replicate 256 0) = Ok counts ∧
    length counts = 256%nat ∧
    ∀ v, 0 ≤ v < 256 → counts !! Z.to_nat v = Some (occ v bwt).
Proof.
  apply (for_range_total (λ done counts,
    length counts = 256%nat ∧
    ∀ v, 0 ≤ v < 256 → counts !! Z.to_nat v = Some (occ v done))).
  - split; [done|]. intros v Hv. rewrite occ_nil.
    apply lookup_replicate_2. lia.
  - intros done b counts [Hlen Hc].
    pose proof (int_of_byte_range b) as Hb.
    rewrite (index_lookup_Z _ _ _ (proj1 Hb) (Hc _ Hb)). simpl.
    rewrite store_in_range by (unfold len; lia).
    eexists; split; [done|]. split; [by rewrite length_insert|].
    intros v Hv. rewrite occ_snoc.
    destruct (decide (int_of_byte b = v)) as [->|Hne].
    + rewrite list_lookup_insert_eq by lia. done.
    + rewrite list_lookup_insert_ne by lia. rewrite Hc by done. f_equal. lia.
Qed.

(** The second loop of [NewCTab] replaces every count by the sum of the
    counts before it. *)
Lemma NewCTab_cumsum (bwt : list byte) (counts : list Z) :
  length counts = 256%nat →
  (∀ v, 0 ≤ v < 256 → counts !! Z.to_nat v = Some (occ v bwt)) →
  ∃ counts' n,
    for_loop (length counts) 0 (λ i '(counts, n),
      count ← index counts i;
      counts' ← store counts i n;
      Ok (counts', n + count)) (counts, 0) = Ok (counts', n) ∧
    length counts' = 256%nat ∧
    ∀ v, 0 ≤ v < 256 → counts' !! Z.to_nat v = Some (below v bwt).
Proof.
  intros Hlen Hc. rewrite Hlen.
  destruct (for_loop_total (λ i '(cs, n),
    length cs = 256%nat ∧ n = below i bwt ∧
    ∀ v, 0 ≤ v < 256 →
      cs !! Z.to_nat v = Some (if v <? i then below v bwt else occ v bwt))
    256 0 (λ i '(counts, n),
      count ← index counts i;
      counts' ← store counts i n;
      Ok (counts', n + count)) (counts, 0)) as ([cs n] & Hloop & Hl & Hn & Hcs).
  - split; [done|]. split; [by rewrite below_zero|].
    intros v Hv. rewrite Hc by done.
    destruct (Z.ltb_spec v 0); [lia | done].
  - intros i [cs n] Hi (Hl & -> & Hcs).
    rewrite (index_lookup_Z cs i (occ i bwt)); [|lia|].
    2:{ rewrite Hcs by lia. destruct (Z.ltb_spec i i); [lia | done]. }
    simpl. rewrite store_in_range by (unfold len; lia). simpl.
    eexists; split; [done|]. split; [by rewrite length_insert|].
    split; [by rewrite below_succ|].
    intros v Hv. destruct (decide (v = i)) as [->|Hne].
    + rewrite list_lookup_insert_eq by lia.
      destruct (Z.ltb_spec i (i + 1)); [done | lia].
    + rewrite list_lookup_insert_ne by lia. rewrite Hcs by done.
      destruct (Z.ltb_spec v i), (Z.ltb_spec v (i + 1)); try done; lia.
  - exists cs, n. split; [done|]. split; [done|].
    intros v Hv. rewrite Hcs by done.
    destruct (Z.ltb_spec v (0 + Z.of_nat 256)); [done | lia].
Qed.

Lemma NewCTab_256 (bwt : list byte) :
  ∃ ctab, NewCTab bwt 256 = Ok ctab ∧
    ∀ a, CTab_Rank ctab a = Ok (below (int_of_byte a) bwt).
Proof.
  destruct (NewCTab_count bwt) as (counts & Hcount & Hlen & Hc).
  destruct (NewCTab_cumsum bwt counts Hlen Hc) as (cs & n & Hsum & Hl & Hcs).
  exists (MkCTab cs). split.
  - unfold NewCTab, make. change (256 <? 0) with false. cbv iota.
    change (Z.to_nat 256) with 256%nat.
    rewrite Ok_bind, Hcount, Ok_bind, Hsum. done.
  - intros a. unfold CTab_Rank. simpl.
    pose proof (int_of_byte_range a) as Ha.
    apply (index_lookup_Z _ _ _ (proj1 Ha)). by apply Hcs.
Qed.

Lemma OTab_set_in_range (otab : OTab) (a : byte) (i v : Z) :
  0 ≤ OTab_offset otab a i < len (table otab) →
  OTab_set otab a i v =
  Ok (MkOTab (nrow otab) (ncol otab)
        (<[Z.to_nat (OTab_offset otab a i) := v]> (table otab))).
Proof. intros H. unfold OTab_set. by rewrite store_in_range. Qed.

Section otab.
Variable y : list byte.

(** The number of characters with value [b] among the first [i] of [y]. *)
Definition cnt (b i : Z) : Z := occ b (take (Z.to_nat i) y).

(** The entry of row [b] and column [i] in a table with [len y] columns. *)
Definition cell (t : list Z) (b i : Z) : option Z :=
  t !! Z.to_nat (len y * (b - 1) + (i - 1)).

Definition in_table (b i : Z) : Prop := 1 ≤ b ≤ 255 ∧ 1 ≤ i ≤ len y.

Lemma offset_range b i :
  in_table b i → 0 ≤ len y * (b - 1) + (i - 1) < 255 * len y.
Proof. unfold in_table. intros [Hb Hi]. nia. Qed.

Lemma offset_inj b i b' i' :
  in_table b i → in_table b' i' →
  len y * (b - 1) + (i - 1) = len y * (b' - 1) + (i' - 1) →
  b = b' ∧ i = i'.
Proof.
  unfold in_table. intros [Hb Hi] [Hb' Hi'] Heq.
  destruct (Z.lt_trichotomy b b') as [Hlt|[->|Hgt]]; [nia | lia | nia].
Qed.

Lemma cell_insert_eq t b i v :
  length t = Z.to_nat (255 * len y) → in_table b i →
  cell (<[Z.to_nat (len y * (b - 1) + (i - 1)) := v]> t) b i = Some v.
Proof.
  intros Hl Hin. pose proof (offset_range b i Hin).
  unfold cell. rewrite list_lookup_insert_eq; [done | lia].
Qed.

Lemma cell_insert_ne t b i b' i' v :
  in_table b i → in_table b' i' → (b, i) ≠ (b', i') →
  cell (<[Z.to_nat (len y * (b - 1) + (i - 1)) := v]> t) b' i' = cell t b' i'.
Proof.
  intros Hin Hin' Hne. unfold cell. apply list_lookup_insert_ne.
  pose proof (offset_range b i Hin). pose proof (offset_range b' i' Hin').
  intros Heq. apply Hne.
  destruct (offset_inj b i b' i' Hin Hin') as [-> ->]; [lia | done].
Qed.

Lemma cnt_zero b : cnt b 0 = 0.
Proof. done. Qed.

Lemma cnt_succ b i c :
  1 ≤ i → y !! Z.to_nat (i - 1) = Some c →
  cnt b i = cnt b (i - 1) + (if decide (int_of_byte c = b) then 1 else 0).
Proof.
  intros Hi Hc. unfold cnt.
  replace (Z.to_nat i) with (S (Z.to_nat (i - 1))) by lia.
  rewrite (take_S_r _ _ _ Hc). apply occ_snoc.
Qed.

(** The table while row [a] is filled up to column [i - 1]: the rows
    before [a] are complete, the rows after [a] hold their first column
    only. *)
Definition filling (a i : Z) (otab : OTab) : Prop :=
  nrow otab = 255 ∧ ncol otab = len y ∧
  length (table otab) = Z.to_nat (255 * len y) ∧
  ∀ b j, in_table b j →
    cell (table otab) b j =
    Some (if b <? a then cnt b j
          else if b =? a then (if j <? i then cnt b j else 0)
          else (if j =? 1 then cnt b 1 else 0)).

Lemma filling_next_row a otab :
  filling a (len y + 1) otab → filling (a + 1) 2 otab.
Proof.
  intros (Hr & Hc & Hl & Ht). repeat split; try done.
  intros b j Hin. rewrite Ht by done. destruct Hin as [Hb Hj]. f_equal.
  destruct (Z.ltb_spec b a), (Z.ltb_spec b (a + 1)), (Z.eqb_spec b a),
    (Z.eqb_spec b (a + 1)), (Z.ltb_spec j (len y + 1)), (Z.ltb_spec j 2),
    (Z.eqb_spec j 1); try lia; try done.
  all: by replace j with 1 by lia.
Qed.

(** One assignment of the inner loop of [NewOTab]. *)
Lemma NewOTab_inner_step a i otab :
  1 ≤ a ≤ 255 → 2 ≤ i ≤ len y → filling a i otab →
  ∃ otab',
    (val ← OTab_get otab (byte_of_int a) (i - 1);
     c ← index y (i - 1);
     let val := if decide (c = byte_of_int a) then val + 1 else val in
     OTab_set otab (byte_of_int a) i val) = Ok otab' ∧
    filling a (i + 1) otab'.
Proof.
  intros Ha Hi (Hr & Hc & Hl & Ht).
  assert (int_of_byte (byte_of_int a) = a) as Hba
    by (apply int_of_byte_of_int; lia).
  assert (in_table a (i - 1)) as Hin1 by (unfold in_table; lia).
  assert (in_table a i) as Hin by (unfold in_table; lia).
  pose proof (offset_range a (i - 1) Hin1) as Ho1.
  pose proof (offset_range a i Hin) as Ho.
  destruct (index_in_range y (i - 1)) as (c & Hyc & Hc'); [lia|].
  unfold OTab_get, OTab_set, OTab_offset. rewrite Hba, Hc.
  rewrite (index_lookup_Z _ _ (cnt a (i - 1))); [|lia|].
  2:{ change (cell (table otab) a (i - 1) = Some (cnt a (i - 1))).
      rewrite Ht by done.
      destruct (Z.ltb_spec a a), (Z.eqb_spec a a), (Z.ltb_spec (i - 1) i);
        try lia; done. }
  rewrite Ok_bind, Hyc, Ok_bind. cbv zeta.
  rewrite store_in_range by (unfold len in *; lia). rewrite Ok_bind.
  eexists; split; [done|]. repeat split; simpl; try done.
  { by rewrite length_insert. }
  intros b j Hinb.
  assert ((if decide (c = byte_of_int a) then cnt a (i - 1) + 1
           else cnt a (i - 1)) = cnt a i) as ->.
  { rewrite (cnt_succ a i c) by (done || lia).
    destruct (decide (c = byte_of_int a)) as [He|Hne];
      destruct (decide (int_of_byte c = a)) as [He'|Hne']; try lia.
    - exfalso. apply Hne'. by rewrite He.
    - exfalso. apply Hne. by rewrite <- He', byte_of_int_of_byte. }
  destruct (decide ((a, i) = (b, j))) as [[= <- <-]|Hne].
  - rewrite cell_insert_eq by done. f_equal.
    destruct (Z.ltb_spec a a), (Z.eqb_spec a a), (Z.ltb_spec i (i + 1));
      try lia; done.
  - rewrite cell_insert_ne by done. rewrite Ht by done. f_equal.
    destruct Hinb as [Hb Hj].
    destruct (Z.ltb_spec b a), (Z.eqb_spec b a), (Z.ltb_spec j i),
      (Z.ltb_spec j (i + 1)); try lia; try done.
    subst b. assert (j = i) by lia. congruence.
Qed.

(** The inner loop of [NewOTab] completes row [a]. *)
Lemma NewOTab_inner a otab :
  1 ≤ a ≤ 255 → y ≠ [] → filling a 2 otab →
  ∃ otab',
    for_loop (length y - 1) 2 (λ i otab,
      val ← OTab_get otab (byte_of_int a) (i - 1);
      c ← index y (i - 1);
      let val := if decide (c = byte_of_int a) then val + 1 else val in
      OTab_set otab (byte_of_int a) i val) otab = Ok otab' ∧
    filling (a + 1) 2 otab'.
Proof.
  intros Ha Hy Hf.
  assert (1 ≤ len y) as Hlen by (unfold len; destruct y; [done | simpl; lia]).
  destruct (for_loop_total (λ i otab, filling a i otab) (length y - 1) 2
    (λ i otab,
      val ← OTab_get otab (byte_of_int a) (i - 1);
      c ← index y (i - 1);
      let val := if decide (c = byte_of_int a) then val + 1 else val in
      OTab_set otab (byte_of_int a) i val) otab) as (otab' & Hloop & Hf').
  - done.
  - intros i ot Hi Hfi. apply NewOTab_inner_step; [done | | done].
    unfold len. lia.
  - exists otab'. split; [done|]. apply filling_next_row.
    replace (len y + 1) with (2 + Z.of_nat (length y - 1))
      by (unfold len in *; lia). done.
Qed.

(** [NewOTab] on a string that starts with a character other than the
    sentinel.  *)
Lemma NewOTab_256 b0 :
  y !! 0%nat = Some b0 → b0 ≠ x00 →
  ∃ otab, NewOTab y 256 = Ok otab ∧ filling 256 2 otab.
Proof.
  intros Hb0 Hne.
  assert (y ≠ []) as Hy by (by destruct y).
  assert (1 ≤ len y) as Hlen by (unfold len; destruct y; [done | simpl; lia]).
  pose proof (int_of_byte_range b0) as Hr.
  assert (int_of_byte b0 ≠ 0) as Hr0 by (by rewrite int_of_byte_zero).
  unfold NewOTab, make.
  destruct (Z.ltb_spec ((256 - 1) * len y) 0) as [|_]; [lia|].
  rewrite Ok_bind, (index_lookup_Z y 0 b0 (Z.le_refl 0) Hb0), Ok_bind.
  assert (in_table (int_of_byte b0) 1) as Hin0 by (unfold in_table; lia).
  pose proof (offset_range _ _ Hin0) as Ho.
  rewrite OTab_set_in_range
    by (unfold OTab_offset; simpl; rewrite len_replicate; lia).
  rewrite Ok_bind. unfold OTab_offset at 1. simpl nrow. simpl ncol. simpl table.
  change (256 - 1) with 255. change (Z.to_nat 255) with 255%nat.
  match goal with |- ∃ _, for_loop _ _ _ ?s = _ ∧ _ => set (otab0 := s) end.
  destruct (for_loop_total (λ a otab, filling a 2 otab) 255 1
    (λ a otab,
      for_loop (length y - 1) 2 (λ i otab,
        val ← OTab_get otab (byte_of_int a) (i - 1);
        c ← index y (i - 1);
        let val := if decide (c = byte_of_int a) then val + 1 else val in
        OTab_set otab (byte_of_int a) i val) otab) otab0)
    as (otab & Hloop & Hf).
  - unfold otab0, filling. simpl. repeat split; try done.
    { rewrite length_insert, length_replicate. done. }
    intros b j Hin.
    assert (cnt b 1 = if decide (int_of_byte b0 = b) then 1 else 0) as Hc1.
    { rewrite (cnt_succ b 1 b0) by (done || lia). simpl. by rewrite cnt_zero. }
    destruct (decide ((int_of_byte b0, 1) = (b, j))) as [[= <- <-]|Hneq].
    + rewrite cell_insert_eq; [|by rewrite length_replicate|done].
      f_equal. rewrite Hc1.
      destruct (Z.ltb_spec (int_of_byte b0) 1), (Z.eqb_spec (int_of_byte b0) 1),
        (decide (int_of_byte b0 = int_of_byte b0)); try lia; done.
    + rewrite cell_insert_ne by done. unfold cell.
      pose proof (offset_range _ _ Hin).
      rewrite lookup_replicate_2 by lia. f_equal. destruct Hin as [Hb Hj].
      destruct (Z.ltb_spec b 1); [lia|].
      destruct (decide (j = 1)) as [->|Hj1].
      * change (1 <? 2) with true. change (1 =? 1) with true. cbv iota.
        rewrite Hc1. destruct (decide (int_of_byte b0 = b)) as [He|_].
        { exfalso. apply Hneq. by rewrite He. }
        by destruct (b =? 1).
      * destruct (Z.ltb_spec j 2), (Z.eqb_spec j 1); try lia.
        by destruct (b =? 1).
  - intros a ot Ha Hfa. apply NewOTab_inner; [lia | done | done].
  - exists otab. split; [done|]. done.
Qed.

(** Every query other than for the sentinel row is answered with the
    count; a query at column 0 is answered with 0 for every row. *)
Lemma filling_Rank otab :
  filling 256 2 otab →
  (∀ a, OTab_Rank otab a 0 = Ok 0) ∧
  (∀ a i, a ≠ x00 → 0 ≤ i ≤ len y →
     OTab_Rank otab a i =
     Ok (len (filter (λ c, c = a) (take (Z.to_nat i) y)))).
Proof.
  intros (Hr & Hc & Hl & Ht). split; [done|].
  intros a i Ha Hi. unfold OTab_Rank.
  assert (len (filter (λ c, c = a) (take (Z.to_nat i) y)) =
          cnt (int_of_byte a) i) as ->.
  { unfold cnt, occ. f_equal. apply list_filter_iff. intros c. split.
    - by intros ->.
    - apply int_of_byte_inj. }
  destruct (Z.eqb_spec i 0) as [->|Hi0]; [done|].
  pose proof (int_of_byte_range a) as Hra.
  assert (int_of_byte a ≠ 0) as Hr0 by (by rewrite int_of_byte_zero).
  assert (in_table (int_of_byte a) i) as Hin by (unfold in_table; lia).
  pose proof (offset_range _ _ Hin).
  unfold OTab_get, OTab_offset. rewrite Hc.
  apply index_lookup_Z; [lia|].
  change (cell (table otab) (int_of_byte a) i = Some (cnt (int_of_byte a) i)).
  rewrite Ht by done.
  destruct (Z.ltb_spec (int_of_byte a) 256); [done | lia].
Qed.
End otab.

(** [NewOTab] and [Rank] on a string that starts with a character other
    than the sentinel. *)
Lemma NewOTab_Rank (y : list byte) (b0 : byte) :
  y !! 0%nat = Some b0 → b0 ≠ x00 →
  ∃ otab, NewOTab y 256 = Ok otab ∧
    (∀ a, OTab_Rank otab a 0 = Ok 0) ∧
    (∀ a i, a ≠ x00 → 0 ≤ i ≤ len y →
       OTab_Rank otab a i =
       Ok (len (filter (λ c, c = a) (take (Z.to_nat i) y)))).
Proof.
  intros Hb0 Hne. destruct (NewOTab_256 y b0 Hb0 Hne) as (otab & Hnew & Hf).
  exists otab. split; [done|]. by apply filling_Rank.
Qed.

(** ** Sorting into buckets *)

Lemma filter_all {A} (P : A → Prop) `{∀ x, Decision (P x)} (l : list A) :
  Forall P l → filter P l = l.
Proof.
  induction 1 as [|x l Hx _ IH]; [done|]. by rewrite filter_cons_True, IH.
Qed.

Lemma filter_none {A} (P : A → Prop) `{∀ x, Decision (P x)} (l : list A) :
  Forall (λ x, ¬ P x) l → filter P l = [].
Proof.
  induction 1 as [|x l Hx _ IH]; [done|]. by rewrite filter_cons_False.
Qed.

Section bucket_sort.
Variable f : Z → Z.

(** The number of elements of [l] in bucket [b], and in the buckets
    before [b]. *)
Definition cntf (b : Z) (l : list Z) : Z := len (filter (λ s, f s = b) l).
Definition belowf (b : Z) (l : list Z) : Z := len (filter (λ s, f s < b) l).

(** The buckets 0 to [m - 1] of [l] one after the other, each in the order
    of [l]: the stable sort of [l] by [f] when [f] is below [m] on [l]. *)
Fixpoint buckets_upto (l : list Z) (m : nat) : list Z :=
  match m with
  | O => []
  | S m' => buckets_upto l m' ++ filter (λ s, f s = Z.of_nat m') l
  end.

Definition bucket_sort (l : list Z) : list Z := buckets_upto l 256.

Lemma cntf_nonneg b l : 0 ≤ cntf b l.
Proof. unfold cntf, len. lia. Qed.

Lemma belowf_nonneg b l : 0 ≤ belowf b l.
Proof. unfold belowf, len. lia. Qed.

Lemma cntf_app b l1 l2 : cntf b (l1 ++ l2) = cntf b l1 + cntf b l2.
Proof. unfold cntf, len. rewrite filter_app, length_app. lia. Qed.

Lemma cntf_cons b s l :
  cntf b (s :: l) = (if decide (f s = b) then 1 else 0) + cntf b l.
Proof. unfold cntf, len. rewrite filter_cons. case_decide; simpl; lia. Qed.

Lemma belowf_cons b s l :
  belowf b (s :: l) = (if decide (f s < b) then 1 else 0) + belowf b l.
Proof. unfold belowf, len. rewrite filter_cons. case_decide; simpl; lia. Qed.

Lemma belowf_succ b l : belowf (b + 1) l = belowf b l + cntf b l.
Proof.
  induction l as [|s l IH]; [done|].
  rewrite !belowf_cons, cntf_cons, IH. repeat case_decide; lia.
Qed.

Lemma belowf_mono b c l : b ≤ c → belowf b l ≤ belowf c l.
Proof.
  intros Hbc. induction l as [|s l IH]; [done|].
  rewrite !belowf_cons. repeat case_decide; lia.
Qed.

Lemma belowf_le_len b l : belowf b l ≤ len l.
Proof. unfold belowf, len. pose proof (length_filter (λ s, f s < b) l). lia. Qed.

Lemma belowf_zero l : Forall (λ s, 0 ≤ f s) l → belowf 0 l = 0.
Proof.
  induction 1 as [|s l Hs _ IH]; [done|].
  rewrite belowf_cons, IH. case_decide; lia.
Qed.

Lemma belowf_all b l : Forall (λ s, f s < b) l → belowf b l = len l.
Proof.
  induction 1 as [|s l Hs _ IH]; [done|].
  rewrite belowf_cons, IH. unfold len. simpl. case_decide; lia.
Qed.

(** The element at index [i] is the next one of its bucket after those of
    the first [i] elements. *)
Lemma filter_lookup_take (P : Z → Prop) `{∀ s, Decision (P s)}
    (l : list Z) (i : nat) (s : Z) :
  l !! i = Some s → P s →
  filter P l !! length (filter P (take i l)) = Some s.
Proof.
  intros Hi Hs.
  assert (filter P l = filter P (take i l) ++ s :: filter P (drop (S i) l))
    as ->.
  { rewrite <- (take_drop_middle l i s Hi) at 1.
    by rewrite filter_app, filter_cons_True. }
  rewrite lookup_app_r by lia. by rewrite Nat.sub_diag.
Qed.

Lemma cntf_take_S b l i s :
  l !! i = Some s →
  cntf b (take (S i) l) =
  cntf b (take i l) + (if decide (f s = b) then 1 else 0).
Proof.
  intros Hi. rewrite (take_S_r _ _ _ Hi), cntf_app, cntf_cons.
  change (cntf b []) with 0. case_decide; lia.
Qed.

Lemma cntf_take_lt l i s :
  l !! i = Some s → cntf (f s) (take i l) < cntf (f s) l.
Proof.
  intros Hi. rewrite <- (take_drop_middle l i s Hi) at 2.
  rewrite cntf_app, cntf_cons. pose proof (cntf_nonneg (f s) (drop (S i) l)).
  case_decide; [lia | done].
Qed.

Lemma len_buckets_upto l m :
  Forall (λ s, 0 ≤ f s) l → len (buckets_upto l m) = belowf (Z.of_nat m) l.
Proof.
  intros Hl. induction m as [|m IH]; simpl buckets_upto.
  - by rewrite belowf_zero.
  - replace (Z.of_nat (S m)) with (Z.of_nat m + 1) by lia.
    rewrite belowf_succ, <- IH. unfold cntf, len. rewrite length_app. lia.
Qed.

Lemma lookup_buckets_upto l m b j :
  Forall (λ s, 0 ≤ f s) l →
  0 ≤ b < Z.of_nat m → 0 ≤ j < cntf b l →
  buckets_upto l m !! Z.to_nat (belowf b l + j) =
  filter (λ s, f s = b) l !! Z.to_nat j.
Proof.
  intros Hl Hb Hj. induction m as [|m IH]; [lia|]. simpl buckets_upto.
  pose proof (len_buckets_upto l m Hl) as Hlen. unfold len in Hlen.
  pose proof (belowf_nonneg b l).
  destruct (decide (b = Z.of_nat m)) as [->|Hne].
  - rewrite lookup_app_r by lia. f_equal. lia.
  - rewrite lookup_app_l; [apply IH; lia|].
    assert (belowf (b + 1) l ≤ belowf (Z.of_nat m) l)
      by (apply belowf_mono; lia).
    rewrite belowf_succ in *. lia.
Qed.

(** Every index of the sorted list is an index in some bucket. *)
Lemma buckets_upto_index l m p :
  Forall (λ s, 0 ≤ f s) l →
  0 ≤ p < belowf (Z.of_nat m) l →
  ∃ b j, 0 ≤ b < Z.of_nat m ∧ 0 ≤ j < cntf b l ∧ p = belowf b l + j.
Proof.
  intros Hl. induction m as [|m IH]; intros Hp.
  - rewrite belowf_zero in Hp by done. lia.
  - replace (Z.of_nat (S m)) with (Z.of_nat m + 1) in Hp by lia.
    rewrite belowf_succ in Hp.
    destruct (Z.lt_ge_cases p (belowf (Z.of_nat m) l)) as [Hlt|Hge].
    + destruct IH as (b & j & Hb & Hj & ->); [lia|].
      exists b, j. split; [lia | done].
    + exists (Z.of_nat m), (p - belowf (Z.of_nat m) l). lia.
Qed.

Lemma bucket_sort_len l :
  Forall (λ s, 0 ≤ f s < 256) l → len (bucket_sort l) = len l.
Proof.
  intros Hl. unfold bucket_sort. rewrite len_buckets_upto.
  - apply belowf_all. eapply Forall_impl; [done|]. simpl. lia.
  - eapply Forall_impl; [done|]. simpl. lia.
Qed.

Lemma filter_buckets_upto_above l m b :
  Z.of_nat m ≤ b → filter (λ s, f s = b) (buckets_upto l m) = [].
Proof.
  intros Hb. induction m as [|m IH]; [done|]. simpl buckets_upto.
  rewrite filter_app, IH by lia. simpl.
  rewrite list_filter_filter. clear IH.
  induction l as [|s l IHl]; [done|].
  rewrite filter_cons. case_decide; [lia | done].
Qed.


Lemma bucket_sort_Permutation l :
  Forall (λ s, 0 ≤ f s < 256) l → bucket_sort l ≡ₚ l.
Proof.
  intros Hl. unfold bucket_sort.
  assert (∀ m : nat, buckets_upto l m ≡ₚ filter (λ s, f s < Z.of_nat m) l) as H.
  { induction m as [|m IH]; simpl buckets_upto.
    - assert (filter (λ s, f s < Z.of_nat 0) l = []) as ->; [|done].
      apply filter_none. eapply Forall_impl; [done|]. simpl. lia.
    - rewrite IH. clear IH Hl. induction l as [|s l IHl]; [done|].
      rewrite !filter_cons.
      destruct (decide (f s < Z.of_nat m)), (decide (f s = Z.of_nat m)),
        (decide (f s < Z.of_nat (S m))); try lia; simpl.
      + by rewrite IHl.
      + rewrite <- IHl. by rewrite Permutation_middle.
      + done. }
  rewrite H. clear H.
  assert (filter (λ s, f s < Z.of_nat 256) l = l) as ->; [|done].
  apply filter_all. eapply Forall_impl; [done|]. simpl. lia.
Qed.

(** The sort puts the buckets in increasing order. *)
Lemma bucket_sort_sorted l i j s t :
  Forall (λ s, 0 ≤ f s) l → (i < j)%nat →
  bucket_sort l !! i = Some s → bucket_sort l !! j = Some t → f s ≤ f t.
Proof.
  unfold bucket_sort. generalize 256%nat as m. intros m Hl Hij.
  revert i j s t Hij. induction m as [|m IH]; intros i j s t Hij Hi Hj; [done|].
  simpl buckets_upto in *.
  assert (∀ p u, buckets_upto l m !! p = Some u → f u < Z.of_nat m) as Hlow.
  { intros p u Hp. apply list_elem_of_lookup_2 in Hp.
    destruct (Z.lt_ge_cases (f u) (Z.of_nat m)) as [|Hge]; [done|].
    pose proof (filter_buckets_upto_above l m (f u) Hge) as Hnil.
    eapply (filter_nil_not_elem_of _ _ u) in Hnil; done. }
  assert (∀ p u, filter (λ s, f s = Z.of_nat m) l !! p = Some u →
                 f u = Z.of_nat m) as Hhigh.
  { intros p u Hp. apply list_elem_of_lookup_2 in Hp.
    by apply list_elem_of_filter in Hp as [? _]. }
  apply lookup_app_Some in Hi as [Hi|[Hli Hi]];
    apply lookup_app_Some in Hj as [Hj|[Hlj Hj]].
  - by apply (IH i j).
  - apply Hlow in Hi. apply Hhigh in Hj. lia.
  - apply lookup_lt_Some in Hj. lia.
  - apply Hhigh in Hi. apply Hhigh in Hj. lia.
Qed.

(** A list in one bucket is left as it is. *)
Lemma bucket_sort_constant l :
  Forall (λ s, f s = 0) l → bucket_sort l = l.
Proof.
  intros Hl. unfold bucket_sort.
  assert (∀ b, b ≠ 0 → filter (λ s, f s = b) l = []) as Hnil.
  { intros b Hb. apply filter_none. eapply Forall_impl; [done|]. simpl. lia. }
  assert (filter (λ s, f s = 0) l = l) as H0 by by apply filter_all.
  assert (∀ m : nat, buckets_upto l (S m) = l) as H.
  { induction m as [|m IH].
    - simpl. done.
    - change (buckets_upto l (S (S m)))
        with (buckets_upto l (S m) ++ filter (λ s, f s = Z.of_nat (S m)) l).
      rewrite IH, Hnil by lia. by rewrite app_nil_r. }
  apply H.
Qed.

End bucket_sort.

(** ** One pass of the radix sort *)

Lemma cntf_le_len f b l : cntf f b l ≤ len l.
Proof. unfold cntf, len. pose proof (length_filter (λ s, f s = b) l). lia. Qed.

Section radix_pass.
Variables (rank : list Z) (k shift : Z) (src : list Z) (f : Z → Z).
Hypothesis Hlen : len src ≤ max_int32.
Hypothesis Hf : ∀ i s, src !! i = Some s →
  bucket_of rank src k shift (Z.of_nat i) = Ok (f s) ∧ 0 ≤ f s < 256.

Lemma src_buckets : Forall (λ s, 0 ≤ f s < 256) src.
Proof. apply Forall_lookup. intros i s Hi. by destruct (Hf i s Hi). Qed.

Lemma src_buckets_nonneg : Forall (λ s, 0 ≤ f s) src.
Proof. eapply Forall_impl; [apply src_buckets|]. simpl. lia. Qed.

Lemma src_at (i : Z) :
  0 ≤ i < len src →
  ∃ s, src !! Z.to_nat i = Some s ∧ index src i = Ok s ∧
       bucket_of rank src k shift i = Ok (f s) ∧ 0 ≤ f s < 256.
Proof.
  intros Hi. destruct (index_in_range src i Hi) as (s & Hs & Hs').
  exists s. split; [done|]. split; [done|].
  destruct (Hf _ _ Hs') as [Hb Hr]. rewrite Z2Nat.id in Hb by lia. done.
Qed.

(** The first loop counts the elements of every bucket. *)
Lemma count_loop :
  ∃ counts,
    for_loop (length src) 0 (count_body rank src k shift) (replicate 256 0)
      = Ok counts ∧
    length counts = 256%nat ∧
    ∀ b, 0 ≤ b < 256 → counts !! Z.to_nat b = Some (cntf f b src).
Proof.
  destruct (for_loop_total (λ i counts,
    length counts = 256%nat ∧
    ∀ b, 0 ≤ b < 256 →
      counts !! Z.to_nat b = Some (cntf f b (take (Z.to_nat i) src)))
    (length src) 0 (count_body rank src k shift) (replicate 256 0))
    as (counts & Hloop & Hl & Hc).
  - split; [by rewrite length_replicate|]. intros b Hb.
    rewrite lookup_replicate_2 by lia. done.
  - intros i counts Hi [Hl Hc].
    destruct (src_at i) as (s & Hs & _ & Hb & Hr); [unfold len; lia|].
    unfold count_body. rewrite Hb, Ok_bind.
    rewrite (index_lookup_Z _ _ _ (proj1 Hr) (Hc _ Hr)), Ok_bind.
    pose proof (cntf_take_lt f src _ s Hs).
    pose proof (cntf_nonneg f (f s) (take (Z.to_nat i) src)).
    pose proof (cntf_le_len f (f s) src).
    rewrite wrap32_small by (unfold max_int32 in Hlen; lia).
    rewrite store_in_range by (unfold len; lia).
    eexists; split; [done|]. split; [by rewrite length_insert|].
    intros b Hb'. replace (Z.to_nat (i + 1)) with (S (Z.to_nat i)) by lia.
    rewrite (cntf_take_S f b src _ s Hs).
    destruct (decide (f s = b)) as [<-|Hne].
    + rewrite list_lookup_insert_eq by lia. done.
    + rewrite list_lookup_insert_ne by lia. rewrite Hc by done. f_equal. lia.
  - exists counts. split; [done|]. split; [done|].
    intros b Hb. rewrite Hc by done. do 2 f_equal.
    apply take_ge. lia.
Qed.

(** The second loop turns the counts into the start of every bucket. *)
Lemma accumulate_loop (counts : list Z) :
  length counts = 256%nat →
  (∀ b, 0 ≤ b < 256 → counts !! Z.to_nat b = Some (cntf f b src)) →
  ∃ starts acc,
    for_loop 256 0 accumulate_body (counts, 0) = Ok (starts, acc) ∧
    length starts = 256%nat ∧
    ∀ b, 0 ≤ b < 256 → starts !! Z.to_nat b = Some (belowf f b src).
Proof.
  intros Hl Hc.
  destruct (for_loop_total (λ i '(bs, acc),
    length bs = 256%nat ∧ acc = belowf f i src ∧
    ∀ b, 0 ≤ b < 256 →
      bs !! Z.to_nat b = Some (if b <? i then belowf f b src else cntf f b src))
    256 0 accumulate_body (counts, 0)) as ([bs acc] & Hloop & Hl' & _ & Hbs).
  - split; [done|]. split; [by rewrite belowf_zero by apply src_buckets_nonneg|].
    intros b Hb. rewrite Hc by done. destruct (Z.ltb_spec b 0); [lia | done].
  - intros i [bs acc] Hi (Hl' & -> & Hbs). unfold accumulate_body.
    rewrite (index_lookup_Z bs i (cntf f i src)); [|lia|].
    2:{ rewrite Hbs by lia. destruct (Z.ltb_spec i i); [lia | done]. }
    rewrite Ok_bind, store_in_range by (unfold len; lia). rewrite Ok_bind.
    pose proof (belowf_le_len f (i + 1) src).
    pose proof (belowf_nonneg f (i + 1) src).
    rewrite <- belowf_succ.
    rewrite wrap32_small by (unfold max_int32 in Hlen; lia).
    eexists; split; [done|]. split; [by rewrite length_insert|].
    split; [done|].
    intros b Hb. destruct (decide (b = i)) as [->|Hne].
    + rewrite list_lookup_insert_eq by lia.
      destruct (Z.ltb_spec i (i + 1)); [done | lia].
    + rewrite list_lookup_insert_ne by lia. rewrite Hbs by done.
      destruct (Z.ltb_spec b i), (Z.ltb_spec b (i + 1)); try done; lia.
  - exists bs, acc. split; [done|]. split; [done|].
    intros b Hb. rewrite Hbs by done.
    destruct (Z.ltb_spec b (0 + Z.of_nat 256)); [done | lia].
Qed.

(** The state of the third loop after [i] elements: every bucket holds
    its elements among the first [i], in their order. *)
Definition placed (i : Z) (st : list Z * list Z) : Prop :=
  let '(bs, dst) := st in
  length bs = 256%nat ∧ length dst = length src ∧
  (∀ b, 0 ≤ b < 256 →
     bs !! Z.to_nat b =
     Some (belowf f b src + cntf f b (take (Z.to_nat i) src))) ∧
  (∀ b j, 0 ≤ b < 256 → 0 ≤ j < cntf f b (take (Z.to_nat i) src) →
     dst !! Z.to_nat (belowf f b src + j) =
     filter (λ s, f s = b) src !! Z.to_nat j).

Lemma place_step (i : Z) (st : list Z * list Z) :
  0 ≤ i < len src → placed i st →
  ∃ st', place_body rank src k shift i st = Ok st' ∧ placed (i + 1) st'.
Proof.
  intros Hi. destruct st as [bs dst]. intros (Hl & Hd & Hbs & Hdst).
  destruct (src_at i Hi) as (s & Hs & Hix & Hb & Hr).
  remember (belowf f (f s) src + cntf f (f s) (take (Z.to_nat i) src))
    as pos eqn:Epos.
  pose proof (cntf_take_lt f src _ s Hs) as Hlt.
  pose proof (cntf_nonneg f (f s) (take (Z.to_nat i) src)) as Hc0.
  pose proof (belowf_nonneg f (f s) src) as Hb0.
  pose proof (belowf_le_len f (f s + 1) src) as Hle.
  rewrite belowf_succ in Hle.
  assert (0 ≤ pos < Z.of_nat (length src)) as Hpos
    by (unfold len in *; lia).
  pose proof (Hbs _ Hr) as Hbpos. rewrite <- Epos in Hbpos.
  unfold place_body. rewrite Hb, Ok_bind.
  rewrite (index_lookup_Z bs (f s) pos (proj1 Hr) Hbpos), Ok_bind.
  rewrite Hix, Ok_bind.
  rewrite (store_in_range dst) by (unfold len in *; lia). rewrite Ok_bind.
  rewrite (store_in_range bs) by (unfold len in *; lia). rewrite Ok_bind.
  rewrite wrap32_small by (unfold max_int32 in Hlen; lia).
  eexists; split; [done|]. unfold placed.
  replace (Z.to_nat (i + 1)) with (S (Z.to_nat i)) by lia.
  split; [by rewrite length_insert|]. split; [by rewrite length_insert|].
  split.
  - intros b Hb'. rewrite (cntf_take_S f b src _ s Hs).
    destruct (decide (f s = b)) as [<-|Hne].
    + rewrite list_lookup_insert_eq by lia. f_equal. lia.
    + rewrite list_lookup_insert_ne by lia. rewrite Hbs by done. f_equal. lia.
  - intros b j Hb' Hj. rewrite (cntf_take_S f b src _ s Hs) in Hj.
    pose proof (belowf_nonneg f b src) as Hbb.
    destruct (decide (belowf f b src + j = pos)) as [Heq|Hne].
    + rewrite Heq, list_lookup_insert_eq by lia.
      assert (b = f s) as ->.
      { pose proof (cntf_nonneg f b (take (Z.to_nat i) src)).
        pose proof (cntf_le_len f b (take (Z.to_nat i) src)).
        destruct (Z.lt_trichotomy b (f s)) as [Hlt'|[Heq'|Hgt]]; [|done|].
        - pose proof (belowf_mono f (b + 1) (f s) src ltac:(lia)) as Hm.
          rewrite belowf_succ in Hm.
          assert (cntf f b (take (Z.to_nat i) src) ≤ cntf f b src).
          { rewrite <- (take_drop (Z.to_nat i) src) at 2. rewrite cntf_app.
            pose proof (cntf_nonneg f b (drop (Z.to_nat i) src)). lia. }
          destruct (decide (f s = b)); lia.
        - pose proof (belowf_mono f (f s + 1) b src ltac:(lia)) as Hm.
          rewrite belowf_succ in Hm. lia. }
      assert (j = cntf f (f s) (take (Z.to_nat i) src)) as ->
        by lia.
      symmetry. unfold cntf, len. rewrite Nat2Z.id.
      by apply filter_lookup_take.
    + rewrite list_lookup_insert_ne by lia. apply Hdst; [done|].
      destruct (decide (f s = b)) as [<-|Hne']; [|lia].
      lia.
Qed.

(** The third loop leaves the stable sort of [src] by bucket in [dst]. *)
Lemma place_loop (starts dst : list Z) :
  length starts = 256%nat → length dst = length src →
  (∀ b, 0 ≤ b < 256 → starts !! Z.to_nat b = Some (belowf f b src)) →
  ∃ bs,
    for_loop (length src) 0 (place_body rank src k shift) (starts, dst)
      = Ok (bs, bucket_sort f src).
Proof.
  intros Hl Hd Hs.
  destruct (for_loop_total placed (length src) 0
    (place_body rank src k shift) (starts, dst)) as ([bs dst'] & Hloop & Hp).
  - split; [done|]. split; [done|]. split.
    + intros b Hb. rewrite Hs by done. f_equal.
      change (take (Z.to_nat 0) src) with (@nil Z).
      change (cntf f b []) with 0. lia.
    + intros b j Hb Hj. change (take (Z.to_nat 0) src) with (@nil Z) in Hj.
      change (cntf f b []) with 0 in Hj. lia.
  - intros i st Hi. apply place_step. unfold len. lia.
  - exists bs. rewrite Hloop. do 2 f_equal.
    destruct Hp as (_ & Hd' & _ & Hdst).
    rewrite Z.add_0_l, Nat2Z.id, take_ge in Hdst by lia.
    pose proof (bucket_sort_len f src src_buckets) as Hbl. unfold len in Hbl.
    apply (list_eq_same_length _ _ (length src)); [lia | done |].
    intros p u v Hp Hu Hv.
    destruct (buckets_upto_index f src 256 (Z.of_nat p) src_buckets_nonneg)
      as (b & j & Hb & Hj & Hpj).
    { rewrite <- (len_buckets_upto f src 256 src_buckets_nonneg).
      fold (bucket_sort f src). unfold len. lia. }
    assert (p = Z.to_nat (belowf f b src + j)) as -> by lia.
    rewrite Hdst in Hu by (done || lia).
    unfold bucket_sort in Hv.
    rewrite (lookup_buckets_upto f src 256 b j src_buckets_nonneg) in Hv
      by (done || lia).
    congruence.
Qed.

Lemma radix_pass_sorts (dst : list Z) :
  length dst = length src →
  radix_pass rank (length src) k shift src dst = Ok (bucket_sort f src).
Proof.
  intros Hd. unfold radix_pass.
  destruct count_loop as (counts & -> & Hl & Hc). rewrite Ok_bind.
  destruct (accumulate_loop counts Hl Hc) as (starts & acc & -> & Hl' & Hs).
  rewrite Ok_bind.
  destruct (place_loop starts dst Hl' Hd Hs) as (bs & ->). done.
Qed.

End radix_pass.

(** ** [radixSortBuckets] *)

(** The key of element [s] in [radixSortBuckets]: [getRank(rank, s+k)]. *)
Definition sort_key (rank : list Z) (k : Z) (s : Z) : Z :=
  match getRank rank (add32 s k) with
  | Ok r => r
  | _ => 0
  end.

(** The elements whose key is read without a panic and fits in a byte. *)
Definition byte_key (rank : list Z) (k : Z) (s : Z) : Prop :=
  getRank rank (add32 s k) = Ok (sort_key rank k s) ∧
  0 ≤ sort_key rank k s < 256.

Lemma getRank_sort_key rank k s r :
  getRank rank (add32 s k) = Ok r → sort_key rank k s = r.
Proof. intros H. unfold sort_key. by rewrite H. Qed.

Lemma bucket_of_byte_key rank src k shift i s :
  src !! i = Some s → byte_key rank k s →
  bucket_of rank src k shift (Z.of_nat i) =
  Ok (Z.shiftr (sort_key rank k s) shift).
Proof.
  intros Hi [Hg _]. unfold bucket_of.
  rewrite (index_lookup _ _ _ Hi), Ok_bind, Hg. done.
Qed.

Lemma shiftr_byte r shift : 0 ≤ r < 256 → 0 ≤ shift → 0 ≤ Z.shiftr r shift < 256.
Proof.
  intros Hr Hs. rewrite Z.shiftr_div_pow2 by done.
  assert (0 < 2 ^ shift) by (apply Z.pow_pos_nonneg; lia).
  split; [apply Z.div_pos; lia|].
  apply Z.le_lt_trans with r; [|lia]. apply Z.div_le_upper_bound; nia.
Qed.

Lemma shiftr_byte_high r shift : 0 ≤ r < 256 → 8 ≤ shift → Z.shiftr r shift = 0.
Proof.
  intros Hr Hs. rewrite Z.shiftr_div_pow2 by lia. apply Z.div_small.
  split; [lia|]. apply Z.lt_le_trans with (2 ^ 8); [lia|].
  apply Z.pow_le_mono_r; lia.
Qed.

(** A pass over elements with byte keys sorts them by the shifted key. *)
Lemma radix_pass_byte_keys rank k shift src dst :
  0 ≤ shift → length dst = length src → len src ≤ max_int32 →
  Forall (byte_key rank k) src →
  radix_pass rank (length src) k shift src dst =
  Ok (bucket_sort (λ s, Z.shiftr (sort_key rank k s) shift) src).
Proof.
  intros Hs Hd Hlen Hsrc. apply radix_pass_sorts; [done | | done].
  intros i s Hi. pose proof (Forall_lookup_1 _ _ _ _ Hsrc Hi) as Hk.
  split; [by apply bucket_of_byte_key|].
  apply shiftr_byte; [apply Hk | done].
Qed.

(** A pass for one of the three high bytes leaves the order as it is. *)
Lemma radix_pass_high_byte rank k shift src dst :
  8 ≤ shift → length dst = length src → len src ≤ max_int32 →
  Forall (byte_key rank k) src →
  radix_pass rank (length src) k shift src dst = Ok src.
Proof.
  intros Hs Hd Hlen Hsrc. rewrite radix_pass_byte_keys by (done || lia).
  f_equal. apply bucket_sort_constant.
  eapply Forall_impl; [done|]. intros s [_ Hr]. simpl.
  by apply shiftr_byte_high.
Qed.

(** A pass that returns has found every key in a bucket. *)
Lemma radix_pass_Ok_buckets rank k shift src dst dst' :
  radix_pass rank (length src) k shift src dst = Ok dst' →
  ∀ i s, src !! i = Some s →
    ∃ b, bucket_of rank src k shift (Z.of_nat i) = Ok b ∧ 0 ≤ b < 256.
Proof.
  unfold radix_pass. intros (counts & Hcount & _)%bind_Ok i s Hi.
  pose proof (for_loop_partial (λ j bs,
    length bs = 256%nat ∧
    ∀ i : nat, Z.of_nat i < j → is_Some (src !! i) →
      ∃ b, bucket_of rank src k shift (Z.of_nat i) = Ok b ∧ 0 ≤ b < 256)
    _ _ _ _ _ Hcount) as H.
  destruct H as [_ H].
  - split; [by rewrite length_replicate|]. intros; lia.
  - intros j bs bs' Hj [Hl Hbs] Hbody. unfold count_body in Hbody.
    apply bind_Ok in Hbody as (b & Hb & (c & Hc & Hst%store_Ok)%bind_Ok).
    destruct Hst as [Hb' ->]. split; [by rewrite length_insert|].
    intros i' Hi' Hsome. destruct (decide (Z.of_nat i' = j)) as [<-|Hne].
    + exists b. split; [done|]. unfold len in Hb'. lia.
    + apply Hbs; [lia | done].
  - apply H; [|done]. apply lookup_lt_Some in Hi. lia.
Qed.

Lemma radix_pass_Ok_byte_keys rank k src dst dst' :
  radix_pass rank (length src) k 0 src dst = Ok dst' →
  Forall (byte_key rank k) src.
Proof.
  intros Hpass. apply Forall_lookup. intros i s Hi.
  destruct (radix_pass_Ok_buckets _ _ _ _ _ _ Hpass i s Hi) as (b & Hb & Hr).
  unfold bucket_of in Hb. rewrite (index_lookup _ _ _ Hi), Ok_bind in Hb.
  apply bind_Ok in Hb as (r & Hg & [= <-]).
  change (Z.shiftr r 0) with r in Hr.
  unfold byte_key. by rewrite (getRank_sort_key _ _ _ _ Hg).
Qed.

Lemma radixSortBuckets_unfold rank sa buf k :
  radixSortBuckets rank sa buf k =
  (buf1 ← radix_pass rank (length sa) k 0 sa buf;
   sa1 ← radix_pass rank (length sa) k 8 buf1 sa;
   buf2 ← radix_pass rank (length sa) k 16 sa1 buf1;
   sa2 ← radix_pass rank (length sa) k 24 buf2 sa1;
   Ok (sa2, buf2)).
Proof.
  unfold radixSortBuckets. cbn [for_range]. unfold radix_step.
  destruct (radix_pass rank (length sa) k 0 sa buf) as [buf1| |];
    [|done..]. rewrite !Ok_bind.
  destruct (radix_pass rank (length sa) k 8 buf1 sa) as [sa1| |];
    [|done..]. rewrite !Ok_bind.
  destruct (radix_pass rank (length sa) k 16 sa1 buf1) as [buf2| |];
    [|done..]. rewrite !Ok_bind.
  destruct (radix_pass rank (length sa) k 24 buf2 sa1) as [sa2| |]; done.
Qed.

Lemma bucket_sort_byte_keys rank k l :
  Forall (byte_key rank k) l →
  Forall (byte_key rank k) (bucket_sort (sort_key rank k) l) ∧
  length (bucket_sort (sort_key rank k) l) = length l.
Proof.
  intros Hl.
  assert (Forall (λ s, 0 ≤ sort_key rank k s < 256) l) as Hr
    by (eapply Forall_impl; [done|]; by intros s [_ ?]).
  split.
  - by rewrite (bucket_sort_Permutation _ _ Hr).
  - pose proof (bucket_sort_len _ _ Hr) as H. unfold len in H. lia.
Qed.

(** With keys that fit in a byte [radixSortBuckets] leaves the stable sort
    of [sa] by key in [sa] (and in [buf]). *)
Lemma radixSortBuckets_byte_keys rank sa buf k :
  length buf = length sa → len sa ≤ max_int32 →
  Forall (byte_key rank k) sa →
  radixSortBuckets rank sa buf k =
  Ok (bucket_sort (sort_key rank k) sa, bucket_sort (sort_key rank k) sa).
Proof.
  intros Hb Hlen Hsa. rewrite radixSortBuckets_unfold.
  destruct (bucket_sort_byte_keys rank k sa Hsa) as [Hs Hl].
  rewrite (radix_pass_byte_keys rank k 0 sa buf) by done. rewrite Ok_bind.
  change (λ s, Z.shiftr (sort_key rank k s) 0) with (sort_key rank k).
  set (sorted := bucket_sort (sort_key rank k) sa) in *.
  rewrite <- Hl.
  rewrite (radix_pass_high_byte rank k 8 sorted sa)
    by (done || unfold len in *; lia).
  rewrite Ok_bind.
  rewrite (radix_pass_high_byte rank k 16 sorted sorted)
    by (done || unfold len in *; lia).
  rewrite Ok_bind.
  rewrite (radix_pass_high_byte rank k 24 sorted sorted)
    by (done || unfold len in *; lia).
  done.
Qed.

(** Whenever [radixSortBuckets] returns, every key fits in a byte and [sa]
    holds the stable sort by key. *)
Lemma radixSortBuckets_Ok rank sa buf k sa' buf' :
  radixSortBuckets rank sa buf k = Ok (sa', buf') →
  length buf = length sa → len sa ≤ max_int32 →
  Forall (byte_key rank k) sa ∧
  sa' = bucket_sort (sort_key rank k) sa ∧ buf' = sa'.
Proof.
  intros Hsort Hb Hlen.
  assert (Forall (byte_key rank k) sa) as Hsa.
  { rewrite radixSortBuckets_unfold in Hsort.
    apply bind_Ok in Hsort as (buf1 & Hpass & _).
    by apply radix_pass_Ok_byte_keys in Hpass. }
  rewrite radixSortBuckets_byte_keys in Hsort by done.
  injection Hsort as <- <-. done.
Qed.

(** ** [radixSort] *)

(** The rank of an element of the suffix array, [rank[s]]. *)
Definition rk (rank : list Z) (s : Z) : Z :=
  match index rank s with
  | Ok r => r
  | _ => 0
  end.

Lemma index_rk rank s r : index rank s = Ok r → rk rank s = r.
Proof. intros H. unfold rk. by rewrite H. Qed.

(** What the inner loop of [radixSort] has seen when it returns [e]: the
    elements from [e0] to [e - 1] have the rank of the element at [p], the
    element at [e] has not. *)
Lemma scan_bucket_Ok rem rank sa p e0 e :
  scan_bucket rem rank sa p e0 = Ok e →
  Z.of_nat rem = len sa - e0 → 0 ≤ e0 →
  e0 ≤ e ≤ len sa ∧
  (∀ j, e0 ≤ j < e →
     ∃ sp sj r, index sa p = Ok sp ∧ index rank sp = Ok r ∧
                index sa j = Ok sj ∧ index rank sj = Ok r) ∧
  (e < len sa →
     ∃ sp se r r', index sa p = Ok sp ∧ index rank sp = Ok r ∧
                   index sa e = Ok se ∧ index rank se = Ok r' ∧ r ≠ r').
Proof.
  revert e0. induction rem as [|rem IH]; intros e0 Hscan Hrem He0.
  - injection Hscan as <-. split; [lia|]. split; intros; lia.
  - simpl in Hscan.
    apply bind_Ok in Hscan as (sp & Hsp & Hscan).
    apply bind_Ok in Hscan as (r & Hr & Hscan).
    apply bind_Ok in Hscan as (se & Hse & Hscan).
    apply bind_Ok in Hscan as (r' & Hr' & Hscan).
    destruct (Z.eqb_spec r r') as [<-|Hne].
    + destruct (IH (e0 + 1) Hscan) as (Hle & Heq & Hend); [lia..|].
      split; [lia|]. split; [|done].
      intros j Hj. destruct (decide (j = e0)) as [->|Hne].
      * by exists sp, se, r.
      * apply Heq. lia.
    + injection Hscan as <-. split; [lia|]. split; [intros; lia|].
      intros _. by exists sp, se, r, r'.
Qed.

(** The inner loop started at [p] itself advances. *)
Lemma scan_bucket_advances rem rank sa p e :
  scan_bucket rem rank sa p p = Ok e →
  Z.of_nat rem = len sa - p → 0 ≤ p < len sa → p < e.
Proof.
  intros Hscan Hrem Hp. destruct rem as [|rem]; [lia|].
  simpl in Hscan.
  apply bind_Ok in Hscan as (sp & Hsp & Hscan).
  apply bind_Ok in Hscan as (r & Hr & Hscan).
  rewrite Hsp, Ok_bind, Hr, Ok_bind, Z.eqb_refl in Hscan.
  apply scan_bucket_Ok in Hscan; lia.
Qed.

Lemma slice_Ok {A} (l s : list A) (lo hi : Z) :
  slice l lo hi = Ok s →
  0 ≤ lo ≤ hi ∧ hi ≤ len l ∧
  s = take (Z.to_nat (hi - lo)) (drop (Z.to_nat lo) l) ∧
  len s = hi - lo.
Proof.
  unfold slice.
  destruct (Z.leb_spec 0 lo), (Z.leb_spec lo hi), (Z.leb_spec hi (len l));
    simpl; try done.
  intros [= <-]. repeat split; try lia.
  unfold len in *. rewrite length_take, length_drop. lia.
Qed.

Lemma slice_in_range {A} (l : list A) (lo hi : Z) :
  0 ≤ lo ≤ hi → hi ≤ len l →
  slice l lo hi = Ok (take (Z.to_nat (hi - lo)) (drop (Z.to_nat lo) l)).
Proof.
  intros H1 H2. unfold slice.
  destruct (Z.leb_spec 0 lo), (Z.leb_spec lo hi), (Z.leb_spec hi (len l));
    simpl; try done; lia.
Qed.

(** A slice written back with the same length replaces that part only. *)
Lemma splice_parts {A} (l s s' : list A) (lo hi : Z) :
  slice l lo hi = Ok s → length s' = length s →
  l = take (Z.to_nat lo) l ++ s ++ drop (Z.to_nat hi) l ∧
  splice l lo s' = take (Z.to_nat lo) l ++ s' ++ drop (Z.to_nat hi) l.
Proof.
  intros (Hlo & Hhi & -> & Hlen)%slice_Ok Hs'. unfold len in *.
  rewrite length_take, length_drop in Hs'.
  split.
  - rewrite <- (take_drop (Z.to_nat lo) l) at 1. f_equal.
    rewrite <- (take_drop (Z.to_nat (hi - lo)) (drop (Z.to_nat lo) l)) at 1.
    f_equal. rewrite drop_drop. f_equal. lia.
  - unfold splice. do 3 f_equal. lia.
Qed.

Lemma splice_Permutation {A} (l s s' : list A) (lo hi : Z) :
  slice l lo hi = Ok s → s' ≡ₚ s → splice l lo s' ≡ₚ l.
Proof.
  intros Hs Hp.
  destruct (splice_parts l s s' lo hi Hs) as [Hl ->];
    [by rewrite Hp|].
  transitivity (take (Z.to_nat lo) l ++ s ++ drop (Z.to_nat hi) l);
    [by rewrite Hp | by rewrite <- Hl].
Qed.

Lemma splice_length {A} (l s s' : list A) (lo hi : Z) :
  slice l lo hi = Ok s → length s' = length s →
  length (splice l lo s') = length l.
Proof.
  intros Hs Hl. destruct (splice_parts l s s' lo hi Hs Hl) as [Heq ->].
  apply (f_equal length) in Heq. rewrite !length_app in *. lia.
Qed.

Lemma splice_take {A} (l s s' : list A) (lo hi : Z) :
  slice l lo hi = Ok s → length s' = length s →
  take (Z.to_nat lo) (splice l lo s') = take (Z.to_nat lo) l.
Proof.
  intros Hs Hl. destruct (splice_parts l s s' lo hi Hs Hl) as [_ ->].
  apply slice_Ok in Hs as (Hlo & Hhi & _ & _). unfold len in *.
  rewrite take_app_le by (rewrite length_take; lia).
  rewrite take_take. f_equal. lia.
Qed.

Lemma byte_key_bucket_sort_Permutation rank k l :
  Forall (byte_key rank k) l → bucket_sort (sort_key rank k) l ≡ₚ l.
Proof.
  intros Hl. apply bucket_sort_Permutation.
  eapply Forall_impl; [done|]. by intros s [_ ?].
Qed.

Lemma radixSort_loop_unfold fuel k rank sa buf p e :
  radixSort_loop (S fuel) k rank sa buf p e =
  if p <? len sa then
    e' ← scan_bucket (Z.to_nat (len sa - e)) rank sa p e;
    '(sa, buf) ← sort_bucket k rank sa buf p e';
    radixSort_loop fuel k rank sa buf e' e'
  else Ok (sa, buf).
Proof. done. Qed.

Lemma sort_bucket_Ok k rank sa buf p e sa' buf' :
  sort_bucket k rank sa buf p e = Ok (sa', buf') →
  length buf = length sa → len sa ≤ max_int32 →
  sa' ≡ₚ sa ∧ length buf' = length sa ∧
  take (Z.to_nat p) sa' = take (Z.to_nat p) sa.
Proof.
  unfold sort_bucket. intros Hsort Hb Hlen.
  destruct (Z.ltb_spec 1 (e - p)) as [Hsize|_];
    [|by injection Hsort as <- <-].
  apply bind_Ok in Hsort as (s & Hs & Hsort).
  apply bind_Ok in Hsort as (b & Hbf & Hsort).
  apply bind_Ok in Hsort as ([s' b'] & Hrs & [= <- <-]).
  pose proof (slice_Ok _ _ _ _ Hs) as (Hlo & Hhi & _ & Hls).
  pose proof (slice_Ok _ _ _ _ Hbf) as (_ & _ & _ & Hlb).
  apply radixSortBuckets_Ok in Hrs as (Hkeys & -> & ->);
    [|unfold len in *; lia..].
  pose proof (byte_key_bucket_sort_Permutation rank k s Hkeys) as Hperm.
  split; [by eapply splice_Permutation|].
  split.
  - rewrite (splice_length buf b _ p e Hbf); [done|].
    rewrite Hperm. unfold len in *. lia.
  - eapply splice_take; [done|]. by rewrite Hperm.
Qed.

(** Whenever the outer loop of [radixSort] returns, [sa] holds a
    permutation of what it held, and nothing has moved before [p]. *)
Lemma radixSort_loop_Ok fuel k rank sa buf p sa' buf' :
  radixSort_loop fuel k rank sa buf p p = Ok (sa', buf') →
  length buf = length sa → len sa ≤ max_int32 → 0 ≤ p →
  sa' ≡ₚ sa ∧ length buf' = length sa ∧
  take (Z.to_nat p) sa' = take (Z.to_nat p) sa.
Proof.
  revert sa buf p. induction fuel as [|fuel IH]; intros sa buf p Hloop Hb Hlen Hp.
  - simpl in Hloop. destruct (p <? len sa); [done|].
    by injection Hloop as <- <-.
  - rewrite radixSort_loop_unfold in Hloop.
    destruct (Z.ltb_spec p (len sa)) as [Hlt|_];
      [|by injection Hloop as <- <-].
    apply bind_Ok in Hloop as (e & Hscan & Hloop).
    apply bind_Ok in Hloop as ([sa1 buf1] & Hsort & Hloop).
    apply scan_bucket_advances in Hscan; [|lia..].
    apply sort_bucket_Ok in Hsort as (Hperm1 & Hb1 & Htake1); [|done..].
    assert (length sa1 = length sa) as Hl1 by by rewrite Hperm1.
    apply IH in Hloop as (Hperm & Hb' & Htake);
      [|unfold len in *; lia..].
    split; [by rewrite Hperm|]. split; [lia|].
    rewrite <- Htake1.
    replace (Z.to_nat p) with (Z.to_nat p `min` Z.to_nat e)%nat by lia.
    by rewrite <- !take_take, Htake.
Qed.

(** The first element stays where it is when no other element has its
    rank. *)
Lemma radixSort_head k rank sa buf sa' buf' s0 :
  radixSort k rank sa buf = Ok (sa', buf') →
  length buf = length sa → len sa ≤ max_int32 →
  sa !! 0%nat = Some s0 →
  (∀ s, sa !! 1%nat = Some s → rk rank s ≠ rk rank s0) →
  sa' !! 0%nat = Some s0.
Proof.
  unfold radixSort. intros Hsort Hb Hlen H0 H1.
  assert (0 < len sa) as Hpos
    by (apply lookup_lt_Some in H0; unfold len; lia).
  destruct (length sa) as [|fuel] eqn:Hl; [unfold len in Hpos; lia|].
  rewrite radixSort_loop_unfold in Hsort.
  destruct (Z.ltb_spec 0 (len sa)) as [_|]; [|lia].
  apply bind_Ok in Hsort as (e & Hscan & Hsort).
  apply bind_Ok in Hsort as ([sa1 buf1] & Hbucket & Hloop).
  pose proof (scan_bucket_advances _ _ _ _ _ Hscan ltac:(lia) ltac:(lia)) as He.
  apply scan_bucket_Ok in Hscan as (Hle & Heq & _); [|lia..].
  assert (e = 1) as ->.
  { destruct (Z.le_gt_cases e 1) as [|Hgt]; [lia|]. exfalso.
    destruct (Heq 1) as (sp & sj & r & Hsp & Hr & Hsj & Hrj); [lia|].
    apply index_Ok in Hsp as [_ Hsp]. apply index_Ok in Hsj as [_ Hsj].
    change (Z.to_nat 0) with 0%nat in Hsp. rewrite H0 in Hsp.
    injection Hsp as <-. apply (H1 sj Hsj).
    by rewrite (index_rk _ _ _ Hr), (index_rk _ _ _ Hrj). }
  unfold sort_bucket in Hbucket. change (1 <? 1 - 0) with false in Hbucket.
  injection Hbucket as <- <-.
  apply radixSort_loop_Ok in Hloop as (_ & _ & Htake); [|done || lia..].
  rewrite <- H0, <- (lookup_take_lt sa' 1 0), <- (lookup_take_lt sa 1 0) by lia.
  change (Z.to_nat 1) with 1%nat in Htake. by rewrite Htake.
Qed.

Lemma radixSort_Ok k rank sa buf sa' buf' :
  radixSort k rank sa buf = Ok (sa', buf') →
  length buf = length sa → len sa ≤ max_int32 →
  sa' ≡ₚ sa ∧ length buf' = length sa.
Proof.
  unfold radixSort. intros Hsort Hb Hlen.
  apply radixSort_loop_Ok in Hsort as (? & ? & _); done.
Qed.

(** ** [updateRank] *)

(** The key [updateRank] compares for element [s]. *)
Definition pair_key (rank : list Z) (k : Z) (s : Z) : Z :=
  pack (rk rank s) (sort_key rank k s).

(** The ranks [updateRank] gives along a list of keys: 0 for the first, and
    one more at every change of key. *)
Fixpoint class_ranks (a prev : Z) (keys : list Z) : list Z :=
  match keys with
  | [] => []
  | key :: keys' =>
      let a' := if prev =? key then a else a + 1 in
      a' :: class_ranks a' key keys'
  end.

Definition new_ranks (keys : list Z) : list Z :=
  match keys with
  | [] => []
  | key :: keys' => 0 :: class_ranks 0 key keys'
  end.

Lemma class_ranks_length a prev keys :
  length (class_ranks a prev keys) = length keys.
Proof.
  revert a prev. induction keys as [|key keys IH]; intros a prev; [done|].
  simpl. by rewrite IH.
Qed.

Lemma new_ranks_length keys : length (new_ranks keys) = length keys.
Proof. destruct keys; [done|]. simpl. by rewrite class_ranks_length. Qed.

Lemma class_ranks_step a prev keys j key key' aj :
  (prev :: keys) !! j = Some key → keys !! j = Some key' →
  (a :: class_ranks a prev keys) !! j = Some aj →
  class_ranks a prev keys !! j = Some (if key =? key' then aj else aj + 1).
Proof.
  revert a prev j. induction keys as [|k0 keys IH]; intros a prev j; [done|].
  destruct j as [|j]; simpl.
  - by intros [= ->] [= ->] [= ->].
  - intros Hk Hk' Ha. by apply IH.
Qed.

Lemma new_ranks_step keys j key key' aj :
  keys !! j = Some key → keys !! S j = Some key' →
  new_ranks keys !! j = Some aj →
  new_ranks keys !! S j = Some (if key =? key' then aj else aj + 1).
Proof.
  destruct keys as [|k0 keys]; [done|]. simpl. apply class_ranks_step.
Qed.

Lemma new_ranks_bounds keys j aj :
  new_ranks keys !! j = Some aj → 0 ≤ aj ≤ Z.of_nat j.
Proof.
  revert aj. induction j as [|j IH]; intros aj Hj.
  - destruct keys; [done|]. injection Hj as <-. lia.
  - assert (is_Some (keys !! S j)) as [key' Hk'].
    { apply lookup_lt_is_Some. rewrite <- new_ranks_length.
      by apply lookup_lt_Some in Hj. }
    assert (is_Some (keys !! j)) as [key Hk].
    { apply lookup_lt_is_Some. apply lookup_lt_Some in Hk'. lia. }
    assert (is_Some (new_ranks keys !! j)) as [a Ha].
    { apply lookup_lt_is_Some. rewrite new_ranks_length.
      apply lookup_lt_Some in Hk. lia. }
    rewrite (new_ranks_step keys j key key' a Hk Hk' Ha) in Hj.
    injection Hj as <-. specialize (IH a Ha). destruct (key =? key'); lia.
Qed.

Lemma new_ranks_mono keys i j ai aj :
  (i ≤ j)%nat → new_ranks keys !! i = Some ai → new_ranks keys !! j = Some aj →
  ai ≤ aj.
Proof.
  intros Hij Hi. revert aj. induction Hij as [|j Hij IH]; intros aj Hj.
  - rewrite Hi in Hj. injection Hj as <-. lia.
  - assert (is_Some (keys !! S j)) as [key' Hk'].
    { apply lookup_lt_is_Some. rewrite <- new_ranks_length.
      by apply lookup_lt_Some in Hj. }
    assert (is_Some (keys !! j)) as [key Hk].
    { apply lookup_lt_is_Some. apply lookup_lt_Some in Hk'. lia. }
    assert (is_Some (new_ranks keys !! j)) as [a Ha].
    { apply lookup_lt_is_Some. rewrite new_ranks_length.
      apply lookup_lt_Some in Hk. lia. }
    rewrite (new_ranks_step keys j key key' a Hk Hk' Ha) in Hj.
    injection Hj as <-. specialize (IH a Ha). destruct (key =? key'); lia.
Qed.

Lemma pair_pair_key rank sa i k key s :
  pair rank sa i k = Ok key → index sa i = Ok s →
  key = pair_key rank k s ∧ index rank s = Ok (rk rank s) ∧
  getRank rank (add32 s k) = Ok (sort_key rank k s).
Proof.
  intros (s' & r & g & Hs' & Hr & Hg & ->)%pair_Ok Hs.
  rewrite Hs' in Hs. injection Hs as ->. unfold pair_key.
  by rewrite (index_rk _ _ _ Hr), (getRank_sort_key _ _ _ _ Hg).
Qed.

(** What an element of [sa] needs for [updateRank] not to panic on it. *)
Definition ranked (rank : list Z) (k : Z) (n_out : nat) (s : Z) : Prop :=
  0 ≤ s < Z.of_nat n_out ∧ index rank s = Ok (rk rank s) ∧
  getRank rank (add32 s k) = Ok (sort_key rank k s).

(** The state of the loop of [updateRank] before index [i]. *)
Definition updated (rank sa out0 : list Z) (k : Z)
    (i : Z) (st : Z * Z * list Z) : Prop :=
  let '(a, prev, out) := st in
  let keys := pair_key rank k <$> sa in
  length out = length out0 ∧
  new_ranks keys !! Z.to_nat (i - 1) = Some a ∧
  keys !! Z.to_nat (i - 1) = Some prev ∧
  ∀ j s, (j < Z.to_nat i)%nat → sa !! j = Some s →
    ranked rank k (length out0) s ∧ out !! Z.to_nat s = new_ranks keys !! j.

Lemma update_body_Ok rank sa out0 k i st st' :
  NoDup sa → len sa ≤ max_int32 → 1 ≤ i < len sa →
  updated rank sa out0 k i st → update_body rank sa k i st = Ok st' →
  updated rank sa out0 k (i + 1) st'.
Proof.
  intros Hnd Hlen Hi. destruct st as [[a prev] out].
  intros (Hl & Ha & Hprev & Hout) Hbody. unfold update_body in Hbody.
  rewrite (wrap32_small i) in Hbody by (unfold max_int32 in Hlen; lia).
  apply bind_Ok in Hbody as (cur & Hpair & Hbody).
  apply bind_Ok in Hbody as (s & Hs & Hbody).
  apply bind_Ok in Hbody as (out' & Hst & [= <-]).
  destruct (pair_pair_key _ _ _ _ _ _ Hpair Hs) as (-> & Hr & Hg).
  apply store_Ok in Hst as [Hrange ->].
  pose proof Hs as [_ Hs']%index_Ok.
  assert ((pair_key rank k <$> sa) !! Z.to_nat i = Some (pair_key rank k s))
    as Hkey by by rewrite list_lookup_fmap, Hs'.
  replace (Z.to_nat i) with (S (Z.to_nat (i - 1))) in Hkey by lia.
  pose proof (new_ranks_step _ _ _ _ _ Hprev Hkey Ha) as Hnew.
  pose proof (new_ranks_bounds _ _ _ Ha) as Hbound.
  assert ((if prev =? pair_key rank k s then a else wrap32 (a + 1)) =
          (if prev =? pair_key rank k s then a else a + 1)) as ->.
  { destruct (prev =? pair_key rank k s); [done|].
    apply wrap32_small. unfold max_int32 in Hlen. lia. }
  unfold updated. rewrite length_insert.
  replace (Z.to_nat (i + 1 - 1)) with (S (Z.to_nat (i - 1))) by lia.
  split; [done|]. split; [done|]. split; [done|].
  intros j s' Hj Hs''.
  destruct (decide (j = Z.to_nat i)) as [->|Hne].
  - rewrite Hs' in Hs''. injection Hs'' as <-.
    split; [unfold ranked, len in *; split; [lia | done]|].
    rewrite list_lookup_insert_eq by (unfold len in *; lia).
    replace (Z.to_nat i) with (S (Z.to_nat (i - 1))) by lia. done.
  - destruct (Hout j s') as [Hrk Hlook]; [lia | done |].
    split; [done|]. rewrite list_lookup_insert_ne; [done|].
    intros Heq. apply Hne.
    assert (s = s') as <- by (destruct Hrk as [? _]; lia).
    by apply (NoDup_lookup sa _ _ s).
Qed.

(** Whenever [updateRank] returns, [out] holds at every element of [sa]
    the rank of its key, and [sigma] is one more than the last rank. *)
Lemma updateRank_Ok sa rank out k out' sigma :
  updateRank sa rank out k = Ok (out', sigma) →
  NoDup sa → len sa ≤ max_int32 →
  length out' = length out ∧
  (∀ j s, sa !! j = Some s →
     ranked rank k (length out) s ∧
     out' !! Z.to_nat s = new_ranks (pair_key rank k <$> sa) !! j) ∧
  (∃ a, last (new_ranks (pair_key rank k <$> sa)) = Some a ∧ sigma = a + 1).
Proof.
  unfold updateRank. intros Hup Hnd Hlen.
  apply bind_Ok in Hup as (s0 & Hs0 & Hup).
  apply bind_Ok in Hup as (out1 & Hst & Hup).
  apply bind_Ok in Hup as (prev & Hpair & Hup).
  apply bind_Ok in Hup as ([[a prev'] out2] & Hloop & [= <- <-]).
  destruct (pair_pair_key _ _ _ _ _ _ Hpair Hs0) as (-> & Hr & Hg).
  apply store_Ok in Hst as [Hrange ->].
  pose proof Hs0 as [_ Hs0']%index_Ok. change (Z.to_nat 0) with 0%nat in Hs0'.
  assert (0 < len sa) as Hpos
    by (apply lookup_lt_Some in Hs0'; unfold len; lia).
  pose proof (for_loop_partial (updated rank sa out k) _ _ _ _ _ Hloop) as H.
  replace (1 + Z.of_nat (length sa - 1)) with (len sa) in H
    by (unfold len in *; lia).
  destruct H as (Hl & Ha & _ & Hout).
  - unfold updated. rewrite length_insert.
    change (Z.to_nat (1 - 1)) with 0%nat.
    destruct sa as [|s sa]; [done|]. injection Hs0' as ->.
    split; [done|]. split; [done|]. split; [done|].
    intros j s' Hj Hs'. assert (j = 0%nat) as -> by lia.
    injection Hs' as <-.
    split; [unfold ranked, len in *; split; [lia | done]|].
    rewrite list_lookup_insert_eq by (unfold len in *; lia). done.
  - intros i st st' Hi. apply update_body_Ok; [done | done |].
    unfold len in *. lia.
  - split; [done|]. split.
    + intros j s Hj. apply Hout; [|done].
      apply lookup_lt_Some in Hj. unfold len. lia.
    + exists a. split; [|by rewrite wrap32_small by
        (apply new_ranks_bounds in Ha; unfold max_int32, len in *; lia)].
      rewrite last_lookup, new_ranks_length, length_fmap, <- Ha.
      f_equal. unfold len. lia.
Qed.

(** ** [sa0] and [calcRank0] *)

(** The positions 0 to [n - 1]. *)
Definition positions (n : nat) : list Z := Z.of_nat <$> seq 0 n.

Lemma positions_lookup n i : (i < n)%nat → positions n !! i = Some (Z.of_nat i).
Proof.
  intros Hi. unfold positions. rewrite list_lookup_fmap, lookup_seq_lt by done.
  done.
Qed.

Lemma positions_length n : length (positions n) = n.
Proof. unfold positions. by rewrite length_fmap, length_seq. Qed.

Lemma positions_elem_of n s : s ∈ positions n ↔ 0 ≤ s < Z.of_nat n.
Proof.
  unfold positions. rewrite list_elem_of_fmap. split.
  - intros (i & -> & Hi%elem_of_seq). lia.
  - intros Hs. exists (Z.to_nat s). split; [lia|]. apply elem_of_seq. lia.
Qed.

Lemma positions_NoDup n : NoDup (positions n).
Proof.
  unfold positions. apply NoDup_fmap_2; [|apply NoDup_seq].
  intros i j. lia.
Qed.

Lemma sa0_positions (n : nat) :
  Z.of_nat n ≤ max_int32 → sa0 (Z.of_nat n) = Ok (positions n).
Proof.
  intros Hn. unfold sa0, make.
  destruct (Z.ltb_spec (Z.of_nat n) 0); [lia|]. rewrite Ok_bind, Nat2Z.id.
  destruct (for_loop_total (λ i sa,
    length sa = n ∧ ∀ j : nat, Z.of_nat j < i → sa !! j = Some (Z.of_nat j))
    n 0 (λ i sa, store sa i (wrap32 i)) (replicate n 0))
    as (sa & Hloop & Hl & Hsa).
  - split; [by rewrite length_replicate|]. intros; lia.
  - intros i sa Hi [Hl Hsa].
    rewrite store_in_range by (unfold len; lia).
    rewrite wrap32_small by (unfold max_int32 in Hn; lia).
    eexists; split; [done|]. split; [by rewrite length_insert|].
    intros j Hj. destruct (decide (Z.of_nat j = i)) as [<-|Hne].
    + rewrite Nat2Z.id, list_lookup_insert_eq by lia. done.
    + rewrite list_lookup_insert_ne by lia. apply Hsa. lia.
  - rewrite Hloop. f_equal.
    apply (list_eq_same_length _ _ n); [by rewrite positions_length | done |].
    intros i u v Hi Hu Hv. rewrite Hsa in Hu by lia.
    rewrite positions_lookup in Hv by done. congruence.
Qed.

(** The number [calcRank0] gives to a letter. *)
Definition code (alpha : list Z) (c : byte) : Z :=
  default 0 (alpha !! Z.to_nat (int_of_byte c)).

(** The first loop of [calcRank0] tags the letters of [x]. *)
Lemma tag_loop (x : list byte) :
  ∃ tags,
    for_range x tag_body (replicate 256 0) = Ok tags ∧
    length tags = 256%nat ∧
    ∀ a, 0 ≤ a < 256 →
      (tags !! Z.to_nat a = Some 1 ∧ (∃ c, c ∈ x ∧ int_of_byte c = a)) ∨
      (tags !! Z.to_nat a = Some 0 ∧ ¬ (∃ c, c ∈ x ∧ int_of_byte c = a)).
Proof.
  apply (for_range_total (λ done tags,
    length tags = 256%nat ∧
    ∀ a, 0 ≤ a < 256 →
      (tags !! Z.to_nat a = Some 1 ∧ (∃ c, c ∈ done ∧ int_of_byte c = a)) ∨
      (tags !! Z.to_nat a = Some 0 ∧ ¬ (∃ c, c ∈ done ∧ int_of_byte c = a)))).
  - split; [by rewrite length_replicate|]. intros a Ha. right.
    split; [apply lookup_replicate_2; lia|]. intros (c & Hc & _).
    by apply elem_of_nil in Hc.
  - intros done c tags [Hl Ht]. pose proof (int_of_byte_range c) as Hc.
    unfold tag_body. rewrite store_in_range by (unfold len; lia).
    eexists; split; [done|]. split; [by rewrite length_insert|].
    intros a Ha. destruct (decide (int_of_byte c = a)) as [<-|Hne].
    + left. split; [by rewrite list_lookup_insert_eq by lia|].
      exists c. split; [|done]. apply elem_of_app. right. by apply list_elem_of_singleton.
    + rewrite list_lookup_insert_ne by lia.
      destruct (Ht a Ha) as [[H1 (d & Hd & Hda)]|[H0 Hno]].
      * left. split; [done|]. exists d. split; [|done].
        apply elem_of_app. by left.
      * right. split; [done|]. intros (d & Hd & Hda). apply Hno.
        apply elem_of_app in Hd as [Hd|Hd%list_elem_of_singleton].
        -- by exists d.
        -- congruence.
Qed.

(** The state of the second loop of [calcRank0] before letter [i]. *)
Definition assigned (tags : list Z) (i : Z) (st : list Z * Z) : Prop :=
  let '(alpha, sigma) := st in
  length alpha = 256%nat ∧ 1 ≤ sigma ≤ i + 1 ∧
  (∀ a, i ≤ a < 256 → alpha !! Z.to_nat a = tags !! Z.to_nat a) ∧
  (∀ a, 0 ≤ a < i → tags !! Z.to_nat a = Some 1 →
     ∃ v, alpha !! Z.to_nat a = Some v ∧ 1 ≤ v < sigma) ∧
  (∀ a b va vb, 0 ≤ a < b → b < i →
     tags !! Z.to_nat a = Some 1 → tags !! Z.to_nat b = Some 1 →
     alpha !! Z.to_nat a = Some va → alpha !! Z.to_nat b = Some vb → va < vb) ∧
  (∀ v, 1 ≤ v < sigma →
     ∃ a, 0 ≤ a < i ∧ tags !! Z.to_nat a = Some 1 ∧
          alpha !! Z.to_nat a = Some v).

Lemma assign_step tags i st :
  length tags = 256%nat → 0 ≤ i < 256 → assigned tags i st →
  ∃ st', assign_body i st = Ok st' ∧ assigned tags (i + 1) st'.
Proof.
  intros Hlt Hi. destruct st as [alpha sigma].
  intros (Hl & Hs & Hrest & Hdone & Hord & Hsur). unfold assign_body.
  destruct (index_in_range alpha i) as (v & Hv & Hv'); [unfold len; lia|].
  rewrite Hv, Ok_bind.
  pose proof (Hrest i ltac:(lia)) as Hti. rewrite Hv' in Hti.
  destruct (Z.eqb_spec v 1) as [->|Hne].
  - rewrite store_in_range by (unfold len; lia). rewrite Ok_bind.
    rewrite wrap32_small by lia.
    eexists; split; [done|]. unfold assigned.
    split; [by rewrite length_insert|]. split; [lia|]. split; [|split; [|split]].
    + intros a Ha. rewrite list_lookup_insert_ne by lia. apply Hrest. lia.
    + intros a Ha Hta. destruct (decide (a = i)) as [->|Hai].
      * exists sigma. rewrite list_lookup_insert_eq by lia. split; [done | lia].
      * rewrite list_lookup_insert_ne by lia.
        destruct (Hdone a ltac:(lia) Hta) as (w & Hw & Hwr).
        exists w. split; [done | lia].
    + intros a b va vb Hab Hb Hta Htb.
      rewrite (list_lookup_insert_ne _ _ (Z.to_nat a)) by lia.
      intros Hva. destruct (Hdone a ltac:(lia) Hta) as (w & Hw & Hwr).
      rewrite Hva in Hw. injection Hw as <-.
      destruct (decide (b = i)) as [->|Hbi].
      * rewrite list_lookup_insert_eq by lia. intros [= <-]. lia.
      * rewrite list_lookup_insert_ne by lia. intros Hvb.
        apply (Hord a b); (done || lia).
    + intros w Hw. destruct (decide (w = sigma)) as [->|Hws].
      * exists i. split; [lia|]. split; [done|].
        by rewrite list_lookup_insert_eq by lia.
      * destruct (Hsur w ltac:(lia)) as (a & Ha & Hta & Hwa).
        exists a. split; [lia|]. split; [done|].
        by rewrite list_lookup_insert_ne by lia.
  - eexists; split; [done|]. unfold assigned.
    split; [done|]. split; [lia|]. split; [|split; [|split]].
    + intros a Ha. apply Hrest. lia.
    + intros a Ha Hta. destruct (decide (a = i)) as [->|Hai].
      * rewrite <- Hti in Hta. congruence.
      * apply Hdone; [lia | done].
    + intros a b va vb Hab Hb Hta Htb Hva Hvb.
      destruct (decide (b = i)) as [->|Hbi].
      * rewrite <- Hti in Htb. congruence.
      * apply (Hord a b); (done || lia).
    + intros w Hw. destruct (Hsur w Hw) as (a & Ha & Hta & Hwa).
      exists a. split; [lia | done].
Qed.

(** [calcRank0] returns, for every string: the letters get the numbers
    from 1 on in increasing order, the sentinel gets 0, and [sigma] is one
    more than the last number. *)
Lemma calcRank0_Ok (x : list byte) :
  ∃ alpha rank sigma,
    calcRank0 x = Ok (rank, sigma) ∧
    length rank = S (length x) ∧ rank !! length x = Some 0 ∧
    (∀ i c, x !! i = Some c → rank !! i = Some (code alpha c)) ∧
    1 ≤ sigma ≤ 257 ∧
    (∀ c, c ∈ x → 1 ≤ code alpha c < sigma) ∧
    (∀ c d, c ∈ x → d ∈ x →
       (code alpha c < code alpha d ↔ int_of_byte c < int_of_byte d)) ∧
    (∀ v, 1 ≤ v < sigma → ∃ c, c ∈ x ∧ code alpha c = v).
Proof.
  destruct (tag_loop x) as (tags & Htag & Hlt & Htags).
  destruct (for_loop_total (assigned tags) 256 0 assign_body (tags, 1))
    as ([alpha sigma] & Hassign & Hl & Hs & _ & Hdone & Hord & Hsur).
  { unfold assigned. split; [done|]. split; [lia|]. split; [done|].
    split; [intros; lia|]. split; intros; lia. }
  { intros i st Hi. apply assign_step; [done | lia]. }
  change (0 + Z.of_nat 256) with 256 in *.
  assert (∀ c, c ∈ x →
    ∃ v, alpha !! Z.to_nat (int_of_byte c) = Some v ∧ 1 ≤ v < sigma ∧
         code alpha c = v) as Hcode.
  { intros c Hc. pose proof (int_of_byte_range c) as Hr.
    destruct (Htags _ Hr) as [[Ht _]|[_ Hno]]; [|destruct Hno; by exists c].
    destruct (Hdone (int_of_byte c) ltac:(lia) Ht) as (v & Hv & Hvr).
    exists v. split; [done|]. split; [done|]. unfold code. by rewrite Hv. }
  destruct (for_loop_total (λ i rank,
    length rank = S (length x) ∧ rank !! length x = Some 0 ∧
    ∀ j c, Z.of_nat j < i → x !! j = Some c → rank !! j = Some (code alpha c))
    (length x) 0 (map_body x alpha) (replicate (S (length x)) 0))
    as (rank & Hmap & Hlr & Hrn & Hrank).
  { split; [by rewrite length_replicate|].
    split; [apply lookup_replicate_2; lia|]. intros; lia. }
  { intros i rank Hi (Hlr & Hrn & Hrank). unfold map_body.
    destruct (index_in_range x i) as (c & Hc & Hc'); [unfold len; lia|].
    rewrite Hc, Ok_bind.
    destruct (Hcode c) as (v & Hv & Hvr & Hcv);
      [by apply list_elem_of_lookup_2 in Hc'|].
    pose proof (int_of_byte_range c) as Hr.
    rewrite (index_lookup_Z _ _ _ (proj1 Hr) Hv), Ok_bind.
    rewrite store_in_range by (unfold len; lia).
    eexists; split; [done|]. split; [by rewrite length_insert|].
    split; [by rewrite list_lookup_insert_ne by lia|].
    intros j d Hj Hd. destruct (decide (Z.of_nat j = i)) as [<-|Hne].
    - rewrite Nat2Z.id in *. rewrite list_lookup_insert_eq by lia.
      congruence.
    - rewrite list_lookup_insert_ne by lia. apply Hrank; [lia | done]. }
  exists alpha, rank, sigma. split.
  { unfold calcRank0, make.
    destruct (Z.ltb_spec (len x + 1) 0); [unfold len in *; lia|].
    rewrite Ok_bind, Htag, Ok_bind, Hassign, Ok_bind.
    replace (Z.to_nat (len x + 1)) with (S (length x)) by (unfold len; lia).
    by rewrite Hmap. }
  split; [done|]. split; [done|]. split.
  { intros i c Hc. apply Hrank; [|done]. apply lookup_lt_Some in Hc. lia. }
  split; [lia|]. split.
  { intros c Hc. destruct (Hcode c Hc) as (v & _ & Hvr & ->). done. }
  split.
  - intros c d Hc Hd.
    destruct (Hcode c Hc) as (v & Hv & Hvr & ->).
    destruct (Hcode d Hd) as (w & Hw & Hwr & ->).
    pose proof (int_of_byte_range c) as Hrc.
    pose proof (int_of_byte_range d) as Hrd.
    assert (tags !! Z.to_nat (int_of_byte c) = Some 1) as Htc.
    { destruct (Htags _ Hrc) as [[Ht _]|[_ Hno]]; [done|].
      destruct Hno. by exists c. }
    assert (tags !! Z.to_nat (int_of_byte d) = Some 1) as Htd.
    { destruct (Htags _ Hrd) as [[Ht _]|[_ Hno]]; [done|].
      destruct Hno. by exists d. }
    destruct (Z.lt_trichotomy (int_of_byte c) (int_of_byte d))
      as [Hcd|[Heq|Hdc]].
    + pose proof (Hord (int_of_byte c) (int_of_byte d) v w
        ltac:(lia) ltac:(lia) Htc Htd Hv Hw). lia.
    + rewrite Heq in Hv. rewrite Hv in Hw. injection Hw as <-. lia.
    + pose proof (Hord (int_of_byte d) (int_of_byte c) w v
        ltac:(lia) ltac:(lia) Htd Htc Hw Hv). lia.
  - intros v Hv. destruct (Hsur v Hv) as (a & Ha & Hta & Hva).
    destruct (Htags a ltac:(lia)) as [[_ (c & Hc & Hca)]|[Ht0 _]];
      [|congruence].
    exists c. split; [done|]. unfold code. by rewrite Hca, Hva.
Qed.

Lemma doubling_loop_unfold (fuel : nat) (n_rank : Z) (st : pd_state) :
  doubling_loop (S fuel) n_rank st =
  if pd_sigma st <? n_rank
  then st' ← doubling_round st; doubling_loop fuel n_rank st'
  else Ok st.
Proof. done. Qed.

(** ** The loop of [PrefixDoubling] *)

Lemma positions_S n : positions (S n) = positions n ++ [Z.of_nat n].
Proof. unfold positions. by rewrite seq_S, fmap_app. Qed.

Lemma buckets_upto_first f l m :
  buckets_upto f l (S m) =
  filter (λ s, f s = 0) l ++ drop (length (filter (λ s, f s = 0) l))
                                  (buckets_upto f l (S m)).
Proof.
  induction m as [|m IH].
  - simpl. by rewrite drop_all, app_nil_r.
  - change (buckets_upto f l (S (S m)))
      with (buckets_upto f l (S m) ++ filter (λ s, f s = Z.of_nat (S m)) l).
    rewrite IH at 1. rewrite <- app_assoc. f_equal.
    rewrite drop_app_le; [done|]. rewrite IH, length_app. lia.
Qed.

(** The only element of bucket 0 comes first. *)
Lemma bucket_sort_head f l1 s0 l2 :
  f s0 = 0 → Forall (λ s, f s ≠ 0) l1 →
  bucket_sort f (l1 ++ s0 :: l2) !! 0%nat = Some s0.
Proof.
  intros H0 H1. unfold bucket_sort. rewrite buckets_upto_first.
  rewrite filter_app, (filter_none _ l1) by done.
  by rewrite filter_cons_True.
Qed.

Definition ranks_in_range (rank : list Z) : Prop :=
  Forall (λ r, 0 ≤ r ≤ max_int32) rank.

Lemma rk_in_range rank s : ranks_in_range rank → 0 ≤ rk rank s ≤ max_int32.
Proof.
  intros Hr. unfold rk. destruct (index rank s) as [r| |] eqn:E;
    [|unfold max_int32; lia..].
  apply index_Ok in E as [_ E]. by apply (Forall_lookup_1 _ _ _ _ Hr E).
Qed.

Lemma sort_key_in_range rank k s :
  ranks_in_range rank → 0 ≤ sort_key rank k s ≤ max_int32.
Proof.
  intros Hr. unfold sort_key, getRank.
  destruct (add32 s k <? len rank); [|unfold max_int32; lia].
  apply (rk_in_range rank (add32 s k) Hr).
Qed.

Lemma pair_key_value rank k s :
  ranks_in_range rank →
  pair_key rank k s = rk rank s * 2 ^ 32 + sort_key rank k s.
Proof.
  intros Hr. apply pack_value; [by apply rk_in_range | by apply sort_key_in_range].
Qed.

(** What holds of the state of the loop of [PrefixDoubling] on a string of
    [n] letters: the suffix array is a permutation of the positions that
    starts with the sentinel suffix, which alone has rank 0. *)
Definition pd_inv (n : nat) (st : pd_state) : Prop :=
  pd_sa st ≡ₚ positions (S n) ∧
  length (pd_rank st) = S n ∧ length (pd_buf st) = S n ∧
  pd_sa st !! 0%nat = Some (Z.of_nat n) ∧
  pd_rank st !! n = Some 0 ∧
  (∀ i, (i < n)%nat → ∃ r, pd_rank st !! i = Some r ∧ 1 ≤ r ≤ max_int32).

Lemma pd_inv_ranks n st : pd_inv n st → ranks_in_range (pd_rank st).
Proof.
  intros (_ & Hl & _ & _ & Hn & Hr). apply Forall_lookup. intros i r Hi.
  destruct (decide (i = n)) as [->|Hne].
  - rewrite Hn in Hi. injection Hi as <-. unfold max_int32. lia.
  - apply lookup_lt_Some in Hi as Hlt.
    destruct (Hr i ltac:(lia)) as (r' & Hr' & Hrange).
    rewrite Hi in Hr'. injection Hr' as <-. lia.
Qed.

Lemma pd_inv_rk n st s :
  pd_inv n st → s ∈ pd_sa st →
  (s = Z.of_nat n ∧ rk (pd_rank st) s = 0) ∨
  (0 ≤ s < Z.of_nat n ∧ 1 ≤ rk (pd_rank st) s).
Proof.
  intros (Hp & Hl & _ & _ & Hn & Hr) Hs.
  rewrite Hp in Hs. apply positions_elem_of in Hs.
  destruct (decide (s = Z.of_nat n)) as [->|Hne].
  - left. split; [done|]. apply index_rk, index_lookup_Z; [lia|].
    by rewrite Nat2Z.id.
  - right. split; [lia|].
    destruct (Hr (Z.to_nat s) ltac:(lia)) as (r & Hr' & Hrange).
    rewrite (index_rk _ _ r); [lia|]. apply index_lookup_Z; [lia | done].
Qed.

Lemma doubling_init_inv (x : list byte) st :
  doubling_init x = Ok st → len x + 1 ≤ max_int32 →
  pd_inv (length x) st.
Proof.
  unfold doubling_init. intros Hinit Hlen.
  replace (len x + 1) with (Z.of_nat (S (length x))) in *
    by (unfold len; lia).
  rewrite sa0_positions, Ok_bind in Hinit by done.
  unfold make in Hinit.
  destruct (Z.ltb_spec (len (positions (S (length x)))) 0) as [Hneg|_];
    [unfold len in Hneg; lia|].
  rewrite Ok_bind in Hinit.
  destruct (calcRank0_Ok x)
    as (alpha & rank & sigma & Hcalc & Hlr & Hrn & Hrank & Hsig & Hcode & _).
  rewrite Hcalc, Ok_bind in Hinit.
  apply bind_Ok in Hinit as ([sa buf] & Hsort & [= <-]).
  apply radixSortBuckets_Ok in Hsort as (Hkeys & -> & ->).
  2:{ unfold len. by rewrite length_replicate, Nat2Z.id. }
  2:{ unfold len. rewrite positions_length. lia. }
  pose proof (byte_key_bucket_sort_Permutation _ _ _ Hkeys) as Hperm.
  assert (∀ s, 0 ≤ s < Z.of_nat (S (length x)) →
    sort_key rank 0 s = default 0 (rank !! Z.to_nat s)) as Hkey.
  { intros s Hs. unfold sort_key, getRank, add32.
    rewrite Z.add_0_r, wrap32_small by (unfold max_int32 in Hlen; lia).
    destruct (Z.ltb_spec s (len rank)) as [_|Hge]; [|unfold len in Hge; lia].
    destruct (index_in_range rank s) as (r & -> & ->); [unfold len; lia|].
    done. }
  unfold pd_inv. cbn [pd_sa pd_rank pd_buf pd_sigma pd_k].
  assert (length (bucket_sort (sort_key rank 0) (positions (S (length x))))
          = S (length x)) as Hls by by rewrite Hperm, positions_length.
  split; [done|]. split; [done|]. split; [done|]. split; [|split; [done|]].
  - rewrite positions_S. apply bucket_sort_head.
    + rewrite Hkey by lia. by rewrite Nat2Z.id, Hrn.
    + apply Forall_forall. intros s Hs%positions_elem_of.
      rewrite Hkey by lia.
      destruct (lookup_lt_is_Some_2 x (Z.to_nat s)) as [c Hc]; [lia|].
      rewrite (Hrank _ _ Hc). simpl.
      pose proof (Hcode c (list_elem_of_lookup_2 _ _ _ Hc)). lia.
  - intros i Hi. destruct (lookup_lt_is_Some_2 x i) as [c Hc]; [lia|].
    exists (code alpha c). split; [by apply Hrank|].
    pose proof (Hcode c (list_elem_of_lookup_2 _ _ _ Hc)).
    unfold max_int32. lia.
Qed.

Lemma new_ranks_head keys key : keys !! 0%nat = Some key → new_ranks keys !! 0%nat = Some 0.
Proof. by destruct keys. Qed.

Lemma doubling_round_inv n st st' :
  doubling_round st = Ok st' → Z.of_nat (S n) ≤ max_int32 →
  pd_inv n st → pd_inv n st'.
Proof.
  unfold doubling_round. intros Hround Hlen Hinv.
  pose proof (pd_inv_ranks _ _ Hinv) as Hranks.
  pose proof Hinv as (Hp & Hlr & Hlb & H0 & Hn & Hr).
  apply bind_Ok in Hround as ([sa1 buf1] & Hsort & Hround).
  apply bind_Ok in Hround as ([buf2 sigma] & Hup & [= <-]).
  assert (length (pd_sa st) = S n) as Hls by by rewrite Hp, positions_length.
  assert (NoDup (pd_sa st)) as Hnd by (rewrite Hp; apply positions_NoDup).
  pose proof (radixSort_Ok _ _ _ _ _ _ Hsort) as [Hp1 Hlb1];
    [lia | unfold len; lia |].
  assert (sa1 !! 0%nat = Some (Z.of_nat n)) as H01.
  { eapply radixSort_head; [done | lia | unfold len; lia | done |].
    intros s Hs.
    destruct (pd_inv_rk n st (Z.of_nat n) Hinv) as [[_ ->]|[? _]];
      [by eapply list_elem_of_lookup_2| |lia].
    destruct (pd_inv_rk n st s Hinv) as [[-> _]|[_ ?]];
      [by eapply list_elem_of_lookup_2| |lia].
    by pose proof (NoDup_lookup _ _ _ _ Hnd H0 Hs). }
  assert (sa1 ≡ₚ positions (S n)) as Hp1' by by rewrite Hp1.
  assert (length sa1 = S n) as Hls1 by by rewrite Hp1', positions_length.
  assert (NoDup sa1) as Hnd1 by (rewrite Hp1'; apply positions_NoDup).
  apply updateRank_Ok in Hup as (Hl2 & Hout & _);
    [|done | unfold len; lia].
  set (keys := pair_key (pd_rank st) (pd_k st) <$> sa1) in *.
  assert (∀ j s, sa1 !! j = Some s → (1 ≤ j)%nat →
    ∃ a, new_ranks keys !! j = Some a ∧ 1 ≤ a ≤ max_int32) as Hpos.
  { intros j s Hj Hj1.
    assert (is_Some (new_ranks keys !! j)) as [a Ha].
    { apply lookup_lt_is_Some. unfold keys.
      rewrite new_ranks_length, length_fmap. by apply lookup_lt_Some in Hj. }
    exists a. split; [done|].
    pose proof (new_ranks_bounds _ _ _ Ha). apply lookup_lt_Some in Hj.
    split; [|lia].
    destruct (lookup_lt_is_Some_2 sa1 1) as [s1 Hs1]; [lia|].
    assert (keys !! 0%nat = Some (pair_key (pd_rank st) (pd_k st) (Z.of_nat n)))
      as Hk0 by (unfold keys; by rewrite list_lookup_fmap, H01).
    assert (keys !! 1%nat = Some (pair_key (pd_rank st) (pd_k st) s1))
      as Hk1 by (unfold keys; by rewrite list_lookup_fmap, Hs1).
    pose proof (new_ranks_step _ _ _ _ _ Hk0 Hk1 (new_ranks_head _ _ Hk0)) as Ha1.
    assert ((pair_key (pd_rank st) (pd_k st) (Z.of_nat n) =?
             pair_key (pd_rank st) (pd_k st) s1) = false) as Hne.
    { apply Z.eqb_neq. rewrite !pair_key_value by done.
      pose proof (sort_key_in_range (pd_rank st) (pd_k st) (Z.of_nat n) Hranks).
      pose proof (sort_key_in_range (pd_rank st) (pd_k st) s1 Hranks).
      destruct (pd_inv_rk n st (Z.of_nat n) Hinv) as [[_ ->]|[? _]];
        [by eapply list_elem_of_lookup_2| |lia].
      destruct (pd_inv_rk n st s1 Hinv) as [[-> _]|[_ ?]].
      - rewrite <- Hp1. by eapply list_elem_of_lookup_2.
      - by pose proof (NoDup_lookup _ _ _ _ Hnd1 H01 Hs1).
      - unfold max_int32 in *. lia. }
    rewrite Hne in Ha1.
    pose proof (new_ranks_mono keys 1 j _ _ Hj1 Ha1 Ha). lia. }
  unfold pd_inv. cbn [pd_sa pd_rank pd_buf pd_sigma pd_k].
  split; [done|]. split; [lia|]. split; [done|]. split; [done|]. split.
  - destruct (Hout _ _ H01) as [_ Hlook]. rewrite Nat2Z.id in Hlook.
    rewrite Hlook. eapply new_ranks_head. unfold keys.
    by rewrite list_lookup_fmap, H01.
  - intros i Hi.
    assert (Z.of_nat i ∈ sa1) as Hin
      by (rewrite Hp1'; apply positions_elem_of; lia).
    apply list_elem_of_lookup_1 in Hin as [j Hj].
    destruct (Hout _ _ Hj) as [_ Hlook]. rewrite Nat2Z.id in Hlook.
    rewrite Hlook. apply (Hpos j (Z.of_nat i) Hj).
    destruct j as [|j]; [|lia]. rewrite H01 in Hj. injection Hj. lia.
Qed.

Lemma doubling_loop_inv fuel n st st' :
  doubling_loop fuel (Z.of_nat (S n)) st = Ok st' →
  Z.of_nat (S n) ≤ max_int32 → pd_inv n st → pd_inv n st'.
Proof.
  revert st. induction fuel as [|fuel IH]; intros st Hloop Hlen Hinv.
  - simpl in Hloop. destruct (pd_sigma st <? Z.of_nat (S n)); [done|].
    by injection Hloop as <-.
  - rewrite doubling_loop_unfold in Hloop.
    destruct (pd_sigma st <? Z.of_nat (S n)); [|by injection Hloop as <-].
    apply bind_Ok in Hloop as (st1 & Hround & Hloop).
    apply (IH st1); [done | done |]. by eapply doubling_round_inv.
Qed.

(** Whenever [PrefixDoubling] returns, it returns a permutation of the
    positions 0 to [len(x)] that starts with [len(x)]. *)
Lemma PrefixDoubling_Ok (x : list byte) (sa : list Z) :
  PrefixDoubling x = Ok sa → len x + 1 ≤ max_int32 →
  sa ≡ₚ positions (S (length x)) ∧ sa !! 0%nat = Some (len x).
Proof.
  unfold PrefixDoubling, PrefixDoubling_loop. intros Hpd Hlen.
  apply bind_Ok in Hpd as (st & Hst & [= <-]).
  apply bind_Ok in Hst as (st0 & Hinit & Hloop).
  apply doubling_init_inv in Hinit; [|done].
  replace (len x + 1) with (Z.of_nat (S (length x))) in *
    by (unfold len; lia).
  apply doubling_loop_inv in Hloop as (Hp & _ & _ & H0 & _); done.
Qed.

(** ** [Bwt] *)

(** The character [Bwt] writes for the suffix at position [j]. *)
Definition bwt_char (x : list byte) (j : Z) : option byte :=
  if j =? 0 then Some x00
  else if j <? 0 then None
  else x !! Z.to_nat (j - 1).

Lemma Bwt_Ok (x y : list byte) :
  Bwt x = Ok y →
  ∃ sa, PrefixDoubling x = Ok sa ∧ length y = S (length x) ∧
        ∀ i j, sa !! i = Some j → is_Some (y !! i) ∧ y !! i = bwt_char x j.
Proof.
  unfold Bwt. intros Hbwt.
  apply bind_Ok in Hbwt as (sa & Hsa & Hbwt). exists sa. split; [done|].
  apply bind_Ok in Hbwt as (y0 & Hy0 & Hbwt).
  apply bind_Ok in Hbwt as ([i' y'] & Hloop & [= <-]).
  unfold make in Hy0. destruct (len x + 1 <? 0); [done|].
  injection Hy0 as <-.
  pose proof (for_range_partial (λ done '(i, y),
    i = len done ∧ length y = S (length x) ∧
    ∀ p j, done !! p = Some j → is_Some (y !! p) ∧ y !! p = bwt_char x j)
    _ _ _ _ Hloop) as H.
  destruct H as (_ & Hl & Hy).
  - split; [done|]. split; [|done].
    rewrite length_replicate. unfold len. lia.
  - intros done j [i y0] [i1 y1] (-> & Hl & Hy) Hbody.
    unfold bwt_body in Hbody.
    apply bind_Ok in Hbody as (y2 & Hst & [= <- <-]).
    assert (∃ c, bwt_char x j = Some c ∧ store y0 (len done) c = Ok y2)
      as (c & Hc & Hst').
    { unfold bwt_char. destruct (Z.eqb_spec j 0) as [->|Hj0].
      - by exists x00.
      - apply bind_Ok in Hst as (c & Hc & Hst). exists c. split; [|done].
        apply index_Ok in Hc as [Hj Hc].
        destruct (Z.ltb_spec j 0); [lia | done]. }
    apply store_Ok in Hst' as [Hrange ->].
    split; [unfold len; rewrite length_app; simpl; lia|].
    split; [by rewrite length_insert|].
    intros p j' Hp. unfold len in *.
    apply lookup_app_Some in Hp as [Hp|[Hge Hp]].
    + apply lookup_lt_Some in Hp as Hlt.
      rewrite list_lookup_insert_ne by lia. by apply Hy.
    + apply list_lookup_singleton_Some in Hp as [Hp0 <-].
      assert (p = length done) as -> by lia.
      rewrite Nat2Z.id, list_lookup_insert_eq by lia. by rewrite Hc.
  - split; [done|]. done.
Qed.

Lemma len_pos {A} (l : list A) : l ≠ [] → 0 < len l.
Proof. destruct l; [congruence|]. intros _. unfold len. simpl. lia. Qed.

(** The BWT of a string without the sentinel does not start with it. *)
Lemma Bwt_head (x y : list byte) :
  Bwt x = Ok y → x ≠ [] → Forall (λ c, c ≠ x00) x →
  len x + 1 ≤ max_int32 →
  ∃ b0, y !! 0%nat = Some b0 ∧ b0 ≠ x00.
Proof.
  intros Hbwt Hx Hnz Hlen.
  destruct (Bwt_Ok x y Hbwt) as (sa & Hsa & _ & Hy).
  destruct (PrefixDoubling_Ok x sa Hsa Hlen) as [_ H0].
  destruct (Hy _ _ H0) as [[b0 Hb0] Hchar]. exists b0. split; [done|].
  rewrite Hb0 in Hchar. unfold bwt_char in Hchar.
  pose proof (len_pos x Hx) as Hpos.
  destruct (Z.eqb_spec (len x) 0); [lia|].
  destruct (Z.ltb_spec (len x) 0); [lia|].
  symmetry in Hchar. apply list_elem_of_lookup_2 in Hchar.
  by apply (proj1 (Forall_forall _ _) Hnz).
Qed.

(** ** No run is cut short *)

(** The result [OutOfFuel] says that a loop of the embedding was stopped
    before the loop of the program; the lemmas of this part show that with
    the fuel the embedding gives, no call ever has that result. *)
Definition no_timeout {A} (r : result A) : Prop := r ≠ OutOfFuel.

Lemma nt_bind {A B} (m : result A) (f : A → result B) :
  no_timeout m → (∀ a, m = Ok a → no_timeout (f a)) → no_timeout (m ≫= f).
Proof. destruct m as [a| |]; intros Hm Hf; [by apply Hf | done | done]. Qed.

Lemma nt_index {A} (l : list A) i : no_timeout (index l i).
Proof. unfold index. destruct (i <? 0); [done|]. by destruct (l !! _). Qed.

Lemma nt_store {A} (l : list A) i v : no_timeout (store l i v).
Proof. unfold store. by destruct (_ && _). Qed.

Lemma nt_make {A} n (z : A) : no_timeout (make n z).
Proof. unfold make. by destruct (n <? 0). Qed.

Lemma nt_slice {A} (l : list A) lo hi : no_timeout (slice l lo hi).
Proof. unfold slice. by destruct (_ && _). Qed.

Lemma nt_for_loop {St} count lo (body : Z → St → result St) s :
  (∀ i s, no_timeout (body i s)) → no_timeout (for_loop count lo body s).
Proof.
  intros Hbody. revert lo s. induction count as [|c IH]; intros lo s; [done|].
  simpl. apply nt_bind; [apply Hbody|]. intros s' _. apply IH.
Qed.

Lemma nt_for_range {A St} (l : list A) (body : A → St → result St) s :
  (∀ a s, no_timeout (body a s)) → no_timeout (for_range l body s).
Proof.
  intros Hbody. revert s. induction l as [|a l IH]; intros s; [done|].
  simpl. apply nt_bind; [apply Hbody|]. intros s' _. apply IH.
Qed.

Lemma nt_getRank rank i : no_timeout (getRank rank i).
Proof. unfold getRank. destruct (_ <? _); [apply nt_index | done]. Qed.

Lemma nt_bucket_of rank src k shift i :
  no_timeout (bucket_of rank src k shift i).
Proof.
  unfold bucket_of. apply nt_bind; [apply nt_index|]. intros s _.
  apply nt_bind; [apply nt_getRank | done].
Qed.

Lemma nt_radix_pass rank n k shift src dst :
  no_timeout (radix_pass rank n k shift src dst).
Proof.
  unfold radix_pass. apply nt_bind.
  { apply nt_for_loop. intros i bs. unfold count_body.
    apply nt_bind; [apply nt_bucket_of|]. intros b _.
    apply nt_bind; [apply nt_index|]. intros c _. apply nt_store. }
  intros counts _. apply nt_bind.
  { apply nt_for_loop. intros i [bs acc]. unfold accumulate_body.
    apply nt_bind; [apply nt_index|]. intros b _.
    apply nt_bind; [apply nt_store | done]. }
  intros [starts acc] _. apply nt_bind; [|by intros [bs dst'] _].
  apply nt_for_loop. intros i [bs dst']. unfold place_body.
  apply nt_bind; [apply nt_bucket_of|]. intros b _.
  apply nt_bind; [apply nt_index|]. intros pos _.
  apply nt_bind; [apply nt_index|]. intros s _.
  apply nt_bind; [apply nt_store|]. intros d _.
  apply nt_bind; [apply nt_store | done].
Qed.

Lemma nt_radixSortBuckets rank sa buf k :
  no_timeout (radixSortBuckets rank sa buf k).
Proof.
  rewrite radixSortBuckets_unfold.
  repeat (apply nt_bind; [apply nt_radix_pass|]; intros ? _). done.
Qed.

Lemma nt_scan_bucket rem rank sa p e : no_timeout (scan_bucket rem rank sa p e).
Proof.
  revert e. induction rem as [|rem IH]; intros e; [done|]. simpl.
  apply nt_bind; [apply nt_index|]. intros sp _.
  apply nt_bind; [apply nt_index|]. intros r _.
  apply nt_bind; [apply nt_index|]. intros se _.
  apply nt_bind; [apply nt_index|]. intros r' _.
  destruct (r =? r'); [apply IH | done].
Qed.

Lemma nt_sort_bucket k rank sa buf p e :
  no_timeout (sort_bucket k rank sa buf p e).
Proof.
  unfold sort_bucket. destruct (1 <? e - p); [|done].
  apply nt_bind; [apply nt_slice|]. intros s _.
  apply nt_bind; [apply nt_slice|]. intros b _.
  apply nt_bind; [apply nt_radixSortBuckets|]. by intros [s' b'] _.
Qed.

(** The slices keep their lengths. *)
Lemma radix_pass_length rank n k shift src dst dst' :
  radix_pass rank n k shift src dst = Ok dst' → length dst' = length dst.
Proof.
  unfold radix_pass. intros (counts & _ & Hpass)%bind_Ok.
  apply bind_Ok in Hpass as ([starts acc] & _ & Hpass).
  apply bind_Ok in Hpass as ([bs d] & Hloop & [= <-]).
  pose proof (for_loop_partial (λ _ '(_, d), length d = length dst)
    _ _ _ _ _ Hloop) as H. apply H; [done|].
  intros i [bs1 d1] [bs2 d2] _ Hl Hbody. unfold place_body in Hbody.
  apply bind_Ok in Hbody as (b & _ & Hbody).
  apply bind_Ok in Hbody as (pos & _ & Hbody).
  apply bind_Ok in Hbody as (s & _ & Hbody).
  apply bind_Ok in Hbody as (d' & [_ ->]%store_Ok & Hbody).
  apply bind_Ok in Hbody as (bs' & _ & [= <- <-]).
  by rewrite length_insert.
Qed.

Lemma radixSortBuckets_length rank sa buf k sa' buf' :
  radixSortBuckets rank sa buf k = Ok (sa', buf') →
  length sa' = length sa ∧ length buf' = length buf.
Proof.
  rewrite radixSortBuckets_unfold. intros (buf1 & H1 & H)%bind_Ok.
  apply bind_Ok in H as (sa1 & H2 & H).
  apply bind_Ok in H as (buf2 & H3 & H).
  apply bind_Ok in H as (sa2 & H4 & [= <- <-]).
  apply radix_pass_length in H1, H2, H3, H4. split; congruence.
Qed.

Lemma sort_bucket_length k rank sa buf p e sa' buf' :
  sort_bucket k rank sa buf p e = Ok (sa', buf') →
  length sa' = length sa ∧ length buf' = length buf.
Proof.
  unfold sort_bucket. destruct (1 <? e - p); [|by intros [= <- <-]].
  intros (s & Hs & H)%bind_Ok.
  apply bind_Ok in H as (b & Hb & H).
  apply bind_Ok in H as ([s' b'] & Hsort & [= <- <-]).
  apply radixSortBuckets_length in Hsort as [Hls Hlb].
  split; by eapply splice_length.
Qed.

(** The outer loop of [radixSort] has fuel for every bucket. *)
Lemma nt_radixSort_loop fuel k rank sa buf p :
  0 ≤ p → len sa - p ≤ Z.of_nat fuel →
  no_timeout (radixSort_loop fuel k rank sa buf p p).
Proof.
  revert sa buf p. induction fuel as [|fuel IH]; intros sa buf p Hp Hf.
  - simpl. destruct (Z.ltb_spec p (len sa)); [lia | done].
  - rewrite radixSort_loop_unfold.
    destruct (Z.ltb_spec p (len sa)) as [Hlt|_]; [|done].
    apply nt_bind; [apply nt_scan_bucket|]. intros e Hscan.
    apply nt_bind; [apply nt_sort_bucket|]. intros [sa1 buf1] Hsort.
    apply scan_bucket_advances in Hscan; [|lia..].
    apply sort_bucket_length in Hsort as [Hl _].
    apply IH; unfold len in *; lia.
Qed.

Lemma nt_radixSort k rank sa buf : no_timeout (radixSort k rank sa buf).
Proof. apply nt_radixSort_loop; unfold len; lia. Qed.

Lemma nt_pair rank sa i k : no_timeout (pair rank sa i k).
Proof.
  unfold pair. apply nt_bind; [apply nt_index|]. intros s _.
  apply nt_bind; [apply nt_index|]. intros r _.
  apply nt_bind; [apply nt_getRank | done].
Qed.

Lemma nt_updateRank sa rank out k : no_timeout (updateRank sa rank out k).
Proof.
  unfold updateRank. apply nt_bind; [apply nt_index|]. intros s0 _.
  apply nt_bind; [apply nt_store|]. intros out1 _.
  apply nt_bind; [apply nt_pair|]. intros prev _.
  apply nt_bind; [|by intros [[a p] o] _].
  apply nt_for_loop. intros i [[a p] o]. unfold update_body.
  apply nt_bind; [apply nt_pair|]. intros cur _.
  apply nt_bind; [apply nt_index|]. intros s _.
  apply nt_bind; [apply nt_store | done].
Qed.

Lemma nt_doubling_round st : no_timeout (doubling_round st).
Proof.
  unfold doubling_round. apply nt_bind; [apply nt_radixSort|].
  intros [sa buf] _. apply nt_bind; [apply nt_updateRank|]. by intros [b s] _.
Qed.

Lemma nt_doubling_init x : no_timeout (doubling_init x).
Proof.
  unfold doubling_init. apply nt_bind.
  { unfold sa0. apply nt_bind; [apply nt_make|]. intros sa _.
    apply nt_for_loop. intros i s. apply nt_store. }
  intros sa _. apply nt_bind; [apply nt_make|]. intros buf _.
  destruct (calcRank0_Ok x) as (alpha & rank & sigma & -> & _).
  rewrite Ok_bind. apply nt_bind; [apply nt_radixSortBuckets|].
  by intros [sa' buf'] _.
Qed.

(** All the numbers in the slices are [int32] values. *)
Definition is_int32 (z : Z) : Prop := - 2 ^ 31 ≤ z < 2 ^ 31.

Lemma is_int32_wrap32 z : is_int32 (wrap32 z).
Proof. apply wrap32_range. Qed.

Lemma Forall_insert_2 {A} (P : A → Prop) (l : list A) i v :
  Forall P l → P v → Forall P (<[i := v]> l).
Proof.
  intros Hl Hv. apply Forall_lookup. intros j w Hj.
  destruct (decide (i = j)) as [->|Hne].
  - destruct (decide (j < length l)%nat).
    + rewrite list_lookup_insert_eq in Hj by done. by injection Hj as <-.
    + rewrite list_insert_ge in Hj by lia. by eapply Forall_lookup_1.
  - rewrite list_lookup_insert_ne in Hj by done. by eapply Forall_lookup_1.
Qed.

Lemma radix_pass_int32 rank n k shift src dst dst' :
  radix_pass rank n k shift src dst = Ok dst' →
  Forall is_int32 src → Forall is_int32 dst → Forall is_int32 dst'.
Proof.
  unfold radix_pass. intros (counts & _ & Hpass)%bind_Ok Hsrc Hdst.
  apply bind_Ok in Hpass as ([starts acc] & _ & Hpass).
  apply bind_Ok in Hpass as ([bs d] & Hloop & [= <-]).
  pose proof (for_loop_partial (λ _ '(_, d), Forall is_int32 d)
    _ _ _ _ _ Hloop) as H. apply H; [done|].
  intros i [bs1 d1] [bs2 d2] _ Hl Hbody. unfold place_body in Hbody.
  apply bind_Ok in Hbody as (b & _ & Hbody).
  apply bind_Ok in Hbody as (pos & _ & Hbody).
  apply bind_Ok in Hbody as (s & [_ Hs]%index_Ok & Hbody).
  apply bind_Ok in Hbody as (d' & [_ ->]%store_Ok & Hbody).
  apply bind_Ok in Hbody as (bs' & _ & [= <- <-]).
  apply Forall_insert_2; [done|]. exact (Forall_lookup_1 _ _ _ _ Hsrc Hs).
Qed.

Lemma radixSortBuckets_int32 rank sa buf k sa' buf' :
  radixSortBuckets rank sa buf k = Ok (sa', buf') →
  Forall is_int32 sa → Forall is_int32 buf →
  Forall is_int32 sa' ∧ Forall is_int32 buf'.
Proof.
  rewrite radixSortBuckets_unfold. intros (buf1 & H1 & H)%bind_Ok Hsa Hbuf.
  apply bind_Ok in H as (sa1 & H2 & H).
  apply bind_Ok in H as (buf2 & H3 & H).
  apply bind_Ok in H as (sa2 & H4 & [= <- <-]).
  pose proof (radix_pass_int32 _ _ _ _ _ _ _ H1 Hsa Hbuf) as Hb1.
  pose proof (radix_pass_int32 _ _ _ _ _ _ _ H2 Hb1 Hsa) as Hs1.
  pose proof (radix_pass_int32 _ _ _ _ _ _ _ H3 Hs1 Hb1) as Hb2.
  pose proof (radix_pass_int32 _ _ _ _ _ _ _ H4 Hb2 Hs1) as Hs2.
  done.
Qed.

Lemma splice_Forall {A} (P : A → Prop) (l s : list A) lo :
  Forall P l → Forall P s → Forall P (splice l lo s).
Proof.
  intros Hl Hs. unfold splice. apply Forall_app. split; [by apply Forall_take|].
  apply Forall_app. split; [done | by apply Forall_drop].
Qed.

Lemma slice_Forall {A} (P : A → Prop) (l s : list A) lo hi :
  slice l lo hi = Ok s → Forall P l → Forall P s.
Proof.
  intros (_ & _ & -> & _)%slice_Ok Hl. by apply Forall_take, Forall_drop.
Qed.

Lemma sort_bucket_int32 k rank sa buf p e sa' buf' :
  sort_bucket k rank sa buf p e = Ok (sa', buf') →
  Forall is_int32 sa → Forall is_int32 buf →
  Forall is_int32 sa' ∧ Forall is_int32 buf'.
Proof.
  unfold sort_bucket. destruct (1 <? e - p); [|by intros [= <- <-]].
  intros (s & Hs & H)%bind_Ok Hsa Hbuf.
  apply bind_Ok in H as (b & Hb & H).
  apply bind_Ok in H as ([s' b'] & Hsort & [= <- <-]).
  apply radixSortBuckets_int32 in Hsort as [Hs' Hb'];
    [|by eapply slice_Forall..].
  split; by apply splice_Forall.
Qed.

Lemma radixSort_loop_int32 fuel k rank sa buf p e sa' buf' :
  radixSort_loop fuel k rank sa buf p e = Ok (sa', buf') →
  Forall is_int32 sa → Forall is_int32 buf →
  Forall is_int32 sa' ∧ Forall is_int32 buf'.
Proof.
  revert sa buf p e. induction fuel as [|fuel IH]; intros sa buf p e Hloop Hsa Hbuf.
  - simpl in Hloop. destruct (p <? len sa); [done|]. by injection Hloop as <- <-.
  - rewrite radixSort_loop_unfold in Hloop.
    destruct (p <? len sa); [|by injection Hloop as <- <-].
    apply bind_Ok in Hloop as (e' & _ & Hloop).
    apply bind_Ok in Hloop as ([sa1 buf1] & Hsort & Hloop).
    apply sort_bucket_int32 in Hsort as [Hs1 Hb1]; [|done..].
    by apply (IH _ _ _ _ Hloop).
Qed.

Lemma updateRank_int32 sa rank out k out' sigma :
  updateRank sa rank out k = Ok (out', sigma) →
  Forall is_int32 out → Forall is_int32 out'.
Proof.
  unfold updateRank. intros (s0 & _ & Hup)%bind_Ok Hout.
  apply bind_Ok in Hup as (out1 & [_ ->]%store_Ok & Hup).
  apply bind_Ok in Hup as (prev & _ & Hup).
  apply bind_Ok in Hup as ([[a prev'] out2] & Hloop & [= <- <-]).
  pose proof (for_loop_partial (λ _ '(a, _, o), is_int32 a ∧ Forall is_int32 o)
    _ _ _ _ _ Hloop) as H. apply H.
  - split; [unfold is_int32; lia|]. apply Forall_insert_2; [done|].
    unfold is_int32; lia.
  - intros i [[a1 p1] o1] [[a2 p2] o2] _ [Ha Ho] Hbody.
    unfold update_body in Hbody.
    apply bind_Ok in Hbody as (cur & _ & Hbody).
    apply bind_Ok in Hbody as (s & _ & Hbody).
    apply bind_Ok in Hbody as (o' & [_ ->]%store_Ok & [= <- <- <-]).
    assert (is_int32 (if p1 =? cur then a1 else wrap32 (a1 + 1))) as Ha'
      by (destruct (p1 =? cur); [done | apply is_int32_wrap32]).
    split; [done|]. by apply Forall_insert_2.
Qed.

(** The slices of the state hold [int32] values. *)
Definition pd_int32 (st : pd_state) : Prop :=
  Forall is_int32 (pd_sa st) ∧ Forall is_int32 (pd_rank st) ∧
  Forall is_int32 (pd_buf st).

Lemma doubling_round_int32 st st' :
  doubling_round st = Ok st' → pd_int32 st → pd_int32 st'.
Proof.
  unfold doubling_round. intros ([sa buf] & Hsort & Hround)%bind_Ok.
  intros (Hsa & Hrank & Hbuf).
  apply bind_Ok in Hround as ([buf2 sigma] & Hup & [= <-]).
  apply radixSort_loop_int32 in Hsort as [Hs1 Hb1]; [|done..].
  apply updateRank_int32 in Hup; [|done]. done.
Qed.

Lemma doubling_init_int32 x st :
  doubling_init x = Ok st → pd_int32 st.
Proof.
  unfold doubling_init. intros (sa & Hsa & Hinit)%bind_Ok.
  apply bind_Ok in Hinit as (buf & Hbuf & Hinit).
  destruct (calcRank0_Ok x)
    as (alpha & rank & sigma & Hcalc & Hlr & Hrn & Hrank & Hsig & Hcode & _).
  rewrite Hcalc, Ok_bind in Hinit.
  apply bind_Ok in Hinit as ([sa' buf'] & Hsort & [= <-]).
  assert (Forall is_int32 sa) as Hsa32.
  { unfold sa0 in Hsa. apply bind_Ok in Hsa as (z & Hz & Hloop).
    unfold make in Hz. destruct (_ <? 0); [done|]. injection Hz as <-.
    pose proof (for_loop_partial (λ _ l, Forall is_int32 l)
      _ _ _ _ _ Hloop) as H. apply H.
    - apply Forall_replicate. unfold is_int32; lia.
    - intros i l l' _ Hl [_ ->]%store_Ok.
      apply Forall_insert_2; [done | apply is_int32_wrap32]. }
  assert (Forall is_int32 buf) as Hbuf32.
  { unfold make in Hbuf. destruct (_ <? 0); [done|]. injection Hbuf as <-.
    apply Forall_replicate. unfold is_int32; lia. }
  assert (Forall is_int32 rank) as Hrank32.
  { apply Forall_lookup. intros i r Hi.
    apply lookup_lt_Some in Hi as Hlt.
    destruct (decide (i = length x)) as [->|Hne].
    - rewrite Hrn in Hi. injection Hi as <-. unfold is_int32; lia.
    - destruct (lookup_lt_is_Some_2 x i) as [c Hc]; [lia|].
      rewrite (Hrank _ _ Hc) in Hi. injection Hi as <-.
      pose proof (Hcode c (list_elem_of_lookup_2 _ _ _ Hc)).
      unfold is_int32; lia. }
  apply radixSortBuckets_int32 in Hsort as [? ?]; done.
Qed.

(** With the offset [-2^31] a round panics: [updateRank] reads the rank
    of a negative position. *)
Lemma doubling_round_wrapped st st' :
  pd_k st = - 2 ^ 31 → pd_int32 st → doubling_round st ≠ Ok st'.
Proof.
  intros Hk (Hsa & Hrank & Hbuf) Hround. unfold doubling_round in Hround.
  apply bind_Ok in Hround as ([sa buf] & Hsort & Hround).
  apply bind_Ok in Hround as ([buf2 sigma] & Hup & _).
  apply radixSort_loop_int32 in Hsort as [Hs1 _]; [|done..].
  unfold updateRank in Hup.
  apply bind_Ok in Hup as (s0 & [_ Hs0]%index_Ok & Hup).
  apply bind_Ok in Hup as (out1 & [Hrange _]%store_Ok & Hup).
  apply bind_Ok in Hup as (prev & Hpair & _).
  apply pair_Ok in Hpair as (s & r & g & [_ Hs]%index_Ok & _ & Hg & _).
  rewrite Hs0 in Hs. injection Hs as <-.
  pose proof (Forall_lookup_1 _ _ _ _ Hs1 Hs0) as H32. unfold is_int32 in H32.
  unfold getRank, add32 in Hg. rewrite Hk in Hg.
  rewrite wrap32_small in Hg by lia.
  destruct (Z.ltb_spec (s0 + - 2 ^ 31) (len (pd_rank st))) as [_|Hge];
    [|unfold len in Hge; lia].
  apply index_Ok in Hg. lia.
Qed.

(** The offset of round [j] is [2^j] in [int32]; round 31 would have the
    offset [-2^31] and panics, so 32 rounds of fuel are never used up. *)
Lemma nt_doubling_loop (j fuel : nat) n_rank st :
  (j ≤ 31)%nat → (32 - j ≤ fuel)%nat →
  pd_k st = wrap32 (2 ^ Z.of_nat j) → pd_int32 st →
  no_timeout (doubling_loop fuel n_rank st).
Proof.
  revert j st. induction fuel as [|fuel IH]; intros j st Hj Hf Hk H32; [lia|].
  rewrite doubling_loop_unfold. destruct (pd_sigma st <? n_rank); [|done].
  apply nt_bind; [apply nt_doubling_round|]. intros st1 Hround.
  destruct (decide (j = 31%nat)) as [->|Hne].
  - exfalso. by apply (doubling_round_wrapped st st1).
  - apply (IH (S j)); [lia | lia | | by eapply doubling_round_int32].
    unfold doubling_round in Hround.
    apply bind_Ok in Hround as ([sa buf] & _ & Hround).
    apply bind_Ok in Hround as ([buf2 sigma] & _ & [= <-]).
    cbn [pd_k]. rewrite Hk. f_equal.
    assert (2 ^ Z.of_nat j < 2 ^ 31) by (apply Z.pow_lt_mono_r; lia).
    assert (0 < 2 ^ Z.of_nat j) by (apply Z.pow_pos_nonneg; lia).
    rewrite wrap32_small by lia.
    replace (Z.of_nat (S j)) with (Z.of_nat j + 1) by lia.
    rewrite Z.pow_add_r by lia. lia.
Qed.

(** [PrefixDoubling] returns or panics within the 32 rounds of the
    embedding, on every string. *)
Lemma nt_PrefixDoubling x : no_timeout (PrefixDoubling x).
Proof.
  unfold PrefixDoubling, PrefixDoubling_loop.
  apply nt_bind; [|done]. apply nt_bind; [apply nt_doubling_init|].
  intros st Hinit. apply (nt_doubling_loop 0); [lia | unfold doubling_fuel; lia | |].
  - unfold doubling_init in Hinit.
    apply bind_Ok in Hinit as (sa & _ & Hinit).
    apply bind_Ok in Hinit as (buf & _ & Hinit).
    apply bind_Ok in Hinit as ([rank sigma] & _ & Hinit).
    apply bind_Ok in Hinit as ([sa' buf'] & _ & [= <-]). done.
  - by eapply doubling_init_int32.
Qed.

Lemma nt_Bwt x : no_timeout (Bwt x).
Proof.
  unfold Bwt. apply nt_bind; [apply nt_PrefixDoubling|]. intros sa _.
  apply nt_bind; [apply nt_make|]. intros y _.
  apply nt_bind; [|by intros [i y'] _].
  apply nt_for_range. intros j [i y']. unfold bwt_body.
  apply nt_bind; [|done]. destruct (j =? 0); [apply nt_store|].
  apply nt_bind; [apply nt_index|]. intros c _. apply nt_store.
Qed.

(** Whenever [Bwt] returns on a string without zero byte, the sentinel
    stands in its result exactly where the suffix array holds position 0,
    and that is at one index only. *)
Lemma Bwt_sentinel (x y : list byte) :
  Bwt x = Ok y → Forall (λ c, c ≠ x00) x → len x + 1 ≤ max_int32 →
  ∃ sa, PrefixDoubling x = Ok sa ∧ length sa = length y ∧
    (∀ i, y !! i = Some x00 ↔ sa !! i = Some 0) ∧
    (∃ i, sa !! i = Some 0 ∧ ∀ j, sa !! j = Some 0 → j = i).
Proof.
  intros Hbwt Hnz Hlen.
  destruct (Bwt_Ok x y Hbwt) as (sa & Hsa & Hly & Hy).
  destruct (PrefixDoubling_Ok x sa Hsa Hlen) as [Hperm _].
  assert (length sa = S (length x)) as Hls
    by by rewrite Hperm, positions_length.
  assert (NoDup sa) as Hnd by (rewrite Hperm; apply positions_NoDup).
  exists sa. split; [done|]. split; [lia|]. split.
  - intros i. split.
    + intros Hi. apply lookup_lt_Some in Hi as Hlt.
      destruct (lookup_lt_is_Some_2 sa i) as [j Hj]; [lia|].
      destruct (Hy _ _ Hj) as [_ Hchar]. rewrite Hi in Hchar.
      unfold bwt_char in Hchar. destruct (Z.eqb_spec j 0) as [->|Hj0]; [done|].
      destruct (j <? 0); [done|]. symmetry in Hchar.
      apply list_elem_of_lookup_2 in Hchar.
      by apply (proj1 (Forall_forall _ _) Hnz) in Hchar.
    + intros Hi. by destruct (Hy _ _ Hi) as [_ ->].
  - assert (0 ∈ sa) as Hin by (rewrite Hperm; apply positions_elem_of; lia).
    apply list_elem_of_lookup_1 in Hin as [i Hi]. exists i. split; [done|].
    intros j Hj. by apply (NoDup_lookup sa j i 0).
Qed.

(** ** [radixSort] sorts by pairs *)

(** A list in non-decreasing order of [f]. *)
Definition sorted_by (f : Z → Z) (l : list Z) : Prop :=
  ∀ i j s t, (i < j)%nat → l !! i = Some s → l !! j = Some t → f s ≤ f t.

Lemma sorted_by_app f l1 l2 :
  sorted_by f l1 → sorted_by f l2 →
  (∀ s t, s ∈ l1 → t ∈ l2 → f s ≤ f t) →
  sorted_by f (l1 ++ l2).
Proof.
  intros H1 H2 H12 i j s t Hij Hi Hj.
  apply lookup_app_Some in Hi as [Hi|[Hli Hi]];
    apply lookup_app_Some in Hj as [Hj|[Hlj Hj]].
  - by apply (H1 i j).
  - apply H12; by eapply list_elem_of_lookup_2.
  - apply lookup_lt_Some in Hj. lia.
  - apply (H2 (i - length l1)%nat (j - length l1)%nat); [lia | done..].
Qed.

Lemma sorted_by_drop f l n : sorted_by f l → sorted_by f (drop n l).
Proof.
  intros H i j s t Hij Hi Hj. rewrite lookup_drop in Hi, Hj.
  apply (H (n + i)%nat (n + j)%nat); [lia | done..].
Qed.

Lemma sorted_by_short f l : (length l ≤ 1)%nat → sorted_by f l.
Proof.
  intros Hl i j s t Hij Hi Hj. apply lookup_lt_Some in Hj. lia.
Qed.

Lemma sorted_by_ext f g l :
  (∀ s t, s ∈ l → t ∈ l → f s ≤ f t → g s ≤ g t) →
  sorted_by f l → sorted_by g l.
Proof.
  intros Hfg H i j s t Hij Hi Hj.
  apply Hfg; [by eapply list_elem_of_lookup_2.. |]. by apply (H i j).
Qed.

Lemma bucket_sort_sorted_by f l :
  Forall (λ s, 0 ≤ f s) l → sorted_by f (bucket_sort f l).
Proof. intros Hl i j s t. by apply bucket_sort_sorted. Qed.

Lemma list_split3 {A} (l : list A) (lo hi : nat) :
  (lo ≤ hi ≤ length l)%nat →
  l = take lo l ++ take (hi - lo) (drop lo l) ++ drop hi l.
Proof.
  intros H. rewrite <- (take_drop lo l) at 1. f_equal.
  rewrite <- (take_drop (hi - lo) (drop lo l)) at 1. f_equal.
  rewrite drop_drop. f_equal. lia.
Qed.

(** What the sort of the bucket from [p] to [e - 1] leaves in [sa]. *)
Lemma sort_bucket_sorted k rank sa buf p e sa' buf' :
  sort_bucket k rank sa buf p e = Ok (sa', buf') →
  length buf = length sa → len sa ≤ max_int32 → 0 ≤ p < e → e ≤ len sa →
  ∃ seg,
    sa' = take (Z.to_nat p) sa ++ seg ++ drop (Z.to_nat e) sa ∧
    seg ≡ₚ take (Z.to_nat (e - p)) (drop (Z.to_nat p) sa) ∧
    sorted_by (sort_key rank k) seg.
Proof.
  unfold sort_bucket. intros Hsort Hb Hlen Hp He.
  destruct (Z.ltb_spec 1 (e - p)) as [Hsize|Hsize].
  - apply bind_Ok in Hsort as (s & Hs & Hsort).
    apply bind_Ok in Hsort as (b & Hbf & Hsort).
    apply bind_Ok in Hsort as ([s' b'] & Hrs & [= <- <-]).
    pose proof (slice_Ok _ _ _ _ Hs) as (_ & _ & Hseg & Hls).
    pose proof (slice_Ok _ _ _ _ Hbf) as (_ & _ & _ & Hlb).
    apply radixSortBuckets_Ok in Hrs as (Hkeys & -> & _);
      [|unfold len in *; lia..].
    pose proof (byte_key_bucket_sort_Permutation rank k s Hkeys) as Hperm.
    destruct (splice_parts sa s (bucket_sort (sort_key rank k) s) p e Hs)
      as [_ ->]; [by rewrite Hperm|].
    eexists. split; [done|]. split; [by rewrite Hperm, Hseg|].
    apply bucket_sort_sorted_by.
    eapply Forall_impl; [done|]. intros t [_ ?]. simpl. lia.
  - injection Hsort as <- <-.
    exists (take (Z.to_nat (e - p)) (drop (Z.to_nat p) sa)).
    split; [|split; [done|]].
    + replace (Z.to_nat (e - p)) with (Z.to_nat e - Z.to_nat p)%nat by lia.
      apply list_split3. unfold len in *. lia.
    + apply sorted_by_short. rewrite length_take. lia.
Qed.

Lemma pair_key_le rank k s t :
  ranks_in_range rank →
  rk rank s < rk rank t ∨
  (rk rank s = rk rank t ∧ sort_key rank k s ≤ sort_key rank k t) →
  pair_key rank k s ≤ pair_key rank k t.
Proof.
  intros Hr H. rewrite !pair_key_value by done.
  pose proof (sort_key_in_range rank k s Hr).
  pose proof (sort_key_in_range rank k t Hr).
  unfold max_int32 in *. lia.
Qed.

(** Whenever the outer loop of [radixSort] returns, the part of [sa] from
    [p] on, which was sorted by rank, is the same elements sorted by the
    pair of the rank and the rank [k] positions ahead. *)
Lemma radixSort_loop_sorted fuel k rank sa buf p sa' buf' :
  radixSort_loop fuel k rank sa buf p p = Ok (sa', buf') →
  length buf = length sa → len sa ≤ max_int32 → 0 ≤ p →
  ranks_in_range rank →
  sorted_by (rk rank) (drop (Z.to_nat p) sa) →
  sorted_by (pair_key rank k) (drop (Z.to_nat p) sa') ∧
  drop (Z.to_nat p) sa' ≡ₚ drop (Z.to_nat p) sa.
Proof.
  revert sa buf p.
  induction fuel as [|fuel IH]; intros sa buf p Hloop Hb Hlen Hp Hr Hsorted.
  - simpl in Hloop. destruct (Z.ltb_spec p (len sa)) as [Hlt|Hge]; [done|].
    injection Hloop as <- <-. rewrite drop_ge by (unfold len in *; lia).
    split; [|done]. apply sorted_by_short. simpl. lia.
  - rewrite radixSort_loop_unfold in Hloop.
    destruct (Z.ltb_spec p (len sa)) as [Hlt|Hge].
    2:{ injection Hloop as <- <-. rewrite drop_ge by (unfold len in *; lia).
        split; [|done]. apply sorted_by_short. simpl. lia. }
    apply bind_Ok in Hloop as (e & Hscan & Hloop).
    apply bind_Ok in Hloop as ([sa1 buf1] & Hsort & Hloop).
    pose proof (scan_bucket_advances _ _ _ _ _ Hscan ltac:(lia) ltac:(lia)) as He.
    apply scan_bucket_Ok in Hscan as (Hle & Heq & Hend); [|lia..].
    pose proof (sort_bucket_Ok _ _ _ _ _ _ _ _ Hsort Hb Hlen)
      as (Hperm1 & Hb1 & _).
    assert (length sa1 = length sa) as Hl1 by by rewrite Hperm1.
    apply sort_bucket_sorted in Hsort as (seg & Hsa1 & Hseg & Hsegs);
      [|done || lia..].
    set (P := Z.to_nat p) in *. set (E := Z.to_nat e) in *.
    assert (length seg = (E - P)%nat) as Hlseg.
    { rewrite Hseg, length_take, length_drop. unfold len in *. lia. }
    assert (length (take P sa ++ seg) = E) as Hlpre.
    { rewrite length_app, length_take. unfold len in *. lia. }
    assert (drop E sa1 = drop E sa) as Hd1.
    { rewrite Hsa1, app_assoc, drop_app_length'; done. }
    assert (take E sa1 = take P sa ++ seg) as Ht1.
    { rewrite Hsa1, app_assoc, take_app_length'; done. }
    pose proof (radixSort_loop_Ok _ _ _ _ _ _ _ _ Hloop) as (_ & _ & Htake);
      [lia | unfold len in *; lia | lia |].
    fold E in Htake.
    apply IH in Hloop as [Hsorted' Hperm'];
      [|lia | unfold len in *; lia | lia | done |].
    2:{ fold E. rewrite Hd1.
        replace E with (P + (E - P))%nat by (unfold len in *; lia).
        rewrite <- drop_drop. by apply sorted_by_drop. }
    fold E in Hsorted', Hperm'. rewrite Hd1 in Hperm'.
    assert (drop P sa' = seg ++ drop E sa') as Hdrop.
    { rewrite <- (take_drop E sa') at 1. rewrite Htake, Ht1.
      rewrite <- app_assoc, drop_app_length'; [done|]. rewrite length_take.
      unfold len in *. lia. }
    (* the rank of the bucket *)
    destruct (Heq p ltac:(lia)) as (sp & _ & r & Hsp & Hrsp & _).
    assert (∀ s, s ∈ seg → rk rank s = r) as Hrseg.
    { intros s Hs. rewrite Hseg in Hs.
      apply list_elem_of_lookup_1 in Hs as [i Hi].
      apply lookup_take_Some in Hi as [Hi Hlt'].
      rewrite lookup_drop in Hi.
      destruct (Heq (p + Z.of_nat i) ltac:(lia))
        as (sp' & sj & r' & Hsp' & Hr' & Hsj & Hrj).
      rewrite Hsp in Hsp'. injection Hsp' as <-.
      rewrite Hrsp in Hr'. injection Hr' as <-.
      apply index_Ok in Hsj as [_ Hsj].
      replace (Z.to_nat (p + Z.of_nat i)) with (P + i)%nat in Hsj by lia.
      rewrite Hi in Hsj. injection Hsj as <-. by apply index_rk. }
    assert (∀ t, t ∈ drop E sa → r < rk rank t) as Hrrest.
    { intros t Ht. apply list_elem_of_lookup_1 in Ht as [i Hi].
      rewrite lookup_drop in Hi. apply lookup_lt_Some in Hi as Hlt'.
      destruct Hend as (sp' & se & r1 & r2 & Hsp' & Hr1 & Hse & Hr2 & Hne);
        [unfold len; lia|].
      rewrite Hsp in Hsp'. injection Hsp' as <-.
      rewrite Hrsp in Hr1. injection Hr1 as <-.
      apply index_Ok in Hsp as [_ Hsp]. apply index_Ok in Hse as [_ Hse].
      fold P in Hsp. fold E in Hse.
      apply index_rk in Hrsp, Hr2.
      assert (rk rank sp ≤ rk rank se) as H1.
      { apply (Hsorted 0%nat (E - P)%nat); [lia | |];
          rewrite lookup_drop; [by rewrite Nat.add_0_r|].
        by replace (P + (E - P))%nat with E by lia. }
      assert (rk rank se ≤ rk rank t) as H2.
      { destruct i as [|i]; [rewrite Nat.add_0_r, Hse in Hi; by injection Hi as <-|].
        apply (Hsorted (E - P)%nat (E + S i - P)%nat); [lia | |];
          rewrite lookup_drop.
        - by replace (P + (E - P))%nat with E by lia.
        - by replace (P + (E + S i - P))%nat with (E + S i)%nat by lia. }
      lia. }
    split.
    + rewrite Hdrop. apply sorted_by_app; [|done|].
      * eapply sorted_by_ext; [|done]. intros s t Hs Ht Hst.
        apply pair_key_le; [done|]. right.
        by rewrite (Hrseg s Hs), (Hrseg t Ht).
      * intros s t Hs Ht. apply pair_key_le; [done|]. left.
        rewrite (Hrseg s Hs). apply Hrrest. by rewrite <- Hperm'.
    + rewrite Hdrop, Hperm', Hseg.
      replace (Z.to_nat (e - p)) with (E - P)%nat by lia.
      assert (drop E sa = drop (E - P) (drop P sa)) as ->.
      { rewrite drop_drop. f_equal. unfold len in *. lia. }
      by rewrite take_drop.
Qed.

Lemma radixSort_sorted k rank sa buf sa' buf' :
  radixSort k rank sa buf = Ok (sa', buf') →
  length buf = length sa → len sa ≤ max_int32 →
  ranks_in_range rank → sorted_by (rk rank) sa →
  sorted_by (pair_key rank k) sa'.
Proof.
  unfold radixSort. intros Hsort Hb Hlen Hr Hs.
  apply radixSort_loop_sorted in Hsort as [H _]; done.
Qed.

(** ** Lexicographic order, and the ranks [updateRank] assigns *)

(** The lexicographic comparison of two lists of numbers; a proper prefix
    comes first. *)
Fixpoint lex_cmp (u v : list Z) : comparison :=
  match u, v with
  | [], [] => Eq
  | [], _ :: _ => Lt
  | _ :: _, [] => Gt
  | a :: u', b :: v' =>
      match a ?= b with
      | Eq => lex_cmp u' v'
      | c => c
      end
  end.

Lemma lex_cmp_app u u' v v' :
  length u = length v →
  lex_cmp (u ++ u') (v ++ v') =
  match lex_cmp u v with Eq => lex_cmp u' v' | c => c end.
Proof.
  revert v. induction u as [|a u IH]; intros [|b v] Hl; try done.
  simpl. destruct (a ?= b); [|done..]. apply IH. simpl in Hl. lia.
Qed.

Lemma lex_cmp_Eq u v : lex_cmp u v = Eq → u = v.
Proof.
  revert v. induction u as [|a u IH]; intros [|b v]; try done.
  simpl. destruct (Z.compare_spec a b) as [->| |]; try done.
  intros Huv. f_equal. by apply IH.
Qed.

Lemma lex_cmp_Lt_inv u v :
  length u = length v → lex_cmp u v = Lt →
  ∃ d a b, take d u = take d v ∧ u !! d = Some a ∧ v !! d = Some b ∧ a < b.
Proof.
  revert v. induction u as [|a u IH]; intros [|b v] Hl; try done.
  simpl. destruct (Z.compare_spec a b) as [->|Hlt|Hgt]; [| |done].
  - intros Huv. destruct (IH v) as (d & a' & b' & Ht & Ha & Hb & Hab);
      [simpl in Hl; lia | done |].
    exists (S d), a', b'. simpl. by rewrite Ht.
  - intros _. by exists 0%nat, a, b.
Qed.

Lemma lex_cmp_Lt_intro u v d a b :
  take d u = take d v → u !! d = Some a → v !! d = Some b → a < b →
  lex_cmp u v = Lt.
Proof.
  revert u v. induction d as [|d IH]; intros [|a' u] [|b' v]; try done.
  - simpl. intros _ [= ->] [= ->] Hab. by apply Z.compare_lt_iff in Hab as ->.
  - simpl. intros [= -> Ht] Ha Hb Hab. rewrite Z.compare_refl. by apply IH.
Qed.

(** Along keys in non-decreasing order, the ranks of [updateRank] compare
    as the keys do. *)
Lemma new_ranks_eq_iff keys i j ai aj ki kj :
  (∀ i j a b, (i < j)%nat → keys !! i = Some a → keys !! j = Some b → a ≤ b) →
  (i ≤ j)%nat →
  new_ranks keys !! i = Some ai → new_ranks keys !! j = Some aj →
  keys !! i = Some ki → keys !! j = Some kj →
  (ai = aj ↔ ki = kj) ∧ ki ≤ kj.
Proof.
  intros Hsorted Hij Hai Haj Hki Hkj. revert aj kj Haj Hkj.
  induction Hij as [|j Hij IH]; intros aj kj Haj Hkj.
  - rewrite Hai in Haj. rewrite Hki in Hkj.
    injection Haj as <-. injection Hkj as <-. split; [done | lia].
  - assert (is_Some (keys !! j)) as [kj' Hkj'].
    { apply lookup_lt_is_Some. apply lookup_lt_Some in Hkj. lia. }
    assert (is_Some (new_ranks keys !! j)) as [aj' Haj'].
    { apply lookup_lt_is_Some. rewrite new_ranks_length.
      apply lookup_lt_Some in Hkj'. lia. }
    rewrite (new_ranks_step keys j kj' kj aj' Hkj' Hkj Haj') in Haj.
    injection Haj as <-.
    destruct (IH aj' kj' Haj' Hkj') as [Hiff Hle].
    pose proof (new_ranks_mono keys i j ai aj' Hij Hai Haj') as Hmono.
    pose proof (Hsorted j (S j) kj' kj ltac:(lia) Hkj' Hkj) as Hstep.
    destruct (Z.eqb_spec kj' kj) as [->|Hne]; [done|].
    split; [|lia]. split; [lia|]. intros ->. lia.
Qed.

Lemma new_ranks_compare keys i j ai aj ki kj :
  (∀ i j a b, (i < j)%nat → keys !! i = Some a → keys !! j = Some b → a ≤ b) →
  new_ranks keys !! i = Some ai → new_ranks keys !! j = Some aj →
  keys !! i = Some ki → keys !! j = Some kj →
  (ai ?= aj) = (ki ?= kj).
Proof.
  intros Hsorted Hai Haj Hki Hkj.
  destruct (Nat.le_gt_cases i j) as [Hij|Hji].
  - destruct (new_ranks_eq_iff keys i j ai aj ki kj) as [Hiff Hle]; try done.
    pose proof (new_ranks_mono keys i j ai aj Hij Hai Haj).
    destruct (Z.compare_spec ai aj), (Z.compare_spec ki kj); try done; lia.
  - destruct (new_ranks_eq_iff keys j i aj ai kj ki) as [Hiff Hle];
      try done; [lia|].
    pose proof (new_ranks_mono keys j i aj ai ltac:(lia) Haj Hai).
    destruct (Z.compare_spec ai aj), (Z.compare_spec ki kj); try done; lia.
Qed.

(** Every number up to a rank is a rank. *)
Lemma new_ranks_onto keys j aj v :
  new_ranks keys !! j = Some aj → 0 ≤ v ≤ aj →
  ∃ i, (i ≤ j)%nat ∧ new_ranks keys !! i = Some v.
Proof.
  revert aj. induction j as [|j IH]; intros aj Haj Hv.
  - pose proof (new_ranks_bounds _ _ _ Haj). exists 0%nat.
    split; [done|]. rewrite Haj. f_equal. lia.
  - assert (is_Some (keys !! S j)) as [key' Hk'].
    { apply lookup_lt_is_Some. rewrite <- new_ranks_length.
      by apply lookup_lt_Some in Haj. }
    assert (is_Some (keys !! j)) as [key Hk].
    { apply lookup_lt_is_Some. apply lookup_lt_Some in Hk'. lia. }
    assert (is_Some (new_ranks keys !! j)) as [a Ha].
    { apply lookup_lt_is_Some. rewrite new_ranks_length.
      apply lookup_lt_Some in Hk. lia. }
    pose proof Haj as Haj'.
    rewrite (new_ranks_step keys j key key' a Hk Hk' Ha) in Haj'.
    injection Haj' as <-.
    destruct (decide (v ≤ a)) as [Hle|Hgt].
    + destruct (IH a Ha ltac:(lia)) as (i & Hi & Hv'). exists i. split; [lia | done].
    + exists (S j). split; [done|]. rewrite Haj. f_equal.
      destruct (key =? key'); lia.
Qed.

(** Counting arguments on the ranks. *)
Lemma NoDup_bounded_length (l : list Z) (m : Z) :
  0 ≤ m → NoDup l → (∀ r, r ∈ l → 0 ≤ r < m) → Z.of_nat (length l) ≤ m.
Proof.
  intros Hm Hnd Hl.
  assert (l ⊆+ seqZ 0 m) as Hsub.
  { apply NoDup_submseteq; [done|]. intros r Hr. apply elem_of_seqZ.
    specialize (Hl r Hr). lia. }
  apply submseteq_length in Hsub. rewrite length_seqZ in Hsub. lia.
Qed.

Lemma onto_NoDup (l : list Z) (m : Z) :
  Z.of_nat (length l) ≤ m → (∀ v, 0 ≤ v < m → v ∈ l) → NoDup l.
Proof.
  intros Hm Hl.
  assert (seqZ 0 m ⊆+ l) as Hsub.
  { apply NoDup_submseteq; [apply NoDup_seqZ|]. intros r Hr.
    apply elem_of_seqZ in Hr. apply Hl. lia. }
  apply submseteq_length_Permutation in Hsub; [|rewrite length_seqZ; lia].
  rewrite <- Hsub. apply NoDup_seqZ.
Qed.

(** ** What the ranks of [PrefixDoubling] mean *)

(** The rank at a position, zero past the end, as [getRank] reads it. *)
Definition getr (rank : list Z) (m : nat) : Z := default 0 (rank !! m).

(** The first [k] ranks of [r0] from position [i] on, padded with zeros. *)
Definition pre (r0 : list Z) (k i : nat) : list Z := getr r0 <$> seq i k.

(** The ranks of [calcRank0] on [x]: order-preserving positive codes of the
    letters, and zero for the sentinel. *)
Definition coded (x : list byte) (r0 : list Z) : Prop :=
  length r0 = S (length x) ∧ r0 !! length x = Some 0 ∧
  ∃ alpha,
    (∀ i c, x !! i = Some c → r0 !! i = Some (code alpha c)) ∧
    (∀ c, c ∈ x → 1 ≤ code alpha c) ∧
    (∀ c d, c ∈ x → d ∈ x →
       (code alpha c < code alpha d ↔ int_of_byte c < int_of_byte d)).

(** What holds of the state of the loop of [PrefixDoubling] when the
    first ranks were [r0]: with [k] the offset of the next round, the suffix
    array is sorted by rank, the ranks compare as the first [k] letters of
    the suffixes do, and they are the numbers below [sigma]. *)
Definition pd_sem (r0 : list Z) (st : pd_state) : Prop :=
  ∃ K : nat,
    pd_k st = Z.of_nat K ∧ (1 ≤ K)%nat ∧
    sorted_by (rk (pd_rank st)) (pd_sa st) ∧
    (∀ i j, (getr (pd_rank st) i ?= getr (pd_rank st) j) =
            lex_cmp (pre r0 K i) (pre r0 K j)) ∧
    (∀ r, r ∈ pd_rank st → 0 ≤ r < pd_sigma st) ∧
    (∀ v, 0 ≤ v < pd_sigma st → v ∈ pd_rank st).

Lemma getr_lookup rank m r : rank !! m = Some r → getr rank m = r.
Proof. intros H. unfold getr. by rewrite H. Qed.

Lemma getr_beyond rank m : (length rank ≤ m)%nat → getr rank m = 0.
Proof. intros H. unfold getr. by rewrite lookup_ge_None_2. Qed.

Lemma rk_getr rank s : 0 ≤ s → rk rank s = getr rank (Z.to_nat s).
Proof.
  intros Hs. unfold rk, getr, index.
  destruct (Z.ltb_spec s 0); [lia|]. by destruct (rank !! Z.to_nat s).
Qed.

Lemma sort_key_getr rank k s :
  0 ≤ s → 0 ≤ k → s + k < 2 ^ 31 →
  sort_key rank k s = getr rank (Z.to_nat s + Z.to_nat k).
Proof.
  intros Hs Hk Hsk. unfold sort_key, getRank, add32.
  rewrite wrap32_small by lia.
  replace (Z.to_nat s + Z.to_nat k)%nat with (Z.to_nat (s + k)) by lia.
  destruct (Z.ltb_spec (s + k) (len rank)) as [Hlt|Hge].
  - destruct (index_in_range rank (s + k)) as (r & -> & Hr); [lia|].
    by rewrite (getr_lookup _ _ _ Hr).
  - rewrite getr_beyond; [done|]. unfold len in Hge. lia.
Qed.

Lemma pair_key_compare rank k s t :
  ranks_in_range rank →
  (pair_key rank k s ?= pair_key rank k t) =
  match rk rank s ?= rk rank t with
  | Eq => sort_key rank k s ?= sort_key rank k t
  | c => c
  end.
Proof.
  intros Hr. rewrite !pair_key_value by done.
  pose proof (sort_key_in_range rank k s Hr).
  pose proof (sort_key_in_range rank k t Hr).
  unfold max_int32 in *.
  destruct (Z.compare_spec (rk rank s) (rk rank t)) as [->| |].
  - destruct (Z.compare_spec (sort_key rank k s) (sort_key rank k t));
      [apply Z.compare_eq_iff | apply Z.compare_lt_iff | apply Z.compare_gt_iff];
      lia.
  - apply Z.compare_lt_iff. lia.
  - apply Z.compare_gt_iff. lia.
Qed.

Lemma pre_length r0 k i : length (pre r0 k i) = k.
Proof. unfold pre. by rewrite length_fmap, length_seq. Qed.

Lemma pre_lookup r0 k i d :
  (d < k)%nat → pre r0 k i !! d = Some (getr r0 (i + d)).
Proof.
  intros Hd. unfold pre. by rewrite list_lookup_fmap, lookup_seq_lt.
Qed.

Lemma pre_app r0 k k' i :
  pre r0 (k + k') i = pre r0 k i ++ pre r0 k' (i + k).
Proof. unfold pre. by rewrite seq_app, fmap_app. Qed.

Lemma coded_letter x r0 i :
  coded x r0 → (i < length x)%nat → 1 ≤ getr r0 i.
Proof.
  intros (_ & _ & alpha & Hcode & Hpos & _) Hi.
  destruct (lookup_lt_is_Some_2 x i Hi) as [c Hc].
  rewrite (getr_lookup _ _ _ (Hcode _ _ Hc)).
  apply Hpos. by eapply list_elem_of_lookup_2.
Qed.

Lemma coded_end x r0 i : coded x r0 → (length x ≤ i)%nat → getr r0 i = 0.
Proof.
  intros (Hl & Hn & _) Hi. destruct (decide (i = length x)) as [->|Hne].
  - by apply getr_lookup.
  - apply getr_beyond. lia.
Qed.

Lemma coded_nonneg x r0 i : coded x r0 → 0 ≤ getr r0 i.
Proof.
  intros Hc. destruct (Nat.lt_ge_cases i (length x)) as [Hlt|Hge].
  - pose proof (coded_letter x r0 i Hc Hlt). lia.
  - rewrite (coded_end x r0 i Hc Hge). lia.
Qed.

Lemma pre_beyond x r0 k i :
  coded x r0 → (length x ≤ i)%nat → pre r0 k i = pre r0 k (length x).
Proof.
  intros Hc Hi. apply list_eq. intros d.
  destruct (Nat.lt_ge_cases d k) as [Hlt|Hge].
  - rewrite !pre_lookup by done.
    by rewrite !(coded_end x r0) by (done || lia).
  - by rewrite !lookup_ge_None_2 by (rewrite pre_length; lia).
Qed.

(** With [k] beyond the length, no two suffixes start alike. *)
Lemma pre_distinct x r0 k i j :
  coded x r0 → (length x < k)%nat → (i < j ≤ length x)%nat →
  pre r0 k i ≠ pre r0 k j.
Proof.
  intros Hc Hk Hij Heq.
  assert (pre r0 k i !! (length x - j)%nat = pre r0 k j !! (length x - j)%nat)
    as Hd by by rewrite Heq.
  rewrite !pre_lookup in Hd by lia. injection Hd as Hd.
  pose proof (coded_letter x r0 (i + (length x - j)) Hc ltac:(lia)).
  rewrite (coded_end x r0 (j + (length x - j))) in Hd by (done || lia). lia.
Qed.

Lemma pd_inv_getr_end n st i :
  pd_inv n st → (n ≤ i)%nat → getr (pd_rank st) i = 0.
Proof.
  intros (_ & Hl & _ & _ & Hn & _) Hi.
  destruct (decide (i = n)) as [->|Hne].
  - by apply getr_lookup.
  - apply getr_beyond. lia.
Qed.

(** While [sigma] is less than the length, so is the offset. *)
Lemma pd_sem_offset x r0 st K :
  coded x r0 → pd_inv (length x) st →
  (∀ i j, (getr (pd_rank st) i ?= getr (pd_rank st) j) =
          lex_cmp (pre r0 K i) (pre r0 K j)) →
  (∀ r, r ∈ pd_rank st → 0 ≤ r < pd_sigma st) →
  pd_sigma st < Z.of_nat (S (length x)) →
  (K < S (length x))%nat.
Proof.
  intros Hc Hinv Hcmp Hrange Hsig.
  destruct (Nat.lt_ge_cases K (S (length x))) as [|Hge]; [done|].
  exfalso.
  pose proof Hinv as (_ & Hl & _ & _ & Hn & _).
  assert (NoDup (pd_rank st)) as Hnd.
  { apply NoDup_alt. intros i j r Hi Hj.
    apply lookup_lt_Some in Hi as Hli. apply lookup_lt_Some in Hj as Hlj.
    assert (lex_cmp (pre r0 K i) (pre r0 K j) = Eq) as Heq.
    { rewrite <- Hcmp, (getr_lookup _ _ _ Hi), (getr_lookup _ _ _ Hj).
      apply Z.compare_refl. }
    apply lex_cmp_Eq in Heq.
    destruct (Nat.lt_trichotomy i j) as [Hlt|[?|Hgt]]; [|done|].
    - destruct (pre_distinct x r0 K i j Hc); [lia | lia | done].
    - destruct (pre_distinct x r0 K j i Hc); [lia | lia | done]. }
  assert (0 ≤ pd_sigma st) as Hs0.
  { destruct (Hrange 0); [|lia]. by eapply list_elem_of_lookup_2. }
  pose proof (NoDup_bounded_length _ _ Hs0 Hnd Hrange). lia.
Qed.

(** A round of the loop keeps the meaning of the ranks, for twice the
    offset. *)
Lemma doubling_round_sem x r0 st st' :
  doubling_round st = Ok st' → Z.of_nat (S (length x)) ≤ 2 ^ 30 →
  coded x r0 → pd_inv (length x) st → pd_sem r0 st →
  pd_sigma st < Z.of_nat (S (length x)) →
  pd_sem r0 st'.
Proof.
  intros Hround Hlen Hc Hinv (K & Hk & HK & Hsorted & Hcmp & Hrange & _) Hsig.
  set (n := length x) in *.
  assert (Z.of_nat (S n) ≤ max_int32) as Hlen' by (unfold max_int32; lia).
  pose proof (doubling_round_inv n st st' Hround Hlen' Hinv) as Hinv'.
  pose proof (pd_sem_offset x r0 st K Hc Hinv Hcmp Hrange Hsig) as HKn.
  fold n in HKn.
  pose proof (pd_inv_ranks _ _ Hinv) as Hranks.
  pose proof Hinv as (Hp & Hlr & Hlb & _).
  unfold doubling_round in Hround.
  apply bind_Ok in Hround as ([sa1 buf1] & Hsort & Hround).
  apply bind_Ok in Hround as ([buf2 sigma] & Hup & [= <-]).
  cbn [pd_sa pd_rank pd_buf pd_sigma pd_k] in Hinv'.
  assert (length (pd_sa st) = S n) as Hls by by rewrite Hp, positions_length.
  pose proof (radixSort_Ok _ _ _ _ _ _ Hsort) as [Hp1 _];
    [lia | unfold len; lia |].
  apply radixSort_sorted in Hsort as Hsorted1;
    [|lia | unfold len; lia | done | done].
  assert (sa1 ≡ₚ positions (S n)) as Hp1' by by rewrite Hp1.
  assert (length sa1 = S n) as Hls1 by by rewrite Hp1', positions_length.
  assert (NoDup sa1) as Hnd1 by (rewrite Hp1'; apply positions_NoDup).
  apply updateRank_Ok in Hup as (Hl2 & Hout & a_last & Hlast & ->);
    [|done | unfold len; lia].
  set (rank := pd_rank st) in *. set (k := pd_k st) in *.
  set (keys := pair_key rank k <$> sa1) in *.
  assert (length keys = S n) as Hlk by (unfold keys; by rewrite length_fmap).
  rewrite last_lookup, new_ranks_length, Hlk in Hlast. simpl in Hlast.
  (* the keys are in order *)
  assert (∀ i j a b, (i < j)%nat → keys !! i = Some a → keys !! j = Some b →
                     a ≤ b) as Hkeys.
  { intros i j a b Hij Hi Hj. unfold keys in Hi, Hj.
    rewrite list_lookup_fmap in Hi, Hj.
    destruct (sa1 !! i) as [s|] eqn:Hsi; [|done].
    destruct (sa1 !! j) as [t|] eqn:Hsj; [|done].
    injection Hi as <-. injection Hj as <-.
    by apply (Hsorted1 i j). }
  (* the new rank of every position *)
  assert (∀ i, (i ≤ n)%nat →
    ∃ j a, sa1 !! j = Some (Z.of_nat i) ∧ new_ranks keys !! j = Some a ∧
           buf2 !! i = Some a ∧
           keys !! j = Some (pair_key rank k (Z.of_nat i))) as Hnew.
  { intros i Hi.
    assert (Z.of_nat i ∈ sa1) as Hin
      by (rewrite Hp1'; apply positions_elem_of; lia).
    apply list_elem_of_lookup_1 in Hin as [j Hj].
    destruct (Hout _ _ Hj) as [_ Hlook]. rewrite Nat2Z.id in Hlook.
    assert (is_Some (new_ranks keys !! j)) as [a Ha].
    { apply lookup_lt_is_Some. rewrite new_ranks_length, Hlk.
      apply lookup_lt_Some in Hj. lia. }
    exists j, a. split; [done|]. split; [done|]. split; [congruence|].
    unfold keys. by rewrite list_lookup_fmap, Hj. }
  (* the old keys of every position *)
  assert (∀ i, (i ≤ n)%nat →
    rk rank (Z.of_nat i) = getr rank i ∧
    sort_key rank k (Z.of_nat i) = getr rank (i + K)) as Hold.
  { intros i Hi. split.
    - rewrite rk_getr by lia. by rewrite Nat2Z.id.
    - rewrite sort_key_getr by lia. by rewrite Hk, !Nat2Z.id. }
  assert (∀ i j, (i ≤ n)%nat → (j ≤ n)%nat →
    (getr buf2 i ?= getr buf2 j) =
    lex_cmp (pre r0 (K + K) i) (pre r0 (K + K) j)) as Hcmp'.
  { intros i j Hi Hj.
    destruct (Hnew i Hi) as (pi & ai & _ & Hai & Hbi & Hki).
    destruct (Hnew j Hj) as (pj & aj & _ & Haj & Hbj & Hkj).
    rewrite (getr_lookup _ _ _ Hbi), (getr_lookup _ _ _ Hbj).
    rewrite (new_ranks_compare keys pi pj ai aj _ _ Hkeys Hai Haj Hki Hkj).
    rewrite pair_key_compare by done.
    destruct (Hold i Hi) as [-> ->]. destruct (Hold j Hj) as [-> ->].
    rewrite !pre_app, lex_cmp_app by by rewrite !pre_length.
    by rewrite !Hcmp. }
  exists (K + K)%nat. cbn [pd_sa pd_rank pd_buf pd_sigma pd_k].
  split; [rewrite Hk, wrap32_small; lia|]. split; [lia|].
  split; [|split; [|split]].
  - intros a b s t Hab Hs Ht.
    assert (0 ≤ s ≤ Z.of_nat n ∧ 0 ≤ t ≤ Z.of_nat n) as [Hsr Htr].
    { split; [apply list_elem_of_lookup_2 in Hs | apply list_elem_of_lookup_2 in Ht];
        rewrite Hp1' in *; [apply positions_elem_of in Hs | apply positions_elem_of in Ht];
        lia. }
    destruct (Hout _ _ Hs) as [_ Hls']. destruct (Hout _ _ Ht) as [_ Hlt'].
    assert (is_Some (new_ranks keys !! a)) as [va Hva].
    { apply lookup_lt_is_Some. rewrite new_ranks_length, Hlk.
      apply lookup_lt_Some in Hs. lia. }
    assert (is_Some (new_ranks keys !! b)) as [vb Hvb].
    { apply lookup_lt_is_Some. rewrite new_ranks_length, Hlk.
      apply lookup_lt_Some in Ht. lia. }
    rewrite !rk_getr by lia.
    rewrite Hva in Hls'. rewrite Hvb in Hlt'.
    rewrite (getr_lookup _ _ _ Hls'), (getr_lookup _ _ _ Hlt').
    apply (new_ranks_mono keys a b); [lia | done..].
  - intros i j.
    assert (∀ m, getr buf2 m = getr buf2 (m `min` n)%nat ∧
                 pre r0 (K + K) m = pre r0 (K + K) (m `min` n)%nat) as Hclamp.
    { intros m. destruct (Nat.le_gt_cases m n) as [Hle|Hgt].
      - by rewrite Nat.min_l.
      - rewrite Nat.min_r by lia. split.
        + assert (∀ m', (n ≤ m')%nat → getr buf2 m' = 0) as Hend
            by (intros m' Hm'; exact (pd_inv_getr_end n _ m' Hinv' Hm')).
          rewrite !Hend by lia. done.
        + apply (pre_beyond x r0); [done | fold n; lia]. }
    destruct (Hclamp i) as [-> ->]. destruct (Hclamp j) as [-> ->].
    apply Hcmp'; lia.
  - intros r Hr. apply list_elem_of_lookup_1 in Hr as [i Hi].
    apply lookup_lt_Some in Hi as Hli.
    destruct Hinv' as (_ & Hl2' & _). cbn [pd_rank] in Hl2'.
    destruct (Hnew i ltac:(lia)) as (pi & ai & Hpi & Hai & Hbi & _).
    rewrite Hi in Hbi. injection Hbi as <-.
    pose proof (new_ranks_bounds _ _ _ Hai).
    apply lookup_lt_Some in Hpi.
    pose proof (new_ranks_mono keys pi n r a_last ltac:(lia) Hai Hlast). lia.
  - intros v Hv.
    destruct (new_ranks_onto keys n a_last v Hlast ltac:(lia))
      as (j & Hj & Hvj).
    destruct (lookup_lt_is_Some_2 sa1 j ltac:(lia)) as [s Hs].
    destruct (Hout _ _ Hs) as [_ Hlook]. rewrite Hvj in Hlook.
    by eapply list_elem_of_lookup_2.
Qed.

Lemma doubling_init_sem (x : list byte) st :
  doubling_init x = Ok st → len x + 1 ≤ max_int32 →
  coded x (pd_rank st) ∧ pd_sem (pd_rank st) st.
Proof.
  unfold doubling_init. intros Hinit Hlen.
  replace (len x + 1) with (Z.of_nat (S (length x))) in *
    by (unfold len; lia).
  rewrite sa0_positions, Ok_bind in Hinit by done.
  unfold make in Hinit.
  destruct (Z.ltb_spec (len (positions (S (length x)))) 0) as [Hneg|_];
    [unfold len in Hneg; lia|].
  rewrite Ok_bind in Hinit.
  destruct (calcRank0_Ok x)
    as (alpha & rank & sigma & Hcalc & Hlr & Hrn & Hrank & Hsig & Hcode &
        Hord & Hsur).
  rewrite Hcalc, Ok_bind in Hinit.
  apply bind_Ok in Hinit as ([sa buf] & Hsort & [= <-]).
  apply radixSortBuckets_Ok in Hsort as (Hkeys & -> & ->).
  2:{ unfold len. by rewrite length_replicate, Nat2Z.id. }
  2:{ unfold len. rewrite positions_length. lia. }
  pose proof (byte_key_bucket_sort_Permutation _ _ _ Hkeys) as Hperm.
  cbn [pd_sa pd_rank pd_buf pd_sigma pd_k].
  split.
  { split; [done|]. split; [done|]. exists alpha.
    split; [done|]. split; [|done]. intros c Hc. specialize (Hcode c Hc). lia. }
  exists 1%nat. cbn [pd_sa pd_rank pd_buf pd_sigma pd_k].
  split; [done|]. split; [done|]. split; [|split; [|split]].
  - eapply sorted_by_ext; [|apply bucket_sort_sorted_by].
    + intros s t Hs Ht. rewrite Hperm in Hs, Ht.
      apply positions_elem_of in Hs, Ht.
      rewrite !sort_key_getr, !rk_getr by (unfold max_int32 in Hlen; lia).
      change (Z.to_nat 0) with 0%nat. by rewrite !Nat.add_0_r.
    + eapply Forall_impl; [done|]. intros s [_ ?]. simpl. lia.
  - intros i j. unfold pre. simpl.
    by destruct (getr rank i ?= getr rank j).
  - intros r Hr. apply list_elem_of_lookup_1 in Hr as [i Hi].
    apply lookup_lt_Some in Hi as Hli.
    destruct (decide (i = length x)) as [->|Hne].
    + rewrite Hrn in Hi. injection Hi as <-. lia.
    + destruct (lookup_lt_is_Some_2 x i) as [c Hc]; [lia|].
      rewrite (Hrank _ _ Hc) in Hi. injection Hi as <-.
      pose proof (Hcode c (list_elem_of_lookup_2 _ _ _ Hc)). lia.
  - intros v Hv. destruct (decide (v = 0)) as [->|Hne].
    + by eapply list_elem_of_lookup_2.
    + destruct (Hsur v ltac:(lia)) as (c & Hc & <-).
      apply list_elem_of_lookup_1 in Hc as [i Hi].
      eapply list_elem_of_lookup_2. by apply Hrank.
Qed.

Lemma doubling_loop_sem fuel x r0 st st' :
  doubling_loop fuel (Z.of_nat (S (length x))) st = Ok st' →
  Z.of_nat (S (length x)) ≤ 2 ^ 30 →
  coded x r0 → pd_inv (length x) st → pd_sem r0 st →
  pd_inv (length x) st' ∧ pd_sem r0 st' ∧
  Z.of_nat (S (length x)) ≤ pd_sigma st'.
Proof.
  revert st. induction fuel as [|fuel IH]; intros st Hloop Hlen Hc Hinv Hsem.
  - simpl in Hloop.
    destruct (Z.ltb_spec (pd_sigma st) (Z.of_nat (S (length x)))); [done|].
    by injection Hloop as <-.
  - rewrite doubling_loop_unfold in Hloop.
    destruct (Z.ltb_spec (pd_sigma st) (Z.of_nat (S (length x)))) as [Hlt|Hge];
      [|by injection Hloop as <-].
    apply bind_Ok in Hloop as (st1 & Hround & Hloop).
    apply (IH st1); [done | done | done | |].
    + eapply doubling_round_inv; [done | unfold max_int32; lia | done].
    + by eapply doubling_round_sem.
Qed.

(** ** The suffix array is sorted *)

(** The suffix of [x] from position [i], with the sentinel at its end. *)
Definition padded_suffix (x : list byte) (i : Z) : list Z :=
  (int_of_byte <$> drop (Z.to_nat i) x) ++ [0].

Lemma padded_suffix_letter x i d c :
  x !! (i + d)%nat = Some c →
  padded_suffix x (Z.of_nat i) !! d = Some (int_of_byte c).
Proof.
  intros Hc. unfold padded_suffix. rewrite Nat2Z.id.
  apply lookup_lt_Some in Hc as Hlt.
  rewrite lookup_app_l by (rewrite length_fmap, length_drop; lia).
  by rewrite list_lookup_fmap, lookup_drop, Hc.
Qed.

Lemma padded_suffix_end x i d :
  (i + d)%nat = length x → padded_suffix x (Z.of_nat i) !! d = Some 0.
Proof.
  intros Hd. unfold padded_suffix. rewrite Nat2Z.id.
  rewrite lookup_app_r by (rewrite length_fmap, length_drop; lia).
  rewrite length_fmap, length_drop.
  by replace (d - (length x - i))%nat with 0%nat by lia.
Qed.

Lemma coded_getr x r0 i c :
  coded x r0 → x !! i = Some c →
  ∃ alpha, getr r0 i = code alpha c ∧
    (∀ j d, x !! j = Some d → getr r0 j = code alpha d) ∧
    (∀ c d, c ∈ x → d ∈ x →
       (code alpha c < code alpha d ↔ int_of_byte c < int_of_byte d)).
Proof.
  intros (_ & _ & alpha & Hcode & _ & Hord) Hc. exists alpha.
  split; [by apply getr_lookup, Hcode|]. split; [|done].
  intros j d Hd. by apply getr_lookup, Hcode.
Qed.

(** Suffixes whose first [k] ranks are in order are in order. *)
Lemma pre_padded_suffix x r0 k i j :
  coded x r0 → Forall (λ c, c ≠ x00) x →
  (i ≤ length x)%nat → (j ≤ length x)%nat →
  lex_cmp (pre r0 k i) (pre r0 k j) = Lt →
  lex_cmp (padded_suffix x (Z.of_nat i)) (padded_suffix x (Z.of_nat j)) = Lt.
Proof.
  intros Hc Hnz Hi Hj Hlt.
  apply lex_cmp_Lt_inv in Hlt as (d & a & b & Htake & Ha & Hb & Hab);
    [|by rewrite !pre_length].
  apply lookup_lt_Some in Ha as Hd. rewrite pre_length in Hd.
  rewrite pre_lookup in Ha, Hb by done.
  injection Ha as <-. injection Hb as <-.
  assert (∀ d', (d' < d)%nat → getr r0 (i + d') = getr r0 (j + d')) as Heq.
  { intros d' Hd'.
    assert (take d (pre r0 k i) !! d' = take d (pre r0 k j) !! d') as H
      by by rewrite Htake.
    rewrite !lookup_take_lt, !pre_lookup in H by lia. by injection H. }
  pose proof (coded_nonneg x r0 (i + d) Hc) as Ha0.
  assert (j + d < length x)%nat as Hjd.
  { destruct (Nat.lt_ge_cases (j + d) (length x)) as [|Hge]; [done|].
    rewrite (coded_end x r0 (j + d) Hc Hge) in Hab. lia. }
  assert (∀ d', (d' < d)%nat → (i + d' < length x)%nat) as Hid.
  { intros d' Hd'.
    destruct (Nat.lt_ge_cases (i + d') (length x)) as [|Hge]; [done|].
    pose proof (coded_letter x r0 (j + d') Hc ltac:(lia)) as H1.
    rewrite <- (Heq d' Hd'), (coded_end x r0 (i + d') Hc Hge) in H1. lia. }
  assert (i + d ≤ length x)%nat as Hid'.
  { destruct d as [|d]; [lia|]. specialize (Hid d ltac:(lia)). lia. }
  destruct (lookup_lt_is_Some_2 x (j + d) Hjd) as [cj Hcj].
  destruct (coded_getr x r0 (j + d) cj Hc Hcj) as (alpha & Hgj & Hcode & Hord).
  assert (∃ ai, padded_suffix x (Z.of_nat i) !! d = Some ai ∧
                ai < int_of_byte cj) as (ai & Hai & Hlt).
  { destruct (decide (i + d = length x)%nat) as [Hend|Hne].
    - exists 0. split; [by apply padded_suffix_end|].
      pose proof (int_of_byte_range cj).
      assert (int_of_byte cj ≠ 0); [|lia]. rewrite int_of_byte_zero.
      apply (Forall_lookup_1 _ _ _ _ Hnz Hcj).
    - destruct (lookup_lt_is_Some_2 x (i + d) ltac:(lia)) as [ci Hci].
      exists (int_of_byte ci). split; [by apply padded_suffix_letter|].
      apply Hord; [by eapply list_elem_of_lookup_2.. |].
      by rewrite <- (Hcode _ _ Hci), <- (Hcode _ _ Hcj). }
  apply (lex_cmp_Lt_intro _ _ d ai (int_of_byte cj));
    [|done | by apply padded_suffix_letter | done].
  apply list_eq. intros d'.
  destruct (Nat.lt_ge_cases d' d) as [Hd'|Hd']; [|by rewrite !lookup_take_ge].
  rewrite !lookup_take_lt by done.
  destruct (lookup_lt_is_Some_2 x (i + d') (Hid d' Hd')) as [ci Hci].
  destruct (lookup_lt_is_Some_2 x (j + d') ltac:(lia)) as [cj' Hcj'].
  rewrite (padded_suffix_letter _ _ _ _ Hci), (padded_suffix_letter _ _ _ _ Hcj').
  enough (int_of_byte ci = int_of_byte cj') as -> by done.
  pose proof (Heq d' Hd') as Hcd.
  rewrite (Hcode _ _ Hci), (Hcode _ _ Hcj') in Hcd.
  pose proof (Hord ci cj' (list_elem_of_lookup_2 _ _ _ Hci)
                (list_elem_of_lookup_2 _ _ _ Hcj')).
  pose proof (Hord cj' ci (list_elem_of_lookup_2 _ _ _ Hcj')
                (list_elem_of_lookup_2 _ _ _ Hci)).
  lia.
Qed.

(** Whenever [PrefixDoubling] returns, on a string without zero byte of
    less than [2^30] letters, the suffixes stand in the suffix array in
    strictly increasing lexicographic order. *)
Lemma PrefixDoubling_sorted (x : list byte) (sa : list Z) :
  PrefixDoubling x = Ok sa → Forall (λ c, c ≠ x00) x → len x + 1 ≤ 2 ^ 30 →
  ∀ a b i j, (a < b)%nat → sa !! a = Some i → sa !! b = Some j →
    lex_cmp (padded_suffix x i) (padded_suffix x j) = Lt.
Proof.
  unfold PrefixDoubling, PrefixDoubling_loop. intros Hpd Hnz Hlen.
  apply bind_Ok in Hpd as (st & Hst & [= <-]).
  apply bind_Ok in Hst as (st0 & Hinit & Hloop).
  assert (len x + 1 ≤ max_int32) as Hlen' by (unfold max_int32; lia).
  pose proof (doubling_init_inv x st0 Hinit Hlen') as Hinv0.
  destruct (doubling_init_sem x st0 Hinit Hlen') as [Hc Hsem0].
  replace (len x + 1) with (Z.of_nat (S (length x))) in *
    by (unfold len; lia).
  destruct (doubling_loop_sem _ x _ st0 st Hloop Hlen Hc Hinv0 Hsem0)
    as (Hinv & (K & _ & _ & Hsorted & Hcmp & _ & Honto) & Hsig).
  pose proof Hinv as (Hp & Hlr & _).
  assert (NoDup (pd_rank st)) as Hndr.
  { apply (onto_NoDup _ (pd_sigma st)); [lia | done]. }
  assert (NoDup (pd_sa st)) as Hnd by (rewrite Hp; apply positions_NoDup).
  intros a b i j Hab Hi Hj.
  assert (0 ≤ i < Z.of_nat (S (length x))) as Hir.
  { apply positions_elem_of. rewrite <- Hp. by eapply list_elem_of_lookup_2. }
  assert (0 ≤ j < Z.of_nat (S (length x))) as Hjr.
  { apply positions_elem_of. rewrite <- Hp. by eapply list_elem_of_lookup_2. }
  pose proof (Hsorted a b i j Hab Hi Hj) as Hle.
  rewrite !rk_getr in Hle by lia.
  destruct (lookup_lt_is_Some_2 (pd_rank st) (Z.to_nat i) ltac:(lia)) as [ri Hri].
  destruct (lookup_lt_is_Some_2 (pd_rank st) (Z.to_nat j) ltac:(lia)) as [rj Hrj].
  assert (ri ≠ rj) as Hne.
  { intros <-. pose proof (NoDup_lookup _ _ _ _ Hndr Hri Hrj) as Hij.
    assert (i = j) as <- by lia.
    pose proof (NoDup_lookup _ _ _ _ Hnd Hi Hj). lia. }
  specialize (Hcmp (Z.to_nat i) (Z.to_nat j)).
  rewrite (getr_lookup _ _ _ Hri), (getr_lookup _ _ _ Hrj) in Hcmp, Hle.
  assert ((ri ?= rj) = Lt) as Hlt by (apply Z.compare_lt_iff; lia).
  rewrite Hlt in Hcmp.
  rewrite <- (Z2Nat.id i), <- (Z2Nat.id j) by lia.
  apply (pre_padded_suffix x (pd_rank st0) K); [done | done | lia | lia | done].
Qed.

(** ** The inversion follows the suffix array backwards *)

Lemma lex_cmp_refl u : lex_cmp u u = Eq.
Proof. induction u as [|a u IH]; [done|]. simpl. by rewrite Z.compare_refl. Qed.

Lemma lex_cmp_Lt_Gt u v : lex_cmp u v = Lt → lex_cmp v u = Gt.
Proof.
  revert v. induction u as [|a u IH]; intros [|b v]; try done.
  simpl. rewrite (Z.compare_antisym a b).
  destruct (a ?= b); simpl; [apply IH | done..].
Qed.

(** Counting with [filter]. *)
Lemma filter_ext_in {A} (P Q : A → Prop)
    `{∀ s, Decision (P s)} `{∀ s, Decision (Q s)} (l : list A) :
  (∀ s, s ∈ l → (P s ↔ Q s)) → filter P l = filter Q l.
Proof.
  induction l as [|s l IH]; intros HPQ; [done|].
  rewrite !filter_cons.
  rewrite IH by (intros t Ht; apply HPQ; by right).
  destruct (HPQ s ltac:(by left)).
  destruct (decide (P s)), (decide (Q s)); tauto || done.
Qed.

Lemma filter_fmap_length {A B} (f : A → B) (Q : B → Prop)
    `{∀ b, Decision (Q b)} (l : list A) :
  length (filter Q (f <$> l)) = length (filter (λ a, Q (f a)) l).
Proof.
  induction l as [|a l IH]; [done|].
  rewrite fmap_cons, !filter_cons. destruct (decide (Q (f a))); simpl; lia.
Qed.

Lemma filter_or_length {A} (P P1 P2 : A → Prop)
    `{∀ s, Decision (P s)} `{∀ s, Decision (P1 s)} `{∀ s, Decision (P2 s)}
    (l : list A) :
  (∀ s, s ∈ l → (P s ↔ P1 s ∨ P2 s)) →
  (∀ s, s ∈ l → ¬ (P1 s ∧ P2 s)) →
  length (filter P l) = (length (filter P1 l) + length (filter P2 l))%nat.
Proof.
  induction l as [|s l IH]; intros Hor Hdis; [done|].
  rewrite !filter_cons.
  specialize (IH ltac:(intros t Ht; apply Hor; by right)
                 ltac:(intros t Ht; apply Hdis; by right)).
  pose proof (Hor s ltac:(by left)). pose proof (Hdis s ltac:(by left)).
  destruct (decide (P s)), (decide (P1 s)), (decide (P2 s));
    simpl; try lia; tauto.
Qed.

Lemma positions_cons n :
  positions (S n) = 0 :: ((λ s, s + 1) <$> positions n).
Proof.
  unfold positions. rewrite <- cons_seq, <- fmap_S_seq. simpl. f_equal.
  rewrite <- !list_fmap_compose. apply list_fmap_ext. intros i s _. simpl. lia.
Qed.

(** Moving every position one up, and the last to the front, keeps the
    count. *)
Lemma count_rotate (P Q : Z → Prop)
    `{∀ s, Decision (P s)} `{∀ s, Decision (Q s)} (n : nat) :
  (P (Z.of_nat n) ↔ Q 0) →
  (∀ s, 0 ≤ s < Z.of_nat n → (P s ↔ Q (s + 1))) →
  length (filter P (positions (S n))) = length (filter Q (positions (S n))).
Proof.
  intros Hn Hs. rewrite positions_S at 1. rewrite positions_cons.
  rewrite filter_app, length_app, !filter_cons, filter_nil.
  assert (length (filter Q ((λ s, s + 1) <$> positions n)) =
          length (filter P (positions n))) as Hshift.
  { rewrite filter_fmap_length. f_equal. apply filter_ext_in.
    intros s Hin%positions_elem_of. symmetry. by apply Hs. }
  destruct (decide (P (Z.of_nat n))), (decide (Q 0)); simpl; try tauto;
    rewrite Hshift; lia.
Qed.

(** The character [Bwt] writes for position [s], made total. *)
Definition bwc (x : list byte) (s : Z) : byte := default x00 (bwt_char x s).

(** Suffix [s] comes before suffix [j]. *)
Definition before (x : list byte) (j s : Z) : Prop :=
  lex_cmp (padded_suffix x s) (padded_suffix x j) = Lt.

#[local] Instance before_dec x j s : Decision (before x j s).
Proof. unfold before. apply _. Defined.

Lemma padded_suffix_cons x (s : nat) c :
  x !! s = Some c →
  padded_suffix x (Z.of_nat s) =
  int_of_byte c :: padded_suffix x (Z.of_nat s + 1).
Proof.
  intros Hc. unfold padded_suffix.
  replace (Z.to_nat (Z.of_nat s + 1)) with (S s) by lia.
  rewrite Nat2Z.id, (drop_S _ _ _ Hc). done.
Qed.

Lemma padded_suffix_last x : padded_suffix x (len x) = [0].
Proof.
  unfold padded_suffix, len. by rewrite Nat2Z.id, drop_all.
Qed.

Lemma bwc_0 x : bwc x 0 = x00.
Proof. done. Qed.

Lemma bwc_S x (s : nat) c : x !! s = Some c → bwc x (Z.of_nat s + 1) = c.
Proof.
  intros Hc. unfold bwc, bwt_char.
  destruct (Z.eqb_spec (Z.of_nat s + 1) 0); [lia|].
  destruct (Z.ltb_spec (Z.of_nat s + 1) 0); [lia|].
  replace (Z.to_nat (Z.of_nat s + 1 - 1)) with s by lia. by rewrite Hc.
Qed.

Section lf_mapping.
Variables (x y : list byte) (sa : list Z).
Hypothesis Hnz : Forall (λ c, c ≠ x00) x.
Hypothesis Hperm : sa ≡ₚ positions (S (length x)).
Hypothesis Hsorted : ∀ a b i j, (a < b)%nat →
  sa !! a = Some i → sa !! b = Some j → before x j i.
Hypothesis Hy : y = bwc x <$> sa.

(** The suffixes before suffix [j] are those before it in [sa]. *)
Lemma filter_before r j :
  sa !! r = Some j → filter (before x j) sa = take r sa.
Proof.
  intros Hr. rewrite <- (take_drop_middle sa r j Hr) at 1.
  rewrite filter_app, filter_cons.
  rewrite filter_all, decide_False, filter_none.
  - by rewrite app_nil_r.
  - apply Forall_forall. intros s Hs.
    apply list_elem_of_lookup_1 in Hs as [b Hb]. rewrite lookup_drop in Hb.
    pose proof (Hsorted r (S r + b) j s ltac:(lia) Hr Hb) as Hlt.
    unfold before in *. by rewrite (lex_cmp_Lt_Gt _ _ Hlt).
  - unfold before. by rewrite lex_cmp_refl.
  - apply Forall_forall. intros s Hs.
    apply list_elem_of_lookup_1 in Hs as [a Ha].
    apply lookup_take_Some in Ha as [Ha Hlt].
    by apply (Hsorted a r).
Qed.

(** Suffix [j] begins with [a]: the suffixes before it begin with a smaller
    character, or with [a] and continue with a suffix before suffix
    [j + 1]. *)
Lemma before_step (j : nat) a s :
  x !! j = Some a → 0 ≤ s ≤ len x →
  before x (Z.of_nat j) s ↔
  int_of_byte (bwc x ((s + 1) mod (len x + 1))) < int_of_byte a ∨
  (bwc x ((s + 1) mod (len x + 1)) = a ∧
   before x (Z.of_nat j + 1) ((s + 1) mod (len x + 1))).
Proof.
  intros Hj Hs. unfold before. rewrite (padded_suffix_cons x j a Hj).
  assert (a ≠ x00) as Ha by apply (Forall_lookup_1 _ _ _ _ Hnz Hj).
  assert (0 < int_of_byte a) as Ha'.
  { pose proof (int_of_byte_range a).
    assert (int_of_byte a ≠ 0); [by rewrite int_of_byte_zero | lia]. }
  destruct (decide (s = len x)) as [->|Hne].
  - rewrite Z.mod_same by (unfold len; lia). rewrite bwc_0, padded_suffix_last.
    cbn [lex_cmp]. change (int_of_byte x00) with 0.
    pose proof Ha' as Hcmp. apply Z.compare_lt_iff in Hcmp. rewrite Hcmp.
    split; [by left | done].
  - rewrite Z.mod_small by lia.
    destruct (lookup_lt_is_Some_2 x (Z.to_nat s)) as [c Hc];
      [unfold len in *; lia|].
    pose proof (bwc_S x _ _ Hc) as Hbwc.
    pose proof (padded_suffix_cons x _ _ Hc) as Hcons.
    rewrite Z2Nat.id in Hbwc, Hcons by lia.
    rewrite Hbwc, Hcons. cbn [lex_cmp].
    destruct (Z.compare_spec (int_of_byte c) (int_of_byte a)) as [Heq|Hlt|Hgt].
    + apply int_of_byte_inj in Heq as ->. split; [by right|].
      intros [?|[_ ?]]; [lia | done].
    + split; [by left | done].
    + split; [done|]. intros [?|[-> _]]; lia.
Qed.

(** The step of [Rbwt] leads from the index of suffix [j + 1] to the index
    of suffix [j]. *)
Lemma lf_step (i : nat) (j : nat) a :
  sa !! i = Some (Z.of_nat j + 1) → x !! j = Some a →
  sa !! Z.to_nat (below (int_of_byte a) y +
                  len (filter (λ c, c = a) (take i y))) = Some (Z.of_nat j).
Proof.
  intros Hi Hj.
  assert (a ≠ x00) as Ha by apply (Forall_lookup_1 _ _ _ _ Hnz Hj).
  apply lookup_lt_Some in Hj as Hjn.
  assert (Z.of_nat j ∈ sa) as Hin
    by (rewrite Hperm; apply positions_elem_of; lia).
  apply list_elem_of_lookup_1 in Hin as [r Hr].
  apply lookup_lt_Some in Hr as Hrl.
  assert (r = length (filter (before x (Z.of_nat j)) sa)) as Hcount.
  { rewrite (filter_before r _ Hr), length_take. lia. }
  set (Q1 := λ s, int_of_byte (bwc x s) < int_of_byte a).
  set (Q2 := λ s, bwc x s = a ∧ before x (Z.of_nat j + 1) s).
  rewrite Hperm in Hcount.
  rewrite (count_rotate _ (λ s, Q1 s ∨ Q2 s)) in Hcount.
  2:{ rewrite (before_step j a _ Hj) by (unfold len; lia).
      replace (Z.of_nat (length x) + 1) with (len x + 1) by done.
      by rewrite Z.mod_same by (unfold len; lia). }
  2:{ intros s Hs. rewrite (before_step j a _ Hj) by (unfold len; lia).
      by rewrite Z.mod_small by (unfold len; lia). }
  rewrite <- Hperm in Hcount.
  rewrite (filter_or_length _ Q1 Q2) in Hcount; [|done|].
  2:{ intros s _ [H1 [H2 _]]. unfold Q1 in H1. rewrite H2 in H1. lia. }
  assert (Z.of_nat (length (filter Q1 sa)) = below (int_of_byte a) y) as H1.
  { unfold below, len. by rewrite Hy, filter_fmap_length. }
  assert (length (filter Q2 sa) = length (filter (λ c, c = a) (take i y)))
    as H2.
  { rewrite Hy, <- fmap_take, filter_fmap_length.
    rewrite <- (filter_before i _ Hi). by rewrite list_filter_filter. }
  unfold len. rewrite <- H1, <- H2, <- Nat2Z.inj_add, <- Hcount, Nat2Z.id.
  done.
Qed.

End lf_mapping.

Lemma for_down_total {St} (I : nat → St → Prop) (count : nat)
    (body : Z → St → result St) (s : St) :
  I count s →
  (∀ c s, (c < count)%nat → I (S c) s →
     ∃ s', body (Z.of_nat c) s = Ok s' ∧ I c s') →
  ∃ s', for_down count body s = Ok s' ∧ I 0%nat s'.
Proof.
  revert s. induction count as [|c IH]; intros s H0 Hstep.
  - by exists s.
  - destruct (Hstep c s) as (s1 & Hb & H1); [lia | done |].
    destruct (IH s1) as (s' & Hloop & H'); [done | |].
    { intros c' s2 Hc'. apply Hstep. lia. }
    exists s'. split; [|done]. simpl. by rewrite Hb, Ok_bind.
Qed.

(** What [Bwt] returns is the characters before the suffixes, in the order
    of the suffix array. *)
Lemma Bwt_bwc (x y : list byte) (sa : list Z) :
  length y = length sa →
  (∀ i j, sa !! i = Some j → is_Some (y !! i) ∧ y !! i = bwt_char x j) →
  y = bwc x <$> sa.
Proof.
  intros Hl Hy. apply list_eq. intros i. rewrite list_lookup_fmap.
  destruct (sa !! i) as [j|] eqn:Hj; simpl.
  - destruct (Hy i j Hj) as [[c Hc] Hchar]. unfold bwc.
    by rewrite <- Hchar, Hc.
  - apply lookup_ge_None. rewrite Hl. by apply lookup_ge_None.
Qed.

(** Whenever [Bwt] returns on a string that is not empty and has no zero
    byte, [Rbwt] returns the string from its result. *)
Lemma Rbwt_Bwt_Ok (x y : list byte) :
  Bwt x = Ok y → x ≠ [] → Forall (λ c, c ≠ x00) x → len x + 1 ≤ 2 ^ 30 →
  Rbwt y = Ok x.
Proof.
  intros Hbwt Hx Hnz Hlen.
  assert (len x + 1 ≤ max_int32) as Hlen' by (unfold max_int32; lia).
  destruct (Bwt_head x y Hbwt Hx Hnz Hlen') as (b0 & Hb0 & Hb0ne).
  destruct (Bwt_Ok x y Hbwt) as (sa & Hsa & Hly & Hchar).
  destruct (PrefixDoubling_Ok x sa Hsa Hlen') as [Hperm Hhead].
  pose proof (PrefixDoubling_sorted x sa Hsa Hnz Hlen) as Hsorted.
  assert (length sa = S (length x)) as Hls by by rewrite Hperm, positions_length.
  assert (y = bwc x <$> sa) as Hy by (apply Bwt_bwc; [lia | done]).
  destruct (NewCTab_256 y) as (ctab & Hctab & Hc).
  destruct (NewOTab_Rank y b0 Hb0 Hb0ne) as (otab & Hotab & _ & Ho).
  unfold Rbwt. rewrite Hctab, Ok_bind, Hotab, Ok_bind.
  unfold make. destruct (Z.ltb_spec (len y - 1) 0) as [Hneg|_];
    [unfold len in Hneg; lia|].
  rewrite Ok_bind.
  replace (Z.to_nat (len y - 1)) with (length x) by (unfold len; lia).
  replace (length y - 1)%nat with (length x) by lia.
  set (body := λ (j : Z) '(x', i),
    a ← index y i; x'' ← store x' j a; c ← CTab_Rank ctab a;
    o ← OTab_Rank otab a i; Ok (x'', c + o)).
  destruct (for_down_total
    (λ c '(xc, i), length xc = length x ∧
       (∀ m, (c ≤ m)%nat → xc !! m = x !! m) ∧
       0 ≤ i ∧ sa !! Z.to_nat i = Some (Z.of_nat c))
    (length x) body (replicate (length x) x00, 0))
    as ([x' i'] & Hloop & Hl' & Hx' & _).
  - split; [by rewrite length_replicate|]. split; [|done].
    intros m Hm. rewrite !lookup_ge_None_2; [done | lia |].
    rewrite length_replicate. lia.
  - intros c [xc i] Hcn (Hlc & Hxc & Hi0 & Hi).
    destruct (lookup_lt_is_Some_2 x c Hcn) as [a Ha].
    assert (a ≠ x00) as Hane by apply (Forall_lookup_1 _ _ _ _ Hnz Ha).
    destruct (Hchar _ _ Hi) as [_ Hyi].
    assert (y !! Z.to_nat i = Some a) as Hyi'.
    { rewrite Hyi. unfold bwt_char.
      destruct (Z.eqb_spec (Z.of_nat (S c)) 0); [lia|].
      destruct (Z.ltb_spec (Z.of_nat (S c)) 0); [lia|].
      by replace (Z.to_nat (Z.of_nat (S c) - 1)) with c by lia. }
    apply lookup_lt_Some in Hyi' as Hilt.
    unfold body.
    rewrite (index_lookup_Z y i a Hi0 Hyi'), Ok_bind.
    rewrite store_in_range, Ok_bind by (unfold len; lia).
    rewrite Hc, Ok_bind, (Ho a i Hane), Ok_bind by (unfold len; lia).
    eexists. split; [done|]. rewrite Nat2Z.id.
    split; [by rewrite length_insert|]. split; [|split].
    + intros m Hm. destruct (decide (m = c)) as [->|Hne].
      * rewrite list_lookup_insert_eq by lia. done.
      * rewrite list_lookup_insert_ne by done. apply Hxc. lia.
    + unfold below, len. lia.
    + apply (lf_step x y sa Hnz Hperm Hsorted Hy (Z.to_nat i) c a); [|done].
      rewrite Hi. f_equal. lia.
  - fold body. rewrite Hloop, Ok_bind. f_equal.
    apply list_eq. intros m. apply Hx'. lia.
Qed.

(** ** No panic on strings of less than 256 letters *)

Lemma scan_bucket_total rem rank sa p e :
  Forall (λ s, 0 ≤ s < len rank) sa → 0 ≤ p < len sa → 0 ≤ e →
  Z.of_nat rem = len sa - e →
  ∃ e', scan_bucket rem rank sa p e = Ok e'.
Proof.
  intros Hsa Hp. revert e. induction rem as [|rem IH]; intros e He Hrem.
  - by exists e.
  - simpl.
    destruct (index_in_range sa p Hp) as (sp & -> & Hsp). rewrite Ok_bind.
    destruct (index_in_range rank sp (Forall_lookup_1 _ _ _ _ Hsa Hsp))
      as (r0 & -> & _). rewrite Ok_bind.
    destruct (index_in_range sa e ltac:(lia)) as (se & -> & Hse).
    rewrite Ok_bind.
    destruct (index_in_range rank se (Forall_lookup_1 _ _ _ _ Hsa Hse))
      as (r1 & -> & _). rewrite Ok_bind.
    destruct (r0 =? r1); [|by eexists].
    apply IH; lia.
Qed.

Lemma sort_bucket_total k rank sa buf p e :
  Forall (byte_key rank k) sa → length buf = length sa →
  len sa ≤ max_int32 → 0 ≤ p → e ≤ len sa →
  ∃ r, sort_bucket k rank sa buf p e = Ok r.
Proof.
  intros Hsa Hb Hlen Hp He. unfold sort_bucket.
  destruct (Z.ltb_spec 1 (e - p)) as [Hsize|_]; [|by eexists].
  unfold slice.
  destruct (Z.leb_spec 0 p); [|lia]. destruct (Z.leb_spec p e); [|lia].
  destruct (Z.leb_spec e (len sa)); [|lia].
  destruct (Z.leb_spec e (len buf)); [|unfold len in *; lia].
  cbn [andb]. rewrite !Ok_bind.
  rewrite radixSortBuckets_byte_keys.
  - rewrite Ok_bind. by eexists.
  - rewrite !length_take, !length_drop. lia.
  - unfold len in *. rewrite length_take, length_drop. lia.
  - by apply Forall_take, Forall_drop.
Qed.

Lemma radixSort_loop_no_panic fuel k rank sa buf p :
  Forall (λ s, 0 ≤ s < len rank) sa → Forall (byte_key rank k) sa →
  length buf = length sa → len sa ≤ max_int32 → 0 ≤ p →
  radixSort_loop fuel k rank sa buf p p ≠ Panic.
Proof.
  revert sa buf p.
  induction fuel as [|fuel IH]; intros sa buf p Hv Hk Hb Hlen Hp.
  - simpl. by destruct (p <? len sa).
  - rewrite radixSort_loop_unfold.
    destruct (Z.ltb_spec p (len sa)) as [Hlt|_]; [|done].
    destruct (scan_bucket_total (Z.to_nat (len sa - p)) rank sa p p)
      as (e & Hscan); [done | lia | lia | lia |].
    rewrite Hscan, Ok_bind.
    pose proof (scan_bucket_advances _ _ _ _ _ Hscan ltac:(lia) ltac:(lia)) as He.
    apply scan_bucket_Ok in Hscan as (Hle & _); [|lia..].
    destruct (sort_bucket_total k rank sa buf p e) as ([sa1 buf1] & Hsort);
      [done | done | done | lia | lia |].
    rewrite Hsort, Ok_bind.
    pose proof (sort_bucket_Ok _ _ _ _ _ _ _ _ Hsort Hb Hlen)
      as (Hperm & Hb1 & _).
    apply IH; [by rewrite Hperm | by rewrite Hperm | | | lia].
    + by rewrite Hperm.
    + unfold len in *. by rewrite Hperm.
Qed.

Lemma radixSort_total k rank sa buf :
  Forall (λ s, 0 ≤ s < len rank) sa → Forall (byte_key rank k) sa →
  length buf = length sa → len sa ≤ max_int32 →
  ∃ r, radixSort k rank sa buf = Ok r.
Proof.
  intros Hv Hk Hb Hlen.
  pose proof (nt_radixSort k rank sa buf) as Hnt.
  pose proof (radixSort_loop_no_panic (length sa) k rank sa buf 0 Hv Hk Hb Hlen
                ltac:(lia)) as Hnp.
  unfold radixSort, no_timeout in *.
  destruct (radixSort_loop _ _ _ _ _ _ _) as [r| |]; [by exists r | done..].
Qed.

Lemma pair_total rank sa i k :
  Forall (λ s, 0 ≤ s < len rank) sa → Forall (byte_key rank k) sa →
  0 ≤ i < len sa → ∃ key, pair rank sa i k = Ok key.
Proof.
  intros Hv Hk Hi. unfold pair.
  destruct (index_in_range sa i Hi) as (s & -> & Hs). rewrite Ok_bind.
  destruct (index_in_range rank s (Forall_lookup_1 _ _ _ _ Hv Hs))
    as (r & -> & _). rewrite Ok_bind.
  destruct (Forall_lookup_1 _ _ _ _ Hk Hs) as [-> _].
  rewrite Ok_bind. by eexists.
Qed.

Lemma updateRank_total sa rank out k :
  sa ≠ [] → Forall (λ s, 0 ≤ s < len rank) sa →
  Forall (byte_key rank k) sa → length out = length rank →
  len sa ≤ max_int32 →
  ∃ r, updateRank sa rank out k = Ok r.
Proof.
  intros Hne Hv Hk Hl Hlen. unfold updateRank.
  pose proof (len_pos sa Hne) as Hpos.
  destruct (index_in_range sa 0 ltac:(lia)) as (s0 & -> & Hs0).
  rewrite Ok_bind.
  pose proof (Forall_lookup_1 _ _ _ _ Hv Hs0) as Hs0r.
  rewrite store_in_range by (unfold len in *; lia). rewrite Ok_bind.
  destruct (pair_total rank sa 0 k Hv Hk ltac:(lia)) as (prev & ->).
  rewrite Ok_bind.
  destruct (for_loop_total (λ _ '(_, _, o), length o = length rank)
    (length sa - 1) 1 (update_body rank sa k)
    (0, prev, <[Z.to_nat s0 := 0]> out)) as ([[a p] o] & -> & _).
  - by rewrite length_insert.
  - intros i [[a p] o] Hi Ho. unfold update_body.
    rewrite (wrap32_small i) by (unfold max_int32, len in *; lia).
    destruct (pair_total rank sa i k Hv Hk) as (cur & ->);
      [unfold len in *; lia|].
    rewrite Ok_bind.
    destruct (index_in_range sa i) as (s & -> & Hs); [unfold len in *; lia|].
    rewrite Ok_bind.
    pose proof (Forall_lookup_1 _ _ _ _ Hv Hs) as Hsr.
    rewrite store_in_range by (unfold len in *; lia). rewrite Ok_bind.
    eexists. split; [done|]. cbv beta iota. rewrite length_insert.
    by rewrite <- Ho.
  - rewrite Ok_bind. by eexists.
Qed.

(** A round of the loop on less than 256 suffixes returns. *)
Lemma doubling_round_total x r0 st :
  Z.of_nat (S (length x)) ≤ 256 →
  coded x r0 → pd_inv (length x) st → pd_sem r0 st →
  pd_sigma st < Z.of_nat (S (length x)) →
  ∃ st', doubling_round st = Ok st'.
Proof.
  intros Hlen Hc Hinv (K & Hk & HK & Hsorted & Hcmp & Hrange & _) Hsig.
  set (n := length x) in *.
  pose proof (pd_sem_offset x r0 st K Hc Hinv Hcmp Hrange Hsig) as HKn.
  fold n in HKn.
  pose proof Hinv as (Hp & Hlr & Hlb & _).
  assert (length (pd_sa st) = S n) as Hls by by rewrite Hp, positions_length.
  assert (Forall (λ s, 0 ≤ s < len (pd_rank st)) (pd_sa st)) as Hv.
  { rewrite Hp. apply Forall_forall. intros s Hs%positions_elem_of.
    unfold len. lia. }
  assert (Forall (byte_key (pd_rank st) (pd_k st)) (pd_sa st)) as Hkeys.
  { rewrite Hp. apply Forall_forall. intros s Hs%positions_elem_of.
    assert (sort_key (pd_rank st) (pd_k st) s =
            getr (pd_rank st) (Z.to_nat s + K)) as Hkey.
    { rewrite sort_key_getr by lia. by rewrite Hk, Nat2Z.id. }
    split.
    - unfold sort_key, getRank, add32 in *.
      rewrite wrap32_small in * by lia.
      destruct (Z.ltb_spec (s + pd_k st) (len (pd_rank st))); [|done].
      by destruct (index_in_range (pd_rank st) (s + pd_k st)) as (r & -> & _);
        [lia|].
    - rewrite Hkey. unfold getr.
      destruct (pd_rank st !! (Z.to_nat s + K)%nat) as [r|] eqn:Hr;
        simpl; [|lia].
      apply list_elem_of_lookup_2, Hrange in Hr. lia. }
  unfold doubling_round.
  destruct (radixSort_total (pd_k st) (pd_rank st) (pd_sa st) (pd_buf st))
    as ([sa1 buf1] & Hsort); [done | done | lia | unfold len, max_int32; lia |].
  rewrite Hsort, Ok_bind.
  pose proof (radixSort_Ok _ _ _ _ _ _ Hsort) as [Hp1 Hlb1];
    [lia | unfold len, max_int32; lia |].
  destruct (updateRank_total sa1 (pd_rank st) buf1 (pd_k st))
    as ([buf2 sigma] & Hup).
  - intros ->. apply Permutation_nil_l in Hp1.
    rewrite <- Hp1 in Hls. done.
  - by rewrite Hp1.
  - by rewrite Hp1.
  - lia.
  - unfold len, max_int32. rewrite Hp1. lia.
  - rewrite Hup, Ok_bind. by eexists.
Qed.

Lemma doubling_loop_no_panic fuel x r0 st :
  Z.of_nat (S (length x)) ≤ 256 →
  coded x r0 → pd_inv (length x) st → pd_sem r0 st →
  doubling_loop fuel (Z.of_nat (S (length x))) st ≠ Panic.
Proof.
  intros Hlen Hc. revert st.
  induction fuel as [|fuel IH]; intros st Hinv Hsem.
  - simpl. by destruct (pd_sigma st <? _).
  - rewrite doubling_loop_unfold.
    destruct (Z.ltb_spec (pd_sigma st) (Z.of_nat (S (length x))))
      as [Hlt|_]; [|done].
    destruct (doubling_round_total x r0 st Hlen Hc Hinv Hsem Hlt)
      as (st1 & Hround).
    rewrite Hround, Ok_bind. apply IH.
    + apply (doubling_round_inv _ st st1 Hround); [unfold max_int32; lia | done].
    + apply (doubling_round_sem x r0 st st1 Hround); [lia | done..].
Qed.

(** There are no more codes than letters. *)
Lemma codes_le_length (x : list byte) (alpha : list Z) (sigma : Z) :
  1 ≤ sigma →
  (∀ v, 1 ≤ v < sigma → ∃ c, c ∈ x ∧ code alpha c = v) →
  sigma - 1 ≤ len x.
Proof.
  intros Hsig Hsur.
  assert (seqZ 1 (sigma - 1) ⊆+ (code alpha <$> x)) as Hsub.
  { apply NoDup_submseteq; [apply NoDup_seqZ|]. intros v Hv.
    apply elem_of_seqZ in Hv. destruct (Hsur v ltac:(lia)) as (c & Hc & <-).
    apply list_elem_of_fmap. by exists c. }
  apply submseteq_length in Hsub.
  rewrite length_seqZ, length_fmap in Hsub. unfold len. lia.
Qed.

(** The seed ranks are the codes of the letters: on a string of at most
    255 letters they are below 256, and the first sort does not panic. *)
Lemma doubling_init_total (x : list byte) :
  len x ≤ 255 → ∃ st, doubling_init x = Ok st.
Proof.
  intros Hlen. unfold doubling_init.
  replace (len x + 1) with (Z.of_nat (S (length x))) in *
    by (unfold len; lia).
  rewrite sa0_positions, Ok_bind by (unfold len, max_int32 in *; lia).
  unfold make.
  destruct (Z.ltb_spec (len (positions (S (length x)))) 0) as [Hneg|_];
    [unfold len in Hneg; lia|].
  rewrite Ok_bind.
  destruct (calcRank0_Ok x)
    as (alpha & rank & sigma & Hcalc & Hlr & Hrn & Hrank & Hsig & Hcode &
        _ & Hsur).
  pose proof (codes_le_length x alpha sigma ltac:(lia) Hsur) as Hcodes.
  rewrite Hcalc, Ok_bind.
  rewrite radixSortBuckets_byte_keys.
  - rewrite Ok_bind. by eexists.
  - unfold len. by rewrite length_replicate, Nat2Z.id.
  - unfold len, max_int32 in *. rewrite positions_length. lia.
  - apply Forall_forall. intros s Hs%positions_elem_of.
    assert (getRank rank (add32 s 0) = Ok (default 0 (rank !! Z.to_nat s)))
      as Hget.
    { unfold getRank, add32.
      rewrite Z.add_0_r, wrap32_small by (unfold len in Hlen; lia).
      destruct (Z.ltb_spec s (len rank)) as [_|Hge]; [|unfold len in Hge; lia].
      destruct (index_in_range rank s) as (r & -> & ->); [unfold len; lia|].
      done. }
    unfold byte_key, sort_key. rewrite Hget. split; [done|].
    destruct (decide (Z.to_nat s = length x)) as [->|Hne].
    + rewrite Hrn. simpl. lia.
    + destruct (lookup_lt_is_Some_2 x (Z.to_nat s)) as [c Hc]; [lia|].
      rewrite (Hrank _ _ Hc). change (0 ≤ code alpha c < 256).
      pose proof (Hcode c (list_elem_of_lookup_2 _ _ _ Hc)). lia.
Qed.

(** [PrefixDoubling] returns on every string of at most 255 letters. *)
Lemma PrefixDoubling_total (x : list byte) :
  len x ≤ 255 → ∃ sa, PrefixDoubling x = Ok sa.
Proof.
  intros Hlen.
  assert (len x + 1 ≤ max_int32) as Hlen' by (unfold max_int32; lia).
  pose proof (nt_PrefixDoubling x) as Hnt.
  unfold PrefixDoubling, PrefixDoubling_loop, no_timeout in *.
  destruct (doubling_init_total x Hlen) as (st0 & Hinit).
  rewrite Hinit, Ok_bind in *.
  pose proof (doubling_init_inv x st0 Hinit Hlen') as Hinv0.
  destruct (doubling_init_sem x st0 Hinit Hlen') as [Hc Hsem0].
  replace (len x + 1) with (Z.of_nat (S (length x))) in *
    by (unfold len; lia).
  pose proof (doubling_loop_no_panic doubling_fuel x _ st0
                ltac:(unfold len in *; lia) Hc Hinv0 Hsem0) as Hnp.
  destruct (doubling_loop _ _ _) as [st| |]; [|done..].
  rewrite Ok_bind. by eexists.
Qed.

Lemma for_range_total_in {A St} (I : list A → St → Prop) (l : list A)
    (body : A → St → result St) (s : St) :
  I [] s →
  (∀ done a rest s, l = done ++ a :: rest → I done s →
     ∃ s', body a s = Ok s' ∧ I (done ++ [a]) s') →
  ∃ s', for_range l body s = Ok s' ∧ I l s'.
Proof.
  intros H0 Hstep.
  cut (∀ rest done s, l = done ++ rest → I done s →
         ∃ s', for_range rest body s = Ok s' ∧ I l s').
  { intros H. by apply (H l [] s). }
  clear s H0. induction rest as [|a rest IH]; intros done s Hl H0.
  - exists s. rewrite app_nil_r in Hl. by subst.
  - destruct (Hstep done a rest s Hl H0) as (s1 & Hb & H1).
    destruct (IH (done ++ [a]) s1) as (s2 & Hloop & H2);
      [by rewrite <- app_assoc | done |].
    exists s2. simpl. rewrite Hb. simpl. by split.
Qed.

(** [Bwt] returns whenever [PrefixDoubling] does. *)
Lemma Bwt_total (x : list byte) (sa : list Z) :
  PrefixDoubling x = Ok sa → len x + 1 ≤ max_int32 →
  ∃ y, Bwt x = Ok y.
Proof.
  intros Hsa Hlen.
  destruct (PrefixDoubling_Ok x sa Hsa Hlen) as [Hperm _].
  assert (length sa = S (length x)) as Hls by by rewrite Hperm, positions_length.
  unfold Bwt. rewrite Hsa, Ok_bind. unfold make.
  destruct (Z.ltb_spec (len x + 1) 0) as [Hneg|_]; [unfold len in Hneg; lia|].
  rewrite Ok_bind.
  destruct (for_range_total_in
    (λ done '(i, y), i = len done ∧ length y = S (length x))
    sa (bwt_body x) (0, replicate (Z.to_nat (len x + 1)) x00))
    as ([i y] & -> & _).
  - split; [done|]. rewrite length_replicate. unfold len. lia.
  - intros done j rest [i y] Hrest (-> & Hl).
    assert (j ∈ sa) as Hj by (rewrite Hrest; apply elem_of_app; right; left).
    rewrite Hperm in Hj. apply positions_elem_of in Hj.
    assert (len done < len sa) as Hd.
    { unfold len. rewrite Hrest, !length_app. simpl. lia. }
    unfold bwt_body.
    assert (∃ y', (if j =? 0 then store y (len done) x00
                   else c ← index x (j - 1); store y (len done) c) = Ok y' ∧
                  length y' = S (length x)) as (y' & -> & Hl').
    { destruct (Z.eqb_spec j 0) as [->|Hj0].
      - rewrite store_in_range by (unfold len in *; lia).
        eexists. split; [done|]. by rewrite length_insert.
      - destruct (index_in_range x (j - 1)) as (c & -> & _);
          [unfold len; lia|].
        rewrite Ok_bind, store_in_range by (unfold len in *; lia).
        eexists. split; [done|]. by rewrite length_insert. }
    rewrite Ok_bind. eexists. split; [done|].
    split; [unfold len; rewrite length_app; simpl; lia | done].
  - rewrite Ok_bind. by eexists.
Qed.

(** ** The checks of the tests *)

(** [x[a:]] on a string. *)
Definition suffix_of (x : list byte) (a : Z) : result (list byte) :=
  slice x a (len x).

(** The comparison of two strings, byte by byte. *)
Definition string_cmp (u v : list byte) : comparison :=
  lex_cmp (int_of_byte <$> u) (int_of_byte <$> v).

(** [u >= v] on strings. *)
Definition string_ge (u v : list byte) : bool :=
  match string_cmp u v with
  | Lt => false
  | _ => true
  end.

(** The checks report to [t] with [t.Errorf], which marks the test as failed
    and goes on: the state of [t] is the number of errors reported so far.
    The second loop of [checkSAIndices], over the sorted indices from index
    [i] on; [n] is [len(x)]. *)
Fixpoint check_indices_loop (n i : Z) (indices : list Z) (errs : nat)
  : bool * nat :=
  match indices with
  | [] => (true, errs)
  | j :: rest =>
      let errs := if (j <? 0) || (n <? j) then S errs else errs in
      if i <? j then (false, S errs)
      else check_indices_loop n (i + 1) rest errs
  end.

(** [checkSAIndices]; [sort.Ints] leaves the indices in increasing order. *)
Definition checkSAIndices (x : list byte) (sa : list Z) (errs : nat)
  : bool * nat :=
  let errs :=
    if negb (len sa =? len x) && negb (len sa =? len x + 1)
    then S errs else errs in
  let indices := merge_sort Z.le sa in
  check_indices_loop (len x) 0 indices errs.

(** The body of the loop of [checkSASorted]. *)
Definition sorted_body (x : list byte) (sa : list Z) (i : Z)
    (st : bool * nat) : result (bool * nat) :=
  let '(res, errs) := st in
  a ← index sa (i - 1);
  u ← suffix_of x a;
  b ← index sa i;
  v ← suffix_of x b;
  if string_ge u v then Ok (false, S errs) else Ok (res, errs).

Definition checkSASorted (x : list byte) (sa : list Z) (errs : nat)
  : result (bool * nat) :=
  for_loop (length sa - 1) 1 (sorted_body x sa) (true, errs).

(** [checkSuffixArray]: [&&] does not call [checkSASorted] after
    [checkSAIndices] has returned false. *)
Definition checkSuffixArray (x : list byte) (sa : list Z) (errs : nat)
  : result (bool * nat) :=
  let '(r, errs) := checkSAIndices x sa errs in
  if r then checkSASorted x sa errs else Ok (false, errs).

Lemma lex_cmp_trans u v w :
  lex_cmp u v = Lt → lex_cmp v w = Lt → lex_cmp u w = Lt.
Proof.
  revert v w. induction u as [|a u IH]; intros [|b v] [|c w]; try done.
  simpl.
  destruct (Z.compare_spec a b) as [->|Hab|Hab]; [| |done].
  - destruct (Z.compare_spec b c); [apply IH | done..].
  - intros _. destruct (Z.compare_spec b c) as [<-|Hbc|Hbc]; [| |done].
    + intros _. by apply Z.compare_lt_iff in Hab as ->.
    + intros _. assert (a < c) as Hac by lia.
      by apply Z.compare_lt_iff in Hac as ->.
Qed.

Lemma lex_cmp_app_r u w : w ≠ [] → lex_cmp u (u ++ w) = Lt.
Proof.
  intros Hw. induction u as [|a u IH]; simpl.
  - by destruct w.
  - by rewrite Z.compare_refl.
Qed.

Lemma suffix_of_Ok x a u :
  suffix_of x a = Ok u ↔ 0 ≤ a ≤ len x ∧ u = drop (Z.to_nat a) x.
Proof.
  unfold suffix_of. split.
  - intros (Hlo & Hhi & -> & _)%slice_Ok. split; [lia|].
    apply take_ge. rewrite length_drop. unfold len. lia.
  - intros [Ha ->]. unfold slice.
    destruct (Z.leb_spec 0 a); [|lia].
    destruct (Z.leb_spec a (len x)); [|lia].
    destruct (Z.leb_spec (len x) (len x)); [|lia].
    cbn [andb]. f_equal. apply take_ge.
    rewrite length_drop. unfold len. lia.
Qed.

(** The suffixes at two positions of [x], in order. *)
Definition suffix_lt (x : list byte) (i j : Z) : Prop :=
  string_cmp (drop (Z.to_nat i) x) (drop (Z.to_nat j) x) = Lt.

Lemma suffix_lt_trans x i j l :
  suffix_lt x i j → suffix_lt x j l → suffix_lt x i l.
Proof. apply lex_cmp_trans. Qed.

Lemma suffix_lt_irrefl x i : ¬ suffix_lt x i i.
Proof. unfold suffix_lt, string_cmp. by rewrite lex_cmp_refl. Qed.

(** The errors only grow. *)
Lemma check_indices_loop_errs n i l e r e' :
  check_indices_loop n i l e = (r, e') → (e ≤ e')%nat.
Proof.
  revert i e. induction l as [|j l IH]; intros i e; simpl.
  - intros [= _ <-]. lia.
  - destruct (i <? j).
    + intros [= _ <-]. destruct (_ || _); lia.
    + intros H%IH. destruct (_ || _); lia.
Qed.

Lemma check_indices_loop_true n i l e :
  check_indices_loop n i l e = (true, e) ↔
  ∀ p j, l !! p = Some j → 0 ≤ j ≤ n ∧ j ≤ i + Z.of_nat p.
Proof.
  revert i e. induction l as [|j l IH]; intros i e; simpl.
  - split; [by intros _ p j | done].
  - destruct (Z.ltb_spec i j) as [Hij|Hij].
    + split; [intros [=] |].
      intros H. destruct (H 0%nat j); [done | lia].
    + destruct (Z.ltb_spec j 0) as [Hj0|Hj0]; cbn [orb].
      { split.
        - intros H%check_indices_loop_errs. lia.
        - intros H. destruct (H 0%nat j); [done | lia]. }
      destruct (Z.ltb_spec n j) as [Hjn|Hjn].
      { split.
        - intros H%check_indices_loop_errs. lia.
        - intros H. destruct (H 0%nat j); [done | lia]. }
      rewrite IH. split.
      * intros H [|p] j'; simpl.
        -- intros [= <-]. lia.
        -- intros Hp. specialize (H p j' Hp). lia.
      * intros H p j' Hp. specialize (H (S p) j' Hp). lia.
Qed.

Lemma checkSAIndices_true x sa e :
  checkSAIndices x sa e = (true, e) ↔
  (len sa = len x ∨ len sa = len x + 1) ∧
  ∀ p j, merge_sort Z.le sa !! p = Some j → 0 ≤ j ≤ len x ∧ j ≤ Z.of_nat p.
Proof.
  unfold checkSAIndices.
  destruct (Z.eqb_spec (len sa) (len x)) as [H1|H1];
    destruct (Z.eqb_spec (len sa) (len x + 1)) as [H2|H2]; cbn [negb andb];
    try (rewrite check_indices_loop_true; split;
         [intros H; split; [lia | done] | by intros [_ H]]).
  split; [|intros [? _]; lia].
  intros H%check_indices_loop_errs. lia.
Qed.

Lemma checkSAIndices_errs x sa e r e' :
  checkSAIndices x sa e = (r, e') → (e ≤ e')%nat.
Proof.
  unfold checkSAIndices. intros H%check_indices_loop_errs.
  destruct (_ && _); lia.
Qed.

(** The state of the loop of [checkSASorted] before index [i]: as long as no
    error is reported, the suffixes up to there are in order. *)
Definition sorted_upto (x : list byte) (sa : list Z) (e0 : nat) (i : Z)
    (st : bool * nat) : Prop :=
  (e0 ≤ st.2)%nat ∧
  (st.2 = e0 → st.1 = true ∧
     ∀ p, (1 ≤ p)%nat → Z.of_nat p < i →
       ∃ a b, sa !! (p - 1)%nat = Some a ∧ sa !! p = Some b ∧
              0 ≤ a ≤ len x ∧ 0 ≤ b ≤ len x ∧ suffix_lt x a b).

Lemma sorted_body_upto x sa e0 i st st' :
  1 ≤ i → sorted_upto x sa e0 i st → sorted_body x sa i st = Ok st' →
  sorted_upto x sa e0 (i + 1) st'.
Proof.
  intros Hi. destruct st as [res e]. intros [Hle Hinv] Hbody.
  unfold sorted_body in Hbody.
  apply bind_Ok in Hbody as (a & Ha & Hbody).
  apply bind_Ok in Hbody as (u & Hu & Hbody).
  apply bind_Ok in Hbody as (b & Hb & Hbody).
  apply bind_Ok in Hbody as (v & Hv & Hbody).
  apply suffix_of_Ok in Hu as [Har ->]. apply suffix_of_Ok in Hv as [Hbr ->].
  apply index_Ok in Ha as [_ Ha]. apply index_Ok in Hb as [_ Hb].
  unfold string_ge in Hbody.
  destruct (string_cmp _ _) eqn:Hcmp; injection Hbody as <-;
    unfold sorted_upto; simpl in *; try (split; [lia | intros; lia]).
  split; [done|]. intros He. destruct (Hinv He) as [-> Hprev].
  split; [done|]. intros p Hp1 Hp.
  destruct (decide (Z.of_nat p = i)) as [<-|Hne]; [|apply Hprev; lia].
  exists a, b. replace (Z.to_nat (Z.of_nat p - 1)) with (p - 1)%nat in Ha by lia.
  rewrite Nat2Z.id in Hb. done.
Qed.

Lemma checkSASorted_errs x sa e r e' :
  checkSASorted x sa e = Ok (r, e') → (e ≤ e')%nat.
Proof.
  unfold checkSASorted. intros Hloop.
  pose proof (for_loop_partial (sorted_upto x sa e) _ _ _ _ _ Hloop) as H.
  destruct H as [H _]; [| |done].
  - split; [simpl; lia|]. intros _. split; [done|]. intros; lia.
  - intros i st st' Hi. apply sorted_body_upto. lia.
Qed.

Lemma checkSASorted_true x sa e :
  checkSASorted x sa e = Ok (true, e) →
  ∀ p a b, sa !! p = Some a → sa !! S p = Some b →
    0 ≤ a ≤ len x ∧ 0 ≤ b ≤ len x ∧ suffix_lt x a b.
Proof.
  unfold checkSASorted. intros Hloop p a b Ha Hb.
  pose proof (for_loop_partial (sorted_upto x sa e) _ _ _ _ _ Hloop) as H.
  destruct H as [_ H].
  - split; [simpl; lia|]. intros _. split; [done|]. intros; lia.
  - intros i st st' Hi. apply sorted_body_upto. lia.
  - destruct (H eq_refl) as [_ Hall].
    apply lookup_lt_Some in Hb as Hlt.
    destruct (Hall (S p)) as (a' & b' & Ha' & Hb' & ?); [lia | lia |].
    replace (S p - 1)%nat with p in Ha' by lia.
    rewrite Ha in Ha'. rewrite Hb in Hb'.
    injection Ha' as <-. injection Hb' as <-. done.
Qed.

(** Adjacent entries in order: all entries in order. *)
Lemma adjacent_sorted (x : list byte) (sa : list Z) :
  (∀ p a b, sa !! p = Some a → sa !! S p = Some b → suffix_lt x a b) →
  ∀ p q a b, (p < q)%nat → sa !! p = Some a → sa !! q = Some b →
    suffix_lt x a b.
Proof.
  intros Hadj p q a b Hpq Ha. revert b.
  induction Hpq as [|q Hpq IH]; intros b Hb.
  - by apply (Hadj p).
  - destruct (lookup_lt_is_Some_2 sa q) as [c Hc];
      [apply lookup_lt_Some in Hb; lia|].
    apply (suffix_lt_trans x a c b); [by apply IH | by apply (Hadj q)].
Qed.

Lemma Sorted_positions_from s m : Sorted Z.le (Z.of_nat <$> seq s m).
Proof.
  revert s. induction m as [|m IH]; intros s; [constructor|].
  simpl. constructor; [apply IH|].
  destruct m; simpl; constructor. lia.
Qed.

Lemma Sorted_positions m : Sorted Z.le (positions m).
Proof. apply Sorted_positions_from. Qed.

Lemma merge_sort_positions sa m :
  sa ≡ₚ positions m → merge_sort Z.le sa = positions m.
Proof.
  intros Hp. apply (Sorted_unique Z.le).
  - apply Sorted_merge_sort, _.
  - apply Sorted_positions.
  - by rewrite merge_sort_Permutation.
Qed.

(** A sorted list without duplicates of numbers that are at least 0 and at
    most their index is the list of the indices. *)
Lemma sorted_indices (l : list Z) :
  Sorted Z.le l → NoDup l →
  (∀ p j, l !! p = Some j → 0 ≤ j ≤ Z.of_nat p) →
  l = positions (length l).
Proof.
  intros Hs Hnd Hle.
  apply (Sorted_StronglySorted Z.le) in Hs.
  assert (∀ p j, l !! p = Some j → Z.of_nat p ≤ j) as Hge.
  { induction p as [|p IH]; intros j Hj.
    - specialize (Hle _ _ Hj). lia.
    - destruct (lookup_lt_is_Some_2 l p) as [j' Hj'];
        [apply lookup_lt_Some in Hj; lia|].
      specialize (IH j' Hj').
      assert (j' ≤ j) as Hjj.
      { rewrite <- (take_drop_middle l p j' Hj') in Hs.
        apply StronglySorted_app_1_r in Hs.
        apply StronglySorted_inv in Hs as [_ Hall].
        apply (Forall_lookup_1 _ _ 0%nat j) in Hall; [done|].
        by rewrite lookup_drop, Nat.add_0_r. }
      assert (j' ≠ j) as Hne.
      { intros ->. pose proof (NoDup_lookup _ _ _ _ Hnd Hj Hj'). lia. }
      lia. }
  apply (list_eq_same_length _ _ (length l)); [by rewrite positions_length | done |].
  intros p u v Hp Hu Hv. rewrite positions_lookup in Hv by done.
  injection Hv as <-. specialize (Hle _ _ Hu). specialize (Hge _ _ Hu). lia.
Qed.

(** Whenever [checkSuffixArray] returns true and has reported no error, the
    array holds the numbers from 0 to its length, once each, and the suffixes
    at its entries are in strictly increasing order. *)
Lemma checkSuffixArray_sound (x : list byte) (sa : list Z) (e : nat) :
  checkSuffixArray x sa e = Ok (true, e) →
  (len sa = len x ∨ len sa = len x + 1) ∧
  sa ≡ₚ positions (length sa) ∧
  ∀ p q a b, (p < q)%nat → sa !! p = Some a → sa !! q = Some b →
    suffix_lt x a b.
Proof.
  unfold checkSuffixArray.
  destruct (checkSAIndices x sa e) as [r e1] eqn:Hind.
  destruct r; [|intros [=]]. intros Hsorted.
  pose proof (checkSAIndices_errs _ _ _ _ _ Hind).
  pose proof (checkSASorted_errs _ _ _ _ _ Hsorted).
  assert (e1 = e) as -> by lia.
  apply checkSAIndices_true in Hind as [Hlen Hidx].
  pose proof (checkSASorted_true _ _ _ Hsorted) as Hadj.
  assert (∀ p q a b, (p < q)%nat → sa !! p = Some a → sa !! q = Some b →
                     suffix_lt x a b) as Hall.
  { apply adjacent_sorted. intros p a b Ha Hb. by apply (Hadj p). }
  split; [done|]. split; [|done].
  assert (NoDup sa) as Hnd.
  { apply NoDup_alt. intros i j v Hi Hj.
    destruct (Nat.lt_trichotomy i j) as [Hlt|[?|Hgt]]; [|done|].
    - destruct (suffix_lt_irrefl x v). by apply (Hall i j).
    - destruct (suffix_lt_irrefl x v). by apply (Hall j i). }
  pose proof (merge_sort_Permutation Z.le sa) as Hperm.
  rewrite <- Hperm at 1. rewrite <- (Permutation_length Hperm).
  rewrite <- sorted_indices; [done | | |].
  - apply Sorted_merge_sort, _.
  - by rewrite Hperm.
  - intros p j Hj. specialize (Hidx p j Hj). lia.
Qed.

(** What [checkSuffixArray] accepts. *)
Lemma checkSuffixArray_complete (x : list byte) (sa : list Z) (e : nat) :
  (len sa = len x ∨ len sa = len x + 1) →
  sa ≡ₚ positions (length sa) →
  (∀ p a b, sa !! p = Some a → sa !! S p = Some b → suffix_lt x a b) →
  checkSuffixArray x sa e = Ok (true, e).
Proof.
  intros Hlen Hperm Hadj. unfold checkSuffixArray.
  assert (checkSAIndices x sa e = (true, e)) as ->.
  { apply checkSAIndices_true. split; [done|]. intros p j.
    rewrite (merge_sort_positions sa _ Hperm). intros Hj.
    apply lookup_lt_Some in Hj as Hp. rewrite positions_length in Hp.
    rewrite positions_lookup in Hj by done. injection Hj as <-.
    unfold len in *. lia. }
  unfold checkSASorted.
  destruct (for_loop_total (λ _ st, st = (true, e)) (length sa - 1) 1
              (sorted_body x sa) (true, e)) as (st & -> & ->); [done | |done].
  intros i st Hi ->. exists (true, e). split; [|done].
  destruct (lookup_lt_is_Some_2 sa (Z.to_nat (i - 1))) as [a Ha]; [lia|].
  destruct (lookup_lt_is_Some_2 sa (Z.to_nat i)) as [b Hb]; [lia|].
  assert (∀ p v, sa !! p = Some v → 0 ≤ v ≤ len x) as Hrange.
  { intros p v Hv. apply list_elem_of_lookup_2 in Hv.
    rewrite Hperm in Hv. apply positions_elem_of in Hv. unfold len in *. lia. }
  unfold sorted_body.
  rewrite (index_lookup_Z sa (i - 1) a) by (done || lia). rewrite Ok_bind.
  rewrite (proj2 (suffix_of_Ok x a _) (conj (Hrange _ _ Ha) eq_refl)), Ok_bind.
  rewrite (index_lookup_Z sa i b) by (done || lia). rewrite Ok_bind.
  rewrite (proj2 (suffix_of_Ok x b _) (conj (Hrange _ _ Hb) eq_refl)), Ok_bind.
  unfold string_ge.
  replace (Z.to_nat i) with (S (Z.to_nat (i - 1))) in Hb by lia.
  pose proof (Hadj _ _ _ Ha Hb) as Hlt. unfold suffix_lt in Hlt.
  by rewrite Hlt.
Qed.

(** Suffixes whose first [k] ranks are in order are in order as strings. *)
Lemma pre_suffix_lt x r0 k i j :
  coded x r0 → (i ≤ length x)%nat → (j ≤ length x)%nat →
  lex_cmp (pre r0 k i) (pre r0 k j) = Lt →
  suffix_lt x (Z.of_nat i) (Z.of_nat j).
Proof.
  intros Hc Hi Hj Hlt.
  apply lex_cmp_Lt_inv in Hlt as (d & a & b & Htake & Ha & Hb & Hab);
    [|by rewrite !pre_length].
  apply lookup_lt_Some in Ha as Hd. rewrite pre_length in Hd.
  rewrite pre_lookup in Ha, Hb by done.
  injection Ha as <-. injection Hb as <-.
  assert (∀ d', (d' < d)%nat → getr r0 (i + d') = getr r0 (j + d')) as Heq.
  { intros d' Hd'.
    assert (take d (pre r0 k i) !! d' = take d (pre r0 k j) !! d') as H
      by by rewrite Htake.
    rewrite !lookup_take_lt, !pre_lookup in H by lia. by injection H. }
  pose proof (coded_nonneg x r0 (i + d) Hc) as Ha0.
  assert (j + d < length x)%nat as Hjd.
  { destruct (Nat.lt_ge_cases (j + d) (length x)) as [|Hge]; [done|].
    rewrite (coded_end x r0 (j + d) Hc Hge) in Hab. lia. }
  assert (∀ d', (d' < d)%nat → (i + d' < length x)%nat) as Hid.
  { intros d' Hd'.
    destruct (Nat.lt_ge_cases (i + d') (length x)) as [|Hge]; [done|].
    pose proof (coded_letter x r0 (j + d') Hc ltac:(lia)) as H1.
    rewrite <- (Heq d' Hd'), (coded_end x r0 (i + d') Hc Hge) in H1. lia. }
  assert (i + d ≤ length x)%nat as Hid'.
  { destruct d as [|d]; [lia|]. specialize (Hid d ltac:(lia)). lia. }
  destruct (lookup_lt_is_Some_2 x (j + d) Hjd) as [cj Hcj].
  destruct (coded_getr x r0 (j + d) cj Hc Hcj) as (alpha & Hgj & Hcode & Hord).
  unfold suffix_lt, string_cmp. rewrite !Nat2Z.id.
  set (u := int_of_byte <$> drop i x). set (v := int_of_byte <$> drop j x).
  assert (∀ m d' c, x !! (m + d')%nat = Some c →
            (int_of_byte <$> drop m x) !! d' = Some (int_of_byte c)) as Hlook.
  { intros m d' c Hm. by rewrite list_lookup_fmap, lookup_drop, Hm. }
  assert (take d u = take d v) as Huv.
  { apply list_eq. intros d'.
    destruct (Nat.lt_ge_cases d' d) as [Hd'|Hd']; [|by rewrite !lookup_take_ge].
    rewrite !lookup_take_lt by done.
    destruct (lookup_lt_is_Some_2 x (i + d') (Hid d' Hd')) as [ci Hci].
    destruct (lookup_lt_is_Some_2 x (j + d') ltac:(lia)) as [cj' Hcj'].
    unfold u, v. rewrite (Hlook _ _ _ Hci), (Hlook _ _ _ Hcj').
    enough (int_of_byte ci = int_of_byte cj') as -> by done.
    pose proof (Heq d' Hd') as Hcd.
    rewrite (Hcode _ _ Hci), (Hcode _ _ Hcj') in Hcd.
    pose proof (Hord ci cj' (list_elem_of_lookup_2 _ _ _ Hci)
                  (list_elem_of_lookup_2 _ _ _ Hcj')).
    pose proof (Hord cj' ci (list_elem_of_lookup_2 _ _ _ Hcj')
                  (list_elem_of_lookup_2 _ _ _ Hci)).
    lia. }
  assert (v !! d = Some (int_of_byte cj)) as Hvd by (by apply Hlook).
  destruct (decide (i + d = length x)%nat) as [Hend|Hne].
  - assert (u = take d u) as ->.
    { symmetry. apply take_ge. unfold u. rewrite length_fmap, length_drop. lia. }
    rewrite Huv. rewrite <- (take_drop d v) at 2.
    apply lex_cmp_app_r. rewrite (drop_S _ _ _ Hvd). done.
  - destruct (lookup_lt_is_Some_2 x (i + d) ltac:(lia)) as [ci Hci].
    apply (lex_cmp_Lt_intro _ _ d (int_of_byte ci) (int_of_byte cj));
      [done | by apply Hlook | done |].
    apply Hord; [by eapply list_elem_of_lookup_2.. |].
    by rewrite <- (Hcode _ _ Hci), <- (Hcode _ _ Hcj).
Qed.

(** Whenever [PrefixDoubling] returns, the suffixes at the entries of the
    suffix array are in strictly increasing order as strings; zero bytes
    in [x] are letters like the others. *)
Lemma PrefixDoubling_suffix_lt (x : list byte) (sa : list Z) :
  PrefixDoubling x = Ok sa → len x + 1 ≤ 2 ^ 30 →
  ∀ p q a b, (p < q)%nat → sa !! p = Some a → sa !! q = Some b →
    suffix_lt x a b.
Proof.
  unfold PrefixDoubling, PrefixDoubling_loop. intros Hpd Hlen.
  apply bind_Ok in Hpd as (st & Hst & [= <-]).
  apply bind_Ok in Hst as (st0 & Hinit & Hloop).
  assert (len x + 1 ≤ max_int32) as Hlen' by (unfold max_int32; lia).
  pose proof (doubling_init_inv x st0 Hinit Hlen') as Hinv0.
  destruct (doubling_init_sem x st0 Hinit Hlen') as [Hc Hsem0].
  replace (len x + 1) with (Z.of_nat (S (length x))) in *
    by (unfold len; lia).
  destruct (doubling_loop_sem _ x _ st0 st Hloop Hlen Hc Hinv0 Hsem0)
    as (Hinv & (K & _ & _ & Hsorted & Hcmp & _ & Honto) & Hsig).
  pose proof Hinv as (Hp & Hlr & _).
  assert (NoDup (pd_rank st)) as Hndr.
  { apply (onto_NoDup _ (pd_sigma st)); [lia | done]. }
  assert (NoDup (pd_sa st)) as Hnd by (rewrite Hp; apply positions_NoDup).
  intros a b i j Hab Hi Hj.
  assert (0 ≤ i < Z.of_nat (S (length x))) as Hir.
  { apply positions_elem_of. rewrite <- Hp. by eapply list_elem_of_lookup_2. }
  assert (0 ≤ j < Z.of_nat (S (length x))) as Hjr.
  { apply positions_elem_of. rewrite <- Hp. by eapply list_elem_of_lookup_2. }
  pose proof (Hsorted a b i j Hab Hi Hj) as Hle.
  rewrite !rk_getr in Hle by lia.
  destruct (lookup_lt_is_Some_2 (pd_rank st) (Z.to_nat i) ltac:(lia)) as [ri Hri].
  destruct (lookup_lt_is_Some_2 (pd_rank st) (Z.to_nat j) ltac:(lia)) as [rj Hrj].
  assert (ri ≠ rj) as Hne.
  { intros <-. pose proof (NoDup_lookup _ _ _ _ Hndr Hri Hrj) as Hij.
    assert (i = j) as <- by lia.
    pose proof (NoDup_lookup _ _ _ _ Hnd Hi Hj). lia. }
  specialize (Hcmp (Z.to_nat i) (Z.to_nat j)).
  rewrite (getr_lookup _ _ _ Hri), (getr_lookup _ _ _ Hrj) in Hcmp, Hle.
  assert ((ri ?= rj) = Lt) as Hlt by (apply Z.compare_lt_iff; lia).
  rewrite Hlt in Hcmp.
  rewrite <- (Z2Nat.id i), <- (Z2Nat.id j) by lia.
  apply (pre_suffix_lt x (pd_rank st0) K); [done | lia | lia | done].
Qed.

(** Whenever [PrefixDoubling] returns, [checkSuffixArray] accepts its
    result and reports no error. *)
Lemma PrefixDoubling_checkSuffixArray (x : list byte) (sa : list Z) (e : nat) :
  PrefixDoubling x = Ok sa → len x + 1 ≤ 2 ^ 30 →
  checkSuffixArray x sa e = Ok (true, e).
Proof.
  intros Hsa Hlen.
  assert (len x + 1 ≤ max_int32) as Hlen' by (unfold max_int32; lia).
  destruct (PrefixDoubling_Ok x sa Hsa Hlen') as [Hperm _].
  assert (length sa = S (length x)) as Hls by by rewrite Hperm, positions_length.
  apply checkSuffixArray_complete.
  - right. unfold len. lia.
  - by rewrite Hls.
  - intros p a b Ha Hb.
    apply (PrefixDoubling_suffix_lt x sa Hsa Hlen p (S p)); [lia | done..].
Qed.

(** ** The state of the loop on exit *)





(** ** [Bwt] permutes the string *)

Lemma bwc_positions (x : list byte) :
  bwc x <$> positions (S (length x)) = x00 :: x.
Proof.
  rewrite positions_cons, fmap_cons, bwc_0. f_equal.
  apply list_eq. intros i. rewrite <- list_fmap_compose, list_lookup_fmap.
  destruct (Nat.lt_ge_cases i (length x)) as [Hlt|Hge].
  - rewrite positions_lookup by done. simpl.
    destruct (lookup_lt_is_Some_2 x i Hlt) as [c Hc].
    by rewrite (bwc_S x i c Hc), Hc.
  - rewrite (lookup_ge_None_2 x) by done.
    rewrite lookup_ge_None_2; [done|]. by rewrite positions_length.
Qed.

(** Whenever [Bwt] returns, its result is the characters of [x] and one
    sentinel, in some order. *)
Lemma Bwt_Permutation (x y : list byte) :
  Bwt x = Ok y → len x + 1 ≤ max_int32 → y ≡ₚ x00 :: x.
Proof.
  intros Hbwt Hlen.
  destruct (Bwt_Ok x y Hbwt) as (sa & Hsa & Hly & Hchar).
  destruct (PrefixDoubling_Ok x sa Hsa Hlen) as [Hperm _].
  assert (length sa = S (length x)) as Hls by by rewrite Hperm, positions_length.
  rewrite (Bwt_bwc x y sa); [|lia | done].
  by rewrite Hperm, bwc_positions.
Qed.

(** ** Where the tables and [Rbwt] panic *)

(** [NewOTab] with 256 rows returns on the strings that start with a
    character other than the sentinel, and on no other. *)
Lemma NewOTab_returns (y : list byte) :
  (∃ otab, NewOTab y 256 = Ok otab) ↔ ∃ b0, y !! 0%nat = Some b0 ∧ b0 ≠ x00.
Proof.
  split.
  - intros [otab Hnew]. unfold NewOTab in Hnew.
    apply bind_Ok in Hnew as (t & Ht & Hnew).
    apply bind_Ok in Hnew as (b0 & Hb0 & Hnew).
    apply bind_Ok in Hnew as (otab1 & Hset & _).
    apply index_Ok in Hb0 as [_ Hb0]. exists b0. split; [done|].
    intros ->. unfold OTab_set in Hset.
    apply bind_Ok in Hset as (t1 & Hst & _).
    apply store_Ok in Hst as [Hrange _].
    unfold OTab_offset in Hrange. cbn [ncol] in Hrange.
    change (int_of_byte x00) with 0 in Hrange.
    apply lookup_lt_Some in Hb0. unfold len in Hrange. lia.
  - intros (b0 & Hb0 & Hne).
    destruct (NewOTab_Rank y b0 Hb0 Hne) as (otab & Hnew & _). by exists otab.
Qed.

Lemma for_down_partial {St} (I : nat → St → Prop) (count : nat)
    (body : Z → St → result St) (s s' : St) :
  for_down count body s = Ok s' →
  I count s →
  (∀ c s s', (c < count)%nat → I (S c) s → body (Z.of_nat c) s = Ok s' →
     I c s') →
  I 0%nat s'.
Proof.
  revert s. induction count as [|c IH]; intros s Hloop H0 Hstep.
  - by injection Hloop as <-.
  - simpl in Hloop. apply bind_Ok in Hloop as (s1 & Hb & Hloop).
    apply (IH s1 Hloop).
    + apply (Hstep c s s1); [lia | done..].
    + intros c' s2 s3 Hc'. apply Hstep. lia.
Qed.

(** Whenever [Rbwt] returns, its argument starts with a character other
    than the sentinel, and the result is one character shorter and made of
    characters of the argument. *)
Lemma Rbwt_Ok (y x : list byte) :
  Rbwt y = Ok x →
  (∃ b0, y !! 0%nat = Some b0 ∧ b0 ≠ x00) ∧
  len x = len y - 1 ∧ Forall (λ c, c ∈ y) x.
Proof.
  unfold Rbwt. intros Hr.
  apply bind_Ok in Hr as (ctab & _ & Hr).
  apply bind_Ok in Hr as (otab & Hotab & Hr).
  apply bind_Ok in Hr as (x0 & Hx0 & Hr).
  apply bind_Ok in Hr as ([x1 i] & Hloop & [= <-]).
  assert (∃ b0, y !! 0%nat = Some b0 ∧ b0 ≠ x00) as Hhead
    by (apply NewOTab_returns; by exists otab).
  split; [done|].
  destruct Hhead as (b0 & Hb0 & _). apply lookup_lt_Some in Hb0.
  unfold make in Hx0. destruct (Z.ltb_spec (len y - 1) 0); [done|].
  injection Hx0 as <-.
  pose proof (for_down_partial
    (λ c '(xc, _), length xc = (length y - 1)%nat ∧
       ∀ m v, (c ≤ m)%nat → xc !! m = Some v → v ∈ y)
    _ _ _ _ Hloop) as Hfin.
  destruct Hfin as [Hl Hin].
  - split; [rewrite length_replicate; unfold len; lia|].
    intros m v Hm Hv. apply lookup_lt_Some in Hv.
    rewrite length_replicate in Hv. unfold len in *. lia.
  - intros c [xc j] [xc' j'] Hc [Hl Hin] Hbody.
    apply bind_Ok in Hbody as (a & Ha & Hbody).
    apply bind_Ok in Hbody as (x' & Hst & Hbody).
    apply bind_Ok in Hbody as (cr & _ & Hbody).
    apply bind_Ok in Hbody as (o & _ & [= <- <-]).
    apply store_Ok in Hst as [_ ->]. rewrite Nat2Z.id.
    split; [by rewrite length_insert|].
    intros m v Hm Hv. destruct (decide (m = c)) as [->|Hne].
    + rewrite list_lookup_insert_eq in Hv by lia. injection Hv as <-.
      apply index_Ok in Ha as [_ Ha]. by eapply list_elem_of_lookup_2.
    + rewrite list_lookup_insert_ne in Hv by done. apply (Hin m); [lia | done].
  - split; [unfold len; lia|]. apply Forall_lookup. intros m v Hv.
    apply (Hin m); [lia | done].
Qed.

(** ** A string with all the 256 byte values *)

Lemma codes_all_bytes (x : list byte) (alpha : list Z) (sigma : Z) :
  (∀ c : byte, c ∈ x) →
  (∀ c, c ∈ x → 1 ≤ code alpha c < sigma) →
  (∀ c d, c ∈ x → d ∈ x →
     (code alpha c < code alpha d ↔ int_of_byte c < int_of_byte d)) →
  257 ≤ sigma.
Proof.
  intros Hall Hcode Hord.
  set (l := (λ v, code alpha (byte_of_int v)) <$> seqZ 0 256).
  assert (NoDup l) as Hnd.
  { apply NoDup_fmap_2_strong; [|apply NoDup_seqZ].
    intros u v Hu%elem_of_seqZ Hv%elem_of_seqZ Heq.
    pose proof (Hord (byte_of_int u) (byte_of_int v) (Hall _) (Hall _)) as H1.
    pose proof (Hord (byte_of_int v) (byte_of_int u) (Hall _) (Hall _)) as H2.
    rewrite !int_of_byte_of_int in H1, H2 by lia. lia. }
  assert (l ⊆+ seqZ 1 (sigma - 1)) as Hsub.
  { apply NoDup_submseteq; [done|]. intros r Hr.
    apply list_elem_of_fmap in Hr as (v & -> & _). apply elem_of_seqZ.
    specialize (Hcode (byte_of_int v) (Hall _)). lia. }
  apply submseteq_length in Hsub.
  unfold l in Hsub. rewrite length_fmap, !length_seqZ in Hsub. lia.
Qed.

(** On a string in which all the 256 byte values occur, the letter 255 gets
    the code 256, and the first sort of [PrefixDoubling] panics. *)
Lemma PrefixDoubling_all_bytes (x : list byte) :
  (∀ c : byte, c ∈ x) → len x + 1 ≤ max_int32 →
  PrefixDoubling x = Panic.
Proof.
  intros Hall Hlen.
  assert (doubling_init x = Panic) as Hinit.
  { pose proof (nt_doubling_init x) as Hnt. unfold no_timeout in Hnt.
    destruct (doubling_init x) as [st| |] eqn:Hinit; [exfalso | done | done].
    unfold doubling_init in Hinit.
    replace (len x + 1) with (Z.of_nat (S (length x))) in *
      by (unfold len; lia).
    rewrite sa0_positions, Ok_bind in Hinit by done.
    unfold make in Hinit.
    destruct (Z.ltb_spec (len (positions (S (length x)))) 0) as [Hneg|_];
      [unfold len in Hneg; lia|].
    rewrite Ok_bind in Hinit.
    destruct (calcRank0_Ok x)
      as (alpha & rank & sigma & Hcalc & Hlr & Hrn & Hrank & Hsig & Hcode &
          Hord & Hsur).
    rewrite Hcalc, Ok_bind in Hinit.
    apply bind_Ok in Hinit as ([sa buf] & Hsort & _).
    apply radixSortBuckets_Ok in Hsort as (Hkeys & _).
    2:{ unfold len. by rewrite length_replicate, Nat2Z.id. }
    2:{ unfold len. rewrite positions_length. lia. }
    pose proof (codes_all_bytes x alpha sigma Hall Hcode Hord) as H257.
    destruct (Hsur 256 ltac:(lia)) as (c & Hc & Hc256).
    apply list_elem_of_lookup_1 in Hc as [i Hi].
    apply lookup_lt_Some in Hi as Hlt.
    assert (Z.of_nat i ∈ positions (S (length x))) as Hpos
      by (apply positions_elem_of; lia).
    rewrite Forall_forall in Hkeys.
    destruct (Hkeys _ Hpos) as [Hget Hbyte].
    unfold getRank, add32 in Hget.
    rewrite Z.add_0_r, wrap32_small in Hget by (unfold max_int32 in Hlen; lia).
    destruct (Z.ltb_spec (Z.of_nat i) (len rank)) as [_|Hge];
      [|unfold len in Hge; lia].
    rewrite (index_lookup rank i _ (Hrank _ _ Hi)) in Hget.
    injection Hget as Hget. lia. }
  unfold PrefixDoubling, PrefixDoubling_loop. by rewrite Hinit.
Qed.

(** ** The tests and their random strings *)

(** The alphabet of the tests, ["acgt"]. *)
Definition acgt : list byte := bytes_of [97; 99; 103; 116].

Section random.

(** The random number generator of the tests, [*rand.Rand]: its state, and
    [rng.Intn(n)], which panics when [n <= 0] and otherwise returns a number
    from 0 to [n - 1] and leaves the generator in a new state. The seed is
    taken from the clock by [newRandomSeed]: the tests are run from any
    state. *)
Variable Rng : Type.
Variable Intn : Rng → Z → result (Z * Rng).
Hypothesis Intn_range : ∀ rng n, 0 < n →
  ∃ v rng', Intn rng n = Ok (v, rng') ∧ 0 ≤ v < n.
Hypothesis Intn_panics : ∀ rng n, n ≤ 0 → Intn rng n = Panic.

(** [bytes[i] = alpha[rng.Intn(len(alpha))]] *)
Definition random_body (alpha : list byte) (i : Z) (st : list byte * Rng)
  : result (list byte * Rng) :=
  let '(bytes, rng) := st in
  '(v, rng) ← Intn rng (len alpha);
  c ← index alpha v;
  bytes ← store bytes i c;
  Ok (bytes, rng).

Definition randomStringN (n : Z) (alpha : list byte) (rng : Rng)
  : result (list byte * Rng) :=
  bytes ← make n x00;
  for_loop (Z.to_nat n) 0 (random_body alpha) (bytes, rng).

(** The body of the loop of [TestSaConstruction]; the state is the generator
    and the number of errors reported to [t]. *)
Definition sa_test_body (i : Z) (st : Rng * nat) : result (Rng * nat) :=
  let '(rng, errs) := st in
  '(x, rng) ← randomStringN 10 acgt rng;
  sa ← PrefixDoubling x;
  '(_, errs) ← checkSuffixArray x sa errs;
  Ok (rng, errs).

Definition TestSaConstruction (rng : Rng) : result (Rng * nat) :=
  for_loop 10 0 sa_test_body (rng, 0%nat).

(** The body of the loop of [TestBwt]. *)
Definition bwt_test_body (i : Z) (st : Rng * nat) : result (Rng * nat) :=
  let '(rng, errs) := st in
  '(x, rng) ← randomStringN 10 acgt rng;
  y ← Bwt x;
  z ← Rbwt y;
  Ok (rng, if decide (x = z) then errs else S errs).

Definition TestBwt (rng : Rng) : result (Rng * nat) :=
  for_loop 10 0 bwt_test_body (rng, 0%nat).

Lemma randomStringN_Ok (n : Z) (alpha : list byte) (rng : Rng) :
  0 ≤ n → alpha ≠ [] →
  ∃ s rng', randomStringN n alpha rng = Ok (s, rng') ∧
            len s = n ∧ Forall (λ c, c ∈ alpha) s.
Proof.
  intros Hn Halpha. unfold randomStringN, make.
  destruct (Z.ltb_spec n 0); [lia|]. rewrite Ok_bind.
  pose proof (len_pos alpha Halpha) as Hpos.
  destruct (for_loop_total
    (λ i '(bytes, _), len bytes = n ∧
       ∀ m c, Z.of_nat m < i → bytes !! m = Some c → c ∈ alpha)
    (Z.to_nat n) 0 (random_body alpha) (replicate (Z.to_nat n) x00, rng))
    as ([s rng'] & Hloop & Hl & Hs).
  - split; [rewrite len_replicate; lia|]. intros; lia.
  - intros i [bytes r] Hi [Hl Hin]. unfold random_body.
    destruct (Intn_range r (len alpha) Hpos) as (v & r' & -> & Hv).
    rewrite Ok_bind.
    destruct (index_in_range alpha v Hv) as (c & -> & Hc). rewrite Ok_bind.
    rewrite store_in_range, Ok_bind by lia.
    eexists. split; [done|]. split; [by rewrite len_insert|].
    intros m c' Hm Hc'. destruct (decide (m = Z.to_nat i)) as [->|Hne].
    + rewrite list_lookup_insert_eq in Hc' by (unfold len in *; lia).
      injection Hc' as <-. by eapply list_elem_of_lookup_2.
    + rewrite list_lookup_insert_ne in Hc' by done. apply (Hin m); [lia | done].
  - exists s, rng'. split; [done|]. split; [done|].
    apply Forall_lookup. intros m c Hc. apply (Hs m); [|done].
    apply lookup_lt_Some in Hc. unfold len in *. lia.
Qed.

Lemma randomStringN_Panic (n : Z) (alpha : list byte) (rng : Rng) :
  n < 0 ∨ (0 < n ∧ alpha = []) → randomStringN n alpha rng = Panic.
Proof.
  unfold randomStringN, make. intros [Hn|[Hn ->]].
  - by destruct (Z.ltb_spec n 0); [|lia].
  - destruct (Z.ltb_spec n 0); [lia|]. rewrite Ok_bind.
    destruct (Z.to_nat n) as [|m] eqn:Hm; [lia|]. simpl.
    by rewrite Intn_panics.
Qed.

Lemma acgt_no_zero (x : list byte) :
  Forall (λ c, c ∈ acgt) x → Forall (λ c, c ≠ x00) x.
Proof.
  intros Hx. eapply Forall_impl; [done|]. intros c Hc ->. vm_compute in Hc.
  repeat (apply elem_of_cons in Hc as [Hc|Hc]; [done|]).
  by apply elem_of_nil in Hc.
Qed.

(** [TestSaConstruction] reports no error, whatever the generator draws. *)
Lemma TestSaConstruction_passes (rng : Rng) :
  ∃ rng', TestSaConstruction rng = Ok (rng', 0%nat).
Proof.
  unfold TestSaConstruction.
  destruct (for_loop_total (λ _ st, st.2 = 0%nat) 10 0 sa_test_body
              (rng, 0%nat)) as ([rng' e] & Hloop & He); [done | |].
  - intros i [r e] _ He. simpl in He. subst e. unfold sa_test_body.
    destruct (randomStringN_Ok 10 acgt r) as (x & r' & -> & Hlen & _);
      [lia | done |].
    rewrite Ok_bind.
    destruct (PrefixDoubling_total x ltac:(lia)) as (sa & Hsa).
    rewrite Hsa, Ok_bind.
    rewrite (PrefixDoubling_checkSuffixArray x sa 0 Hsa) by lia.
    rewrite Ok_bind. by eexists.
  - simpl in He. subst e. by exists rng'.
Qed.

(** [TestBwt] reports no error, whatever the generator draws. *)
Lemma TestBwt_passes (rng : Rng) :
  ∃ rng', TestBwt rng = Ok (rng', 0%nat).
Proof.
  unfold TestBwt.
  destruct (for_loop_total (λ _ st, st.2 = 0%nat) 10 0 bwt_test_body
              (rng, 0%nat)) as ([rng' e] & Hloop & He); [done | |].
  - intros i [r e] _ He. simpl in He. subst e. unfold bwt_test_body.
    destruct (randomStringN_Ok 10 acgt r) as (x & r' & -> & Hlen & Hx);
      [lia | done |].
    rewrite Ok_bind.
    destruct (PrefixDoubling_total x ltac:(lia)) as (sa & Hsa).
    destruct (Bwt_total x sa Hsa) as (y & Hy); [unfold max_int32; lia|].
    rewrite Hy, Ok_bind.
    rewrite (Rbwt_Bwt_Ok x y Hy); [| | by apply acgt_no_zero | lia].
    2:{ intros ->. unfold len in Hlen. simpl in Hlen. lia. }
    rewrite Ok_bind. rewrite decide_True by done. by eexists.
  - simpl in He. subst e. by exists rng'.
Qed.

End random.

(** ** Runs of the package on the test data *)

Example PrefixDoubling_mississippi :
  PrefixDoubling mississippi = Ok [11; 10; 7; 4; 1; 0; 9; 8; 6; 3; 5; 2].
Proof. vm_compute. reflexivity. Qed.

Example Bwt_mississippi :
  Bwt mississippi =
  Ok (bytes_of [105; 112; 115; 115; 109; 0; 112; 105; 115; 115; 105; 105]).
Proof. vm_compute. reflexivity. Qed.

Example Rbwt_mississippi : Bwt mississippi ≫= Rbwt = Ok mississippi.
Proof. vm_compute. reflexivity. Qed.

Example PrefixDoubling_aaaa : PrefixDoubling aaaa = Ok [4; 3; 2; 1; 0].
Proof. vm_compute. reflexivity. Qed.

Example Rbwt_aaaa : Bwt aaaa ≫= Rbwt = Ok aaaa.
Proof. vm_compute. reflexivity. Qed.

Example long_input_no_zero : Forall (λ c, c ≠ x00) long_input.
Proof.
  apply (@bool_decide_unpack _ (Forall_dec (λ c, c ≠ x00) long_input)).
  vm_compute. exact I.
Qed.


(** The run of [PrefixDoubling] on [long_input]: the loop is entered with
    256 ranks for 259 suffixes, the first round ends with 257 ranks, the
    second round panics. *)
Lemma long_input_run :
  ∃ st0 st1,
    doubling_init long_input = Ok st0 ∧ pd_sigma st0 = 256 ∧
    doubling_round st0 = Ok st1 ∧ pd_sigma st1 = 257 ∧
    doubling_round st1 = Panic.
Proof.
  eexists. eexists.
  split; [vm_compute; reflexivity|].
  split; [reflexivity|].
  split; [vm_compute; reflexivity|].
  split; [reflexivity|].
  vm_compute. reflexivity.
Qed.

Lemma PrefixDoubling_loop_long_input : PrefixDoubling_loop long_input = Panic.
Proof.
  destruct long_input_run as (st0 & st1 & H0 & Hs0 & H1 & Hs1 & H2).
  unfold PrefixDoubling_loop. rewrite H0, Ok_bind.
  change (len long_input + 1) with 259.
  unfold doubling_fuel. rewrite doubling_loop_unfold, Hs0.
  change (256 <? 259) with true. cbv iota. rewrite H1, Ok_bind.
  rewrite doubling_loop_unfold, Hs1.
  change (257 <? 259) with true. cbv iota. rewrite H2. done.
Qed.

Lemma PrefixDoubling_long_input : PrefixDoubling long_input = Panic.
Proof. unfold PrefixDoubling. by rewrite PrefixDoubling_loop_long_input. Qed.

Lemma Bwt_long_input : Bwt long_input = Panic.
Proof. unfold Bwt. by rewrite PrefixDoubling_long_input. Qed.

(** ** The claims *)

(** C1. The round trip [Rbwt(Bwt(x)) == x] is not what the code does on
    every string without a zero byte: on the empty string [Bwt] returns the
    sentinel alone and [Rbwt] panics on it, and on [long_input] the call of
    [Bwt] itself panics. *)
Theorem Rbwt_Bwt_panics :
  Bwt [] ≫= Rbwt = Panic ∧ Bwt long_input ≫= Rbwt = Panic.
Proof.
  split; [vm_compute; reflexivity|]. by rewrite Bwt_long_input.
Qed.

(** C2. [PrefixDoubling] panics on [long_input], a string of 258 bytes
    without a zero byte, instead of returning its suffix array. *)
Theorem PrefixDoubling_long_input_panics :
  length long_input = 258%nat ∧ Forall (λ c, c ≠ x00) long_input ∧
  PrefixDoubling long_input = Panic.
Proof.
  split; [vm_compute; reflexivity|]. split; [apply long_input_no_zero|].
  apply PrefixDoubling_long_input.
Qed.

(** C3. On the empty string [PrefixDoubling] returns [[0]] and [Bwt]
    returns the sentinel byte alone, but [Rbwt] of that one-byte string
    panics: [NewOTab] stores the count of the first character, the sentinel,
    in the row before the first row of the table. *)
Theorem empty_string_scenario :
  PrefixDoubling [] = Ok [0] ∧ Bwt [] = Ok [x00] ∧
  NewOTab [x00] 256 = Panic ∧ Rbwt [x00] = Panic.
Proof. split; [|split; [|split]]; vm_compute; reflexivity. Qed.

(** C4, as stated, fails for the sentinel: the table has no row for it,
    and on the BWT of the one-byte string [1] the call of [NewOTab] returns
    a table on which the query [Rank(0, 2)] panics, although the sentinel
    occurs once among the two characters. *)
Lemma OTab_Rank_sentinel_panics :
  Bwt [x01] = Ok [x01; x00] ∧
  len (filter (λ c, c = x00) (take (Z.to_nat 2) [x01; x00])) = 1 ∧
  (otab ← NewOTab [x01; x00] 256; Ok (OTab_Rank otab x00 2)) = Ok Panic.
Proof. split; [|split]; vm_compute; reflexivity. Qed.

(** C4, amended. For every BWT string [y] that [Bwt] returns on a
    non-empty string [x] without zero byte whose [len(x)+1] suffixes are
    counted by an [int32], [NewOTab] with domain size 256 returns a table
    whose [Rank(a, 0)] is 0 for every symbol [a], and whose [Rank(a, i)] is
    the number of occurrences of [a] in [y[0:i]] for every symbol [a] other
    than the sentinel and every [i] from 0 to [len(y)]; so [Rank(a, len(y))]
    is the number of occurrences of [a] in the whole of [y]. *)
Theorem OTab_Rank_counts_prefix (x y : list byte) :
  x ≠ [] → Forall (λ c, c ≠ x00) x → len x + 1 ≤ max_int32 →
  Bwt x = Ok y →
  ∃ otab, NewOTab y 256 = Ok otab ∧
    (∀ a, OTab_Rank otab a 0 = Ok 0) ∧
    (∀ a i, a ≠ x00 → 0 ≤ i ≤ len y →
       OTab_Rank otab a i =
       Ok (len (filter (λ c, c = a) (take (Z.to_nat i) y)))).
Proof.
  intros Hx Hnz Hlen Hbwt.
  destruct (Bwt_head x y Hbwt Hx Hnz Hlen) as (b0 & Hb0 & Hne).
  by apply (NewOTab_Rank y b0).
Qed.

Lemma OTab_Rank_counts_prefix_witness :
  ∃ otab, NewOTab [x01; x00] 256 = Ok otab ∧
    (∀ a, OTab_Rank otab a 0 = Ok 0) ∧
    (∀ a i, a ≠ x00 → 0 ≤ i ≤ len [x01; x00] →
       OTab_Rank otab a i =
       Ok (len (filter (λ c, c = a) (take (Z.to_nat i) [x01; x00])))).
Proof.
  apply (OTab_Rank_counts_prefix [x01] [x01; x00]).
  - discriminate.
  - repeat constructor. discriminate.
  - vm_compute. discriminate.
  - vm_compute. reflexivity.
Defined.

(** C5. For every byte string and domain size 256, [NewCTab] returns a
    table whose [Rank] of a byte is the number of characters of the string
    strictly smaller than that byte, and whose [Rank] does not decrease from
    a byte to a larger one. *)
Theorem CTab_Rank_counts_smaller (bwt : list byte) :
  ∃ ctab, NewCTab bwt 256 = Ok ctab ∧
    (∀ a, CTab_Rank ctab a =
          Ok (len (filter (λ c, int_of_byte c < int_of_byte a) bwt))) ∧
    (∀ a b, int_of_byte a < int_of_byte b →
       ∃ ra rb, CTab_Rank ctab a = Ok ra ∧ CTab_Rank ctab b = Ok rb ∧ ra ≤ rb).
Proof.
  destruct (NewCTab_256 bwt) as (ctab & Hnew & Hrank).
  exists ctab. split; [done|]. split; [apply Hrank|].
  intros a b Hab. exists (below (int_of_byte a) bwt), (below (int_of_byte b) bwt).
  split; [apply Hrank|]. split; [apply Hrank|]. apply below_mono. lia.
Qed.

(** ** The O-table *)

(** C6. [Bwt] panics on [long_input] and returns no string of length
    [len(x)+1]. *)
Theorem Bwt_long_input_panics :
  Forall (λ c, c ≠ x00) long_input ∧ Bwt long_input = Panic.
Proof. split; [apply long_input_no_zero | apply Bwt_long_input]. Qed.

(** C7. On [long_input] the loop of [PrefixDoubling] is entered with
    [sigma = 256], below the 259 suffixes, reaches [sigma = 257] after one
    round and ends in a panic in its second round: it never exits with
    [sigma] equal to [len(x)+1]. *)
Theorem doubling_loop_long_input_panics :
  len long_input + 1 = 259 ∧
  (∃ st0 st1,
     doubling_init long_input = Ok st0 ∧ pd_sigma st0 = 256 ∧
     doubling_round st0 = Ok st1 ∧ pd_sigma st1 = 257 ∧
     doubling_round st1 = Panic) ∧
  PrefixDoubling_loop long_input = Panic.
Proof.
  split; [vm_compute; reflexivity|].
  split; [apply long_input_run | apply PrefixDoubling_loop_long_input].
Qed.

(** C8. [radixSortBuckets] panics as soon as a key does not fit in one
    byte: with the single key 256 the first pass indexes its 256 buckets at
    256. *)
Theorem radixSortBuckets_key_256_panics :
  getRank [256] (add32 0 0) = Ok 256 ∧
  radixSortBuckets [256] [0] [0] 0 = Panic.
Proof. split; vm_compute; reflexivity. Qed.

(** C10. [Bwt] returns no string on [long_input], so no string with the
    sentinel at exactly one position. *)
Theorem Bwt_long_input_no_output :
  ¬ ∃ y, Bwt long_input = Ok y ∧ len (filter (λ c, c = x00) y) = 1.
Proof. intros (y & Hy & _). by rewrite Bwt_long_input in Hy. Qed.

(** C9. The key [int64(r)<<32 | int64(s)] built by [updateRank] orders rank
    pairs lexicographically: for ranks between 0 and a string length [n]
    that an [int32] holds, one packed key is below another exactly when its
    pair comes first in lexicographic order, and two packed keys are equal
    exactly when the pairs are. *)
Theorem pack_lexicographic (n r1 s1 r2 s2 : Z) :
  n ≤ max_int32 →
  0 ≤ r1 ≤ n → 0 ≤ s1 ≤ n → 0 ≤ r2 ≤ n → 0 ≤ s2 ≤ n →
  (pack r1 s1 < pack r2 s2 ↔ r1 < r2 ∨ (r1 = r2 ∧ s1 < s2)) ∧
  (pack r1 s1 = pack r2 s2 ↔ r1 = r2 ∧ s1 = s2).
Proof.
  intros Hn Hr1 Hs1 Hr2 Hs2.
  rewrite !pack_value by lia. unfold max_int32 in Hn. lia.
Qed.

Lemma pack_lexicographic_witness :
  (pack 3 7 < pack 4 1 ↔ 3 < 4 ∨ (3 = 4 ∧ 7 < 1)) ∧
  (pack 3 7 = pack 4 1 ↔ 3 = 4 ∧ 7 = 1).
Proof.
  apply (pack_lexicographic 11 3 7 4 1); unfold max_int32; lia.
Defined.

(** * Further properties of the code *)

(** ** The parts of the suffix array construction *)

(** X1. [sa0(n)] panics for a negative [n] and returns the indices
    0, 1, ..., [n - 1] in this order for every other [n] that an [int32]
    holds. *)
Theorem sa0_indices (n : Z) :
  n ≤ max_int32 →
  sa0 n = if n <? 0 then Panic else Ok (positions (Z.to_nat n)).
Proof.
  intros Hn. destruct (Z.ltb_spec n 0) as [Hneg|Hpos].
  - unfold sa0, make. by destruct (Z.ltb_spec n 0); [|lia].
  - rewrite <- (Z2Nat.id n) at 1 by done. apply sa0_positions. lia.
Qed.

Lemma sa0_indices_witness :
  sa0 3 = if 3 <? 0 then Panic else Ok (positions (Z.to_nat 3)).
Proof. apply (sa0_indices 3). unfold max_int32. lia. Defined.

(** X2. [calcRank0] never panics. The rank array has one entry more than
    the string has letters, the last entry is 0, the entries of the letters
    lie from 1 to [sigma - 1] and compare as the letters do, every number
    from 1 to [sigma - 1] is the rank of a letter, and [sigma] is at most
    257. *)
Theorem calcRank0_ranks (x : list byte) :
  ∃ rank sigma,
    calcRank0 x = Ok (rank, sigma) ∧
    length rank = S (length x) ∧ rank !! length x = Some 0 ∧
    1 ≤ sigma ≤ 257 ∧
    (∀ i c, x !! i = Some c → ∃ r, rank !! i = Some r ∧ 1 ≤ r < sigma) ∧
    (∀ i j c d ri rj, x !! i = Some c → x !! j = Some d →
       rank !! i = Some ri → rank !! j = Some rj →
       (ri < rj ↔ int_of_byte c < int_of_byte d)) ∧
    (∀ v, 1 ≤ v < sigma → ∃ i, (i < length x)%nat ∧ rank !! i = Some v).
Proof.
  destruct (calcRank0_Ok x)
    as (alpha & rank & sigma & Hcalc & Hlr & Hrn & Hrank & Hsig & Hcode &
        Hord & Hsur).
  exists rank, sigma. split; [done|]. split; [done|]. split; [done|].
  split; [done|]. split; [|split].
  - intros i c Hc. exists (code alpha c). split; [by apply Hrank|].
    apply Hcode. by eapply list_elem_of_lookup_2.
  - intros i j c d ri rj Hc Hd Hri Hrj.
    rewrite (Hrank _ _ Hc) in Hri. rewrite (Hrank _ _ Hd) in Hrj.
    injection Hri as <-. injection Hrj as <-.
    apply Hord; by eapply list_elem_of_lookup_2.
  - intros v Hv. destruct (Hsur v Hv) as (c & Hc & <-).
    apply list_elem_of_lookup_1 in Hc as [i Hi]. exists i.
    split; [by apply lookup_lt_Some in Hi | by apply Hrank].
Qed.

(** X3. [radixSortBuckets] returns exactly when every key
    [getRank(rank, sa[i]+k)] is read without a panic and lies from 0 to 255;
    with any other key it panics on its bucket array. *)
Theorem radixSortBuckets_returns (rank sa buf : list Z) (k : Z) :
  length buf = length sa → len sa ≤ max_int32 →
  (∃ r, radixSortBuckets rank sa buf k = Ok r) ↔
  Forall (λ s, ∃ key, getRank rank (add32 s k) = Ok key ∧ 0 ≤ key < 256) sa.
Proof.
  intros Hb Hlen. split.
  - intros [[sa' buf'] Hsort].
    apply radixSortBuckets_Ok in Hsort as (Hkeys & _); [|done..].
    eapply Forall_impl; [done|]. intros s [Hget Hkey]. by eexists.
  - intros Hkeys. rewrite radixSortBuckets_byte_keys; [by eexists | done..|].
    eapply Forall_impl; [done|]. intros s (key & Hget & Hkey).
    unfold byte_key. by rewrite (getRank_sort_key _ _ _ _ Hget).
Qed.

Lemma radixSortBuckets_returns_witness :
  (∃ r, radixSortBuckets [1; 0] [0; 1] [0; 0] 0 = Ok r) ↔
  Forall (λ s, ∃ key, getRank [1; 0] (add32 s 0) = Ok key ∧ 0 ≤ key < 256)
    [0; 1].
Proof.
  apply (radixSortBuckets_returns [1; 0] [0; 1] [0; 0] 0);
    [reflexivity | vm_compute; discriminate].
Defined.



(** X5. Whenever [radixSort] returns on an array that was in non-decreasing
    order of [rank[sa[i]]], with ranks from 0 up to the largest [int32], the
    array holds the same elements in non-decreasing lexicographic order of
    the pairs [rank[sa[i]]], [getRank(rank, sa[i]+k)]. *)
Theorem radixSort_pairs (k : Z) (rank sa buf sa' buf' : list Z) :
  radixSort k rank sa buf = Ok (sa', buf') →
  length buf = length sa → len sa ≤ max_int32 →
  Forall (λ r, 0 ≤ r ≤ max_int32) rank →
  (∀ p q s t, (p < q)%nat → sa !! p = Some s → sa !! q = Some t →
     rk rank s ≤ rk rank t) →
  sa' ≡ₚ sa ∧
  ∀ p q s t, (p < q)%nat → sa' !! p = Some s → sa' !! q = Some t →
    rk rank s < rk rank t ∨
    (rk rank s = rk rank t ∧ sort_key rank k s ≤ sort_key rank k t).
Proof.
  intros Hsort Hb Hlen Hr Hsorted.
  pose proof (radixSort_Ok _ _ _ _ _ _ Hsort Hb Hlen) as [Hperm _].
  pose proof (radixSort_sorted _ _ _ _ _ _ Hsort Hb Hlen Hr Hsorted) as Hpairs.
  split; [done|]. intros p q s t Hpq Hs Ht.
  specialize (Hpairs p q s t Hpq Hs Ht).
  rewrite !pair_key_value in Hpairs by done.
  pose proof (sort_key_in_range rank k s Hr).
  pose proof (sort_key_in_range rank k t Hr).
  unfold max_int32 in *. lia.
Qed.

Lemma radixSort_pairs_witness :
  [2; 1; 0] ≡ₚ [2; 0; 1] ∧
  ∀ p q s t, (p < q)%nat → [2; 1; 0] !! p = Some s → [2; 1; 0] !! q = Some t →
    rk [1; 1; 0] s < rk [1; 1; 0] t ∨
    (rk [1; 1; 0] s = rk [1; 1; 0] t ∧
     sort_key [1; 1; 0] 1 s ≤ sort_key [1; 1; 0] 1 t).
Proof.
  apply (radixSort_pairs 1 [1; 1; 0] [2; 0; 1] [2; 0; 1] [2; 1; 0] [2; 1; 0]).
  - vm_compute. reflexivity.
  - reflexivity.
  - vm_compute. discriminate.
  - repeat constructor; vm_compute; discriminate.
  - intros p q s t Hpq Hs Ht.
    destruct p as [|[|[|p]]]; destruct q as [|[|[|q]]];
      try lia; try discriminate;
      injection Hs as <-; injection Ht as <-; vm_compute; discriminate.
Defined.

(** X6. Whenever [updateRank] returns on an array without duplicates that
    is in non-decreasing order of the packed pairs, the numbers it has
    written in [out] compare as the pairs of their elements do, the first
    element has the number 0, and [sigma] is one more than the number of
    the last element. *)
Theorem updateRank_ranks (sa rank out out' : list Z) (k sigma : Z) :
  updateRank sa rank out k = Ok (out', sigma) →
  NoDup sa → len sa ≤ max_int32 →
  (∀ p q s t, (p < q)%nat → sa !! p = Some s → sa !! q = Some t →
     pair_key rank k s ≤ pair_key rank k t) →
  length out' = length out ∧
  (∀ p q s t, sa !! p = Some s → sa !! q = Some t →
     ∃ a b, out' !! Z.to_nat s = Some a ∧ out' !! Z.to_nat t = Some b ∧
            (a ?= b) = (pair_key rank k s ?= pair_key rank k t)) ∧
  (∀ s, sa !! 0%nat = Some s → out' !! Z.to_nat s = Some 0) ∧
  (∀ s, last sa = Some s →
     ∃ a, out' !! Z.to_nat s = Some a ∧ sigma = a + 1).
Proof.
  intros Hup Hnd Hlen Hsorted.
  apply updateRank_Ok in Hup as (Hl & Hout & a_last & Hlast & ->); [|done..].
  set (keys := pair_key rank k <$> sa) in *.
  assert (∀ i j a b, (i < j)%nat → keys !! i = Some a → keys !! j = Some b →
                     a ≤ b) as Hkeys.
  { intros i j a b Hij Hi Hj. unfold keys in Hi, Hj.
    rewrite list_lookup_fmap in Hi, Hj.
    destruct (sa !! i) as [s|] eqn:Hsi; [|done].
    destruct (sa !! j) as [t|] eqn:Hsj; [|done].
    injection Hi as <-. injection Hj as <-. by apply (Hsorted i j). }
  assert (∀ p s, sa !! p = Some s →
    ∃ a, new_ranks keys !! p = Some a ∧ out' !! Z.to_nat s = Some a ∧
         keys !! p = Some (pair_key rank k s)) as Hnew.
  { intros p s Hs. destruct (Hout _ _ Hs) as [_ Hlook].
    assert (is_Some (new_ranks keys !! p)) as [a Ha].
    { apply lookup_lt_is_Some. unfold keys.
      rewrite new_ranks_length, length_fmap. by apply lookup_lt_Some in Hs. }
    exists a. split; [done|]. split; [congruence|].
    unfold keys. by rewrite list_lookup_fmap, Hs. }
  split; [done|]. split; [|split].
  - intros p q s t Hs Ht.
    destruct (Hnew _ _ Hs) as (a & Ha & Hoa & Hka).
    destruct (Hnew _ _ Ht) as (b & Hb & Hob & Hkb).
    exists a, b. split; [done|]. split; [done|].
    by apply (new_ranks_compare keys p q a b _ _ Hkeys).
  - intros s Hs. destruct (Hnew _ _ Hs) as (a & Ha & Hoa & Hka).
    rewrite (new_ranks_head _ _ Hka) in Ha. by injection Ha as <-.
  - intros s Hs. rewrite last_lookup in Hs.
    destruct (Hnew _ _ Hs) as (a & Ha & Hoa & _).
    exists a. split; [done|].
    rewrite last_lookup, new_ranks_length in Hlast.
    replace (length keys) with (length sa) in Hlast
      by (unfold keys; by rewrite length_fmap).
    rewrite Ha in Hlast. by injection Hlast as <-.
Qed.

Lemma updateRank_ranks_witness :
  length [2; 1; 0] = length [0; 0; 0] ∧
  (∀ p q s t, [2; 1; 0] !! p = Some s → [2; 1; 0] !! q = Some t →
     ∃ a b, [2; 1; 0] !! Z.to_nat s = Some a ∧
            [2; 1; 0] !! Z.to_nat t = Some b ∧
            (a ?= b) = (pair_key [1; 1; 0] 1 s ?= pair_key [1; 1; 0] 1 t)) ∧
  (∀ s, [2; 1; 0] !! 0%nat = Some s → [2; 1; 0] !! Z.to_nat s = Some 0) ∧
  (∀ s, last [2; 1; 0] = Some s →
     ∃ a, [2; 1; 0] !! Z.to_nat s = Some a ∧ 3 = a + 1).
Proof.
  apply (updateRank_ranks [2; 1; 0] [1; 1; 0] [0; 0; 0] [2; 1; 0] 1 3).
  - vm_compute. reflexivity.
  - apply (bool_decide_unpack _). vm_compute. exact I.
  - vm_compute. discriminate.
  - intros p q s t Hpq Hs Ht.
    destruct p as [|[|[|p]]]; destruct q as [|[|[|q]]];
      try lia; try discriminate;
      injection Hs as <-; injection Ht as <-; vm_compute; discriminate.
Defined.

(** ** The suffix array *)

(** Two letters, ["ab"]. *)
Definition ab : list byte := bytes_of [97; 98].

(** X7. Whenever [PrefixDoubling] returns, on a string of less than [2^30]
    bytes, zero bytes or not, the array holds every position from 0 to
    [len(x)] once, the first entry is [len(x)], and the suffixes [x[sa[i]:]]
    are in strictly increasing order as strings. *)
Theorem PrefixDoubling_suffix_array (x : list byte) (sa : list Z) :
  PrefixDoubling x = Ok sa → len x + 1 ≤ 2 ^ 30 →
  sa ≡ₚ positions (S (length x)) ∧ sa !! 0%nat = Some (len x) ∧
  ∀ p q a b, (p < q)%nat → sa !! p = Some a → sa !! q = Some b →
    string_cmp (drop (Z.to_nat a) x) (drop (Z.to_nat b) x) = Lt.
Proof.
  intros Hsa Hlen.
  destruct (PrefixDoubling_Ok x sa Hsa) as [Hperm Hhead];
    [unfold max_int32; lia|].
  split; [done|]. split; [done|].
  apply (PrefixDoubling_suffix_lt x sa Hsa Hlen).
Qed.

Lemma PrefixDoubling_suffix_array_witness :
  [2; 0; 1] ≡ₚ positions (S (length ab)) ∧
  [2; 0; 1] !! 0%nat = Some (len ab) ∧
  ∀ p q a b, (p < q)%nat → [2; 0; 1] !! p = Some a → [2; 0; 1] !! q = Some b →
    string_cmp (drop (Z.to_nat a) ab) (drop (Z.to_nat b) ab) = Lt.
Proof.
  apply (PrefixDoubling_suffix_array ab [2; 0; 1]);
    [vm_compute; reflexivity | vm_compute; discriminate].
Defined.

(** X8. Whenever [PrefixDoubling] returns, on a string without zero byte of
    less than [2^30] bytes, the suffixes with the sentinel 0 at their end
    are in strictly increasing lexicographic order along the array. *)
Theorem PrefixDoubling_padded_suffixes (x : list byte) (sa : list Z) :
  PrefixDoubling x = Ok sa → Forall (λ c, c ≠ x00) x → len x + 1 ≤ 2 ^ 30 →
  ∀ p q a b, (p < q)%nat → sa !! p = Some a → sa !! q = Some b →
    lex_cmp (padded_suffix x a) (padded_suffix x b) = Lt.
Proof. apply PrefixDoubling_sorted. Qed.

Lemma PrefixDoubling_padded_suffixes_witness :
  lex_cmp (padded_suffix ab 2) (padded_suffix ab 0) = Lt.
Proof.
  apply (PrefixDoubling_padded_suffixes ab [2; 0; 1]) with (p := 0%nat) (q := 1%nat).
  - vm_compute. reflexivity.
  - repeat constructor; discriminate.
  - vm_compute. discriminate.
  - lia.
  - reflexivity.
  - reflexivity.
Defined.

(** X9. On every string of at most 255 bytes [PrefixDoubling] returns: no
    rank reaches 256, and the array it returns is the suffix array. *)
Theorem PrefixDoubling_short (x : list byte) :
  len x ≤ 255 →
  ∃ sa, PrefixDoubling x = Ok sa ∧
    sa ≡ₚ positions (S (length x)) ∧
    ∀ p q a b, (p < q)%nat → sa !! p = Some a → sa !! q = Some b →
      string_cmp (drop (Z.to_nat a) x) (drop (Z.to_nat b) x) = Lt.
Proof.
  intros Hlen. destruct (PrefixDoubling_total x Hlen) as (sa & Hsa).
  exists sa. split; [done|].
  destruct (PrefixDoubling_Ok x sa Hsa) as [Hperm _]; [unfold max_int32; lia|].
  split; [done|]. apply (PrefixDoubling_suffix_lt x sa Hsa). lia.
Qed.

Lemma PrefixDoubling_short_witness :
  ∃ sa, PrefixDoubling ab = Ok sa ∧
    sa ≡ₚ positions (S (length ab)) ∧
    ∀ p q a b, (p < q)%nat → sa !! p = Some a → sa !! q = Some b →
      string_cmp (drop (Z.to_nat a) ab) (drop (Z.to_nat b) ab) = Lt.
Proof. apply (PrefixDoubling_short ab). vm_compute. discriminate. Defined.

(** X10. The loop of [PrefixDoubling] makes at most 32 rounds on every
    input: it is left by its condition, or a call panics; at the latest in
    round 32 the offset [k] has wrapped to a negative number and [getRank]
    panics. The embedding gives the loop 32 rounds and is never stopped by
    that bound. *)
Theorem PrefixDoubling_ends (x : list byte) : PrefixDoubling x ≠ OutOfFuel.
Proof. apply nt_PrefixDoubling. Qed.



(** ** The transform *)

(** X12. Whenever [Bwt] returns, its result has one byte more than [x] and
    holds the bytes of [x] and one sentinel, in some order. *)
Theorem Bwt_permutes (x y : list byte) :
  Bwt x = Ok y → len x + 1 ≤ max_int32 →
  len y = len x + 1 ∧ y ≡ₚ x00 :: x.
Proof.
  intros Hbwt Hlen.
  pose proof (Bwt_Permutation x y Hbwt Hlen) as Hperm.
  split; [|done]. unfold len. rewrite Hperm. simpl. lia.
Qed.

Lemma Bwt_permutes_witness :
  len (bytes_of [98; 0; 97]) = len ab + 1 ∧ bytes_of [98; 0; 97] ≡ₚ x00 :: ab.
Proof.
  apply (Bwt_permutes ab (bytes_of [98; 0; 97]));
    [vm_compute; reflexivity | vm_compute; discriminate].
Defined.

(** X13. On every string of at most 255 bytes [Bwt] returns, and its
    character at position [i] is the sentinel 0 when [sa[i]] is 0, and
    [x[sa[i]-1]] otherwise, for the suffix array [sa] of [PrefixDoubling]. *)
Theorem Bwt_short (x : list byte) :
  len x ≤ 255 →
  ∃ sa y, PrefixDoubling x = Ok sa ∧ Bwt x = Ok y ∧
    len y = len x + 1 ∧
    ∀ i j, sa !! i = Some j →
      y !! i = Some (if j =? 0 then x00 else default x00 (x !! Z.to_nat (j - 1))).
Proof.
  intros Hlen. destruct (PrefixDoubling_total x Hlen) as (sa & Hsa).
  assert (len x + 1 ≤ max_int32) as Hlen' by (unfold max_int32; lia).
  destruct (Bwt_total x sa Hsa Hlen') as (y & Hy).
  destruct (Bwt_Ok x y Hy) as (sa' & Hsa' & Hly & Hchar).
  rewrite Hsa in Hsa'. injection Hsa' as <-.
  destruct (PrefixDoubling_Ok x sa Hsa Hlen') as [Hperm _].
  exists sa, y. split; [done|]. split; [done|].
  split; [unfold len; lia|].
  intros i j Hj. destruct (Hchar i j Hj) as [_ ->].
  assert (0 ≤ j < Z.of_nat (S (length x))) as Hjr.
  { apply positions_elem_of. rewrite <- Hperm. by eapply list_elem_of_lookup_2. }
  unfold bwt_char. destruct (Z.eqb_spec j 0) as [->|Hj0]; [done|].
  destruct (Z.ltb_spec j 0); [lia|].
  destruct (lookup_lt_is_Some_2 x (Z.to_nat (j - 1))) as [c Hc]; [lia|].
  by rewrite Hc.
Qed.

Lemma Bwt_short_witness :
  ∃ sa y, PrefixDoubling ab = Ok sa ∧ Bwt ab = Ok y ∧
    len y = len ab + 1 ∧
    ∀ i j, sa !! i = Some j →
      y !! i = Some (if j =? 0 then x00 else default x00 (ab !! Z.to_nat (j - 1))).
Proof. apply (Bwt_short ab). vm_compute. discriminate. Defined.

(** ** The inversion *)

(** X14. Whenever [Bwt] returns on a string that is not empty, has no zero
    byte and has less than [2^30] bytes, [Rbwt] returns that string from
    the result of [Bwt]. *)
Theorem Rbwt_inverts_Bwt (x y : list byte) :
  Bwt x = Ok y → x ≠ [] → Forall (λ c, c ≠ x00) x → len x + 1 ≤ 2 ^ 30 →
  Rbwt y = Ok x.
Proof. apply Rbwt_Bwt_Ok. Qed.

Lemma Rbwt_inverts_Bwt_witness : Rbwt (bytes_of [98; 0; 97]) = Ok ab.
Proof.
  apply (Rbwt_inverts_Bwt ab (bytes_of [98; 0; 97])).
  - vm_compute. reflexivity.
  - discriminate.
  - repeat constructor; discriminate.
  - vm_compute. discriminate.
Defined.

(** X15. On every string of 1 to 255 bytes without zero byte, [Bwt]
    returns and [Rbwt] returns the string from its result. *)
Theorem Rbwt_Bwt_short (x : list byte) :
  x ≠ [] → Forall (λ c, c ≠ x00) x → len x ≤ 255 →
  ∃ y, Bwt x = Ok y ∧ Rbwt y = Ok x.
Proof.
  intros Hx Hnz Hlen. destruct (PrefixDoubling_total x Hlen) as (sa & Hsa).
  destruct (Bwt_total x sa Hsa) as (y & Hy); [unfold max_int32; lia|].
  exists y. split; [done|]. apply (Rbwt_Bwt_Ok x y Hy Hx Hnz). lia.
Qed.

Lemma Rbwt_Bwt_short_witness : ∃ y, Bwt ab = Ok y ∧ Rbwt y = Ok ab.
Proof.
  apply (Rbwt_Bwt_short ab).
  - discriminate.
  - repeat constructor; discriminate.
  - vm_compute. discriminate.
Defined.

(** X16. The two tables lead from a suffix to the one that starts one
    position earlier: with [y] the result of [Bwt] on a string without zero
    byte and [sa] its suffix array, if [sa[i]] is [j + 1] and [a] is
    [x[j]], then [ctab.Rank(a) + otab.Rank(a, i)] is the index at which
    [sa] holds [j]. *)
Theorem tables_step_back (x y : list byte) (sa : list Z)
    (ctab : CTab) (otab : OTab) (i j : nat) (a : byte) :
  Forall (λ c, c ≠ x00) x → len x + 1 ≤ 2 ^ 30 →
  PrefixDoubling x = Ok sa → Bwt x = Ok y →
  NewCTab y 256 = Ok ctab → NewOTab y 256 = Ok otab →
  sa !! i = Some (Z.of_nat j + 1) → x !! j = Some a →
  ∃ c o, CTab_Rank ctab a = Ok c ∧ OTab_Rank otab a (Z.of_nat i) = Ok o ∧
         sa !! Z.to_nat (c + o) = Some (Z.of_nat j).
Proof.
  intros Hnz Hlen Hsa Hbwt Hctab Hotab Hi Hj.
  assert (len x + 1 ≤ max_int32) as Hlen' by (unfold max_int32; lia).
  destruct (Bwt_Ok x y Hbwt) as (sa' & Hsa' & Hly & Hchar).
  rewrite Hsa in Hsa'. injection Hsa' as <-.
  destruct (PrefixDoubling_Ok x sa Hsa Hlen') as [Hperm _].
  pose proof (PrefixDoubling_sorted x sa Hsa Hnz Hlen) as Hsorted.
  assert (length sa = S (length x)) as Hls by by rewrite Hperm, positions_length.
  assert (y = bwc x <$> sa) as Hy by (apply Bwt_bwc; [lia | done]).
  destruct (NewCTab_256 y) as (ctab' & Hctab' & Hc).
  rewrite Hctab in Hctab'. injection Hctab' as <-.
  destruct (proj1 (NewOTab_returns y)) as (b0 & Hb0 & Hb0ne); [by exists otab|].
  destruct (NewOTab_Rank y b0 Hb0 Hb0ne) as (otab' & Hotab' & _ & Ho).
  rewrite Hotab in Hotab'. injection Hotab' as <-.
  assert (a ≠ x00) as Ha by apply (Forall_lookup_1 _ _ _ _ Hnz Hj).
  apply lookup_lt_Some in Hi as Hil.
  eexists _, _. split; [apply Hc|]. split.
  - apply Ho; [done | unfold len; lia].
  - rewrite Nat2Z.id. by apply (lf_step x y sa Hnz Hperm Hsorted Hy i j a).
Qed.

Lemma tables_step_back_witness :
  ∃ ctab otab,
    NewCTab (bytes_of [98; 0; 97]) 256 = Ok ctab ∧
    NewOTab (bytes_of [98; 0; 97]) 256 = Ok otab ∧
    ∃ c o, CTab_Rank ctab (byte_of_int 98) = Ok c ∧
           OTab_Rank otab (byte_of_int 98) (Z.of_nat 0) = Ok o ∧
           [2; 0; 1] !! Z.to_nat (c + o) = Some (Z.of_nat 1).
Proof.
  eexists _, _. split; [vm_compute; reflexivity|].
  split; [vm_compute; reflexivity|].
  apply (tables_step_back ab (bytes_of [98; 0; 97]) [2; 0; 1] _ _ 0 1
           (byte_of_int 98)).
  - repeat constructor; discriminate.
  - vm_compute. discriminate.
  - vm_compute. reflexivity.
  - vm_compute. reflexivity.
  - vm_compute. reflexivity.
  - vm_compute. reflexivity.
  - reflexivity.
  - reflexivity.
Defined.

(** X17. [NewOTab] with 256 symbols returns exactly on the strings that
    are not empty and start with a character other than the sentinel 0; on
    the empty string and on a string that starts with 0 it panics. *)
Theorem NewOTab_returns_iff (y : list byte) :
  (∃ otab, NewOTab y 256 = Ok otab) ↔ ∃ b0, y !! 0%nat = Some b0 ∧ b0 ≠ x00.
Proof. apply NewOTab_returns. Qed.

(** X18. Whenever [Rbwt] returns, its argument is not empty and starts with
    a character other than the sentinel 0, and the result is one byte
    shorter than the argument and made of bytes of the argument. *)
Theorem Rbwt_returns (y x : list byte) :
  Rbwt y = Ok x →
  (∃ b0, y !! 0%nat = Some b0 ∧ b0 ≠ x00) ∧
  len x = len y - 1 ∧ Forall (λ c, c ∈ y) x.
Proof. apply Rbwt_Ok. Qed.

Lemma Rbwt_returns_witness :
  (∃ b0, bytes_of [98; 0; 97] !! 0%nat = Some b0 ∧ b0 ≠ x00) ∧
  len ab = len (bytes_of [98; 0; 97]) - 1 ∧
  Forall (λ c, c ∈ bytes_of [98; 0; 97]) ab.
Proof.
  apply (Rbwt_returns (bytes_of [98; 0; 97]) ab). vm_compute. reflexivity.
Defined.

(** ** The checks of the tests *)

(** X19. [checkSAIndices] returns true and reports no error exactly when
    the array has [len(x)] or [len(x) + 1] entries and, in increasing order,
    its entry number [p] lies from 0 to [len(x)] and is at most [p]: an
    array with a missing index passes when it repeats a smaller one. *)
Theorem checkSAIndices_accepts (x : list byte) (sa : list Z) (e : nat) :
  checkSAIndices x sa e = (true, e) ↔
  (len sa = len x ∨ len sa = len x + 1) ∧
  ∀ p j, merge_sort Z.le sa !! p = Some j → 0 ≤ j ≤ len x ∧ j ≤ Z.of_nat p.
Proof. apply checkSAIndices_true. Qed.

(** X20. Whenever [checkSuffixArray] returns true and has reported no
    error, the array has [len(x)] or [len(x) + 1] entries, holds every
    number below its length once, and the suffixes of [x] at its entries are
    in strictly increasing order. *)
Theorem checkSuffixArray_accepted (x : list byte) (sa : list Z) (e : nat) :
  checkSuffixArray x sa e = Ok (true, e) →
  (len sa = len x ∨ len sa = len x + 1) ∧
  sa ≡ₚ positions (length sa) ∧
  ∀ p q a b, (p < q)%nat → sa !! p = Some a → sa !! q = Some b →
    string_cmp (drop (Z.to_nat a) x) (drop (Z.to_nat b) x) = Lt.
Proof. apply checkSuffixArray_sound. Qed.

Lemma checkSuffixArray_accepted_witness :
  (len [2; 0; 1] = len ab ∨ len [2; 0; 1] = len ab + 1) ∧
  [2; 0; 1] ≡ₚ positions (length [2; 0; 1]) ∧
  ∀ p q a b, (p < q)%nat → [2; 0; 1] !! p = Some a → [2; 0; 1] !! q = Some b →
    string_cmp (drop (Z.to_nat a) ab) (drop (Z.to_nat b) ab) = Lt.
Proof.
  apply (checkSuffixArray_accepted ab [2; 0; 1] 0). vm_compute. reflexivity.
Defined.

(** X21. [checkSuffixArray] returns true and reports no error on every
    array of [len(x)] or [len(x) + 1] entries that holds every number below
    its length once and whose neighbouring entries have their suffixes in
    strictly increasing order; so it does on what [PrefixDoubling]
    returns. *)
Theorem checkSuffixArray_accepts (x : list byte) (sa : list Z) (e : nat) :
  (len sa = len x ∨ len sa = len x + 1) →
  sa ≡ₚ positions (length sa) →
  (∀ p a b, sa !! p = Some a → sa !! S p = Some b →
     string_cmp (drop (Z.to_nat a) x) (drop (Z.to_nat b) x) = Lt) →
  checkSuffixArray x sa e = Ok (true, e).
Proof. apply checkSuffixArray_complete. Qed.

Lemma checkSuffixArray_accepts_witness :
  checkSuffixArray ab [2; 0; 1] 0 = Ok (true, 0%nat).
Proof.
  apply (checkSuffixArray_accepts ab [2; 0; 1] 0).
  - right. reflexivity.
  - apply (PrefixDoubling_Ok ab); [vm_compute; reflexivity | vm_compute; discriminate].
  - intros p a b Ha Hb.
    destruct p as [|[|p]]; [| |destruct p; discriminate];
      injection Ha as <-; injection Hb as <-; vm_compute; reflexivity.
Defined.

(** ** The tests *)

(** A generator for the examples: it counts its calls. *)
Definition counter_Intn (rng n : Z) : result (Z * Z) :=
  if n <=? 0 then Panic else Ok (rng mod n, rng + 1).

Lemma counter_Intn_range (rng n : Z) :
  0 < n → ∃ v rng', counter_Intn rng n = Ok (v, rng') ∧ 0 ≤ v < n.
Proof.
  intros Hn. unfold counter_Intn. destruct (Z.leb_spec n 0); [lia|].
  eexists _, _. split; [reflexivity|]. apply Z.mod_pos_bound. lia.
Defined.

Lemma counter_Intn_panics (rng n : Z) : n ≤ 0 → counter_Intn rng n = Panic.
Proof.
  intros Hn. unfold counter_Intn. by destruct (Z.leb_spec n 0); [|lia].
Defined.

(** X22. With a generator whose [Intn(n)] returns a number from 0 to
    [n - 1] for every positive [n], [randomStringN(n, alpha, rng)] returns,
    for every [n] that is not negative and every alphabet that is not
    empty, a string of [n] bytes taken from the alphabet. *)
Theorem randomStringN_returns (Rng : Type) (Intn : Rng → Z → result (Z * Rng))
    (n : Z) (alpha : list byte) (rng : Rng) :
  (∀ rng n, 0 < n → ∃ v rng', Intn rng n = Ok (v, rng') ∧ 0 ≤ v < n) →
  0 ≤ n → alpha ≠ [] →
  ∃ s rng', randomStringN Rng Intn n alpha rng = Ok (s, rng') ∧
            len s = n ∧ Forall (λ c, c ∈ alpha) s.
Proof. intros HIntn. by apply randomStringN_Ok. Qed.

Lemma randomStringN_returns_witness :
  ∃ s rng', randomStringN Z counter_Intn 3 acgt 0 = Ok (s, rng') ∧
            len s = 3 ∧ Forall (λ c, c ∈ acgt) s.
Proof.
  apply (randomStringN_returns Z counter_Intn 3 acgt 0).
  - apply counter_Intn_range.
  - lia.
  - discriminate.
Defined.

(** X23. With a generator whose [Intn(n)] panics for every [n] that is not
    positive, [randomStringN] panics for a negative length, and for a
    positive length with the empty alphabet. *)
Theorem randomStringN_panics (Rng : Type) (Intn : Rng → Z → result (Z * Rng))
    (n : Z) (alpha : list byte) (rng : Rng) :
  (∀ rng n, n ≤ 0 → Intn rng n = Panic) →
  n < 0 ∨ (0 < n ∧ alpha = []) →
  randomStringN Rng Intn n alpha rng = Panic.
Proof. intros HIntn. by apply randomStringN_Panic. Qed.

Lemma randomStringN_panics_witness :
  randomStringN Z counter_Intn 3 [] 0 = Panic.
Proof.
  apply (randomStringN_panics Z counter_Intn 3 [] 0).
  - apply counter_Intn_panics.
  - right. split; [lia | reflexivity].
Defined.

(** X24. [TestSaConstruction] reports no error and does not panic,
    whatever numbers in range the generator draws: on each of its ten
    strings of ten letters [PrefixDoubling] returns and [checkSuffixArray]
    accepts the result. *)
Theorem TestSaConstruction_no_error (Rng : Type)
    (Intn : Rng → Z → result (Z * Rng)) (rng : Rng) :
  (∀ rng n, 0 < n → ∃ v rng', Intn rng n = Ok (v, rng') ∧ 0 ≤ v < n) →
  ∃ rng', TestSaConstruction Rng Intn rng = Ok (rng', 0%nat).
Proof. intros HIntn. by apply TestSaConstruction_passes. Qed.

Lemma TestSaConstruction_no_error_witness :
  ∃ rng', TestSaConstruction Z counter_Intn 0 = Ok (rng', 0%nat).
Proof.
  apply (TestSaConstruction_no_error Z counter_Intn 0).
  apply counter_Intn_range.
Defined.

(** X25. [TestBwt] reports no error and does not panic, whatever numbers in
    range the generator draws: on each of its ten strings of ten letters
    [Rbwt] returns the string from the result of [Bwt]. *)
Theorem TestBwt_no_error (Rng : Type)
    (Intn : Rng → Z → result (Z * Rng)) (rng : Rng) :
  (∀ rng n, 0 < n → ∃ v rng', Intn rng n = Ok (v, rng') ∧ 0 ≤ v < n) →
  ∃ rng', TestBwt Rng Intn rng = Ok (rng', 0%nat).
Proof. intros HIntn. by apply TestBwt_passes. Qed.

Lemma TestBwt_no_error_witness :
  ∃ rng', TestBwt Z counter_Intn 0 = Ok (rng', 0%nat).
Proof.
  apply (TestBwt_no_error Z counter_Intn 0). apply counter_Intn_range.
Defined.

(** ** A string with every byte value *)

(** The 256 byte values, in increasing order. *)
Definition all_bytes : list byte :=
  byte_of_int <$> (Z.of_nat <$> seq 0 256).

Lemma all_bytes_elem_of (c : byte) : c ∈ all_bytes.
Proof.
  pose proof (int_of_byte_range c) as Hc.
  apply (list_elem_of_lookup_2 _ (Z.to_nat (int_of_byte c))).
  unfold all_bytes. rewrite !list_lookup_fmap, lookup_seq_lt by lia.
  simpl. by rewrite Z2Nat.id, byte_of_int_of_byte by lia.
Defined.

(** X26. On every string in which all the 256 byte values occur
    [PrefixDoubling] panics: [calcRank0] gives the byte 255 the rank 256, and
    the first call of [radixSortBuckets] indexes its 256 buckets with it. *)
Theorem PrefixDoubling_every_byte_panics (x : list byte) :
  (∀ c : byte, c ∈ x) → len x + 1 ≤ max_int32 →
  PrefixDoubling x = Panic.
Proof. apply PrefixDoubling_all_bytes. Qed.

Lemma PrefixDoubling_every_byte_panics_witness :
  PrefixDoubling all_bytes = Panic.
Proof.
  apply (PrefixDoubling_every_byte_panics all_bytes).
  - apply all_bytes_elem_of.
  - vm_compute. discriminate.
Defined.

(** ** The rounds of the loop *)

(** The states the loop of [PrefixDoubling] goes through on [x]: the state
    on entry, and the state after a round made from such a state with
    [sigma] below the number of suffixes. *)
Inductive pd_reach (x : list byte) : pd_state → Prop :=
  | reach_init st : doubling_init x = Ok st → pd_reach x st
  | reach_round st st' :
      pd_reach x st → pd_sigma st < len x + 1 →
      doubling_round st = Ok st' → pd_reach x st'.

Lemma pd_reach_inv (x : list byte) (st : pd_state) :
  pd_reach x st → len x + 1 ≤ 2 ^ 30 →
  ∃ r0, coded x r0 ∧ pd_inv (length x) st ∧ pd_sem r0 st.
Proof.
  intros Hreach Hlen.
  assert (len x + 1 ≤ max_int32) as Hlen' by (unfold max_int32; lia).
  induction Hreach as [st Hinit|st st' Hreach IH Hsig Hround].
  - exists (pd_rank st).
    destruct (doubling_init_sem x st Hinit Hlen') as [Hc Hsem].
    split; [done|]. split; [by apply doubling_init_inv | done].
  - destruct IH as (r0 & Hc & Hinv & Hsem). exists r0.
    replace (len x + 1) with (Z.of_nat (S (length x))) in *
      by (unfold len; lia).
    split; [done|]. split.
    + by apply (doubling_round_inv _ st st' Hround).
    + by apply (doubling_round_sem x r0 st st' Hround).
Qed.

(** Along an array in non-decreasing order of the old ranks, which are the
    numbers below [sigma], the new ranks are at least the old ones. *)
Lemma new_ranks_above (keys olds : list Z) (sigma : Z) :
  length keys = length olds →
  olds !! 0%nat = Some 0 →
  (∀ v, 0 ≤ v < sigma → v ∈ olds) →
  (∀ o, o ∈ olds → 0 ≤ o < sigma) →
  (∀ i j a b, (i < j)%nat → olds !! i = Some a → olds !! j = Some b → a ≤ b) →
  (∀ j a b ka kb, olds !! j = Some a → olds !! S j = Some b →
     keys !! j = Some ka → keys !! S j = Some kb → a ≠ b → ka ≠ kb) →
  ∀ j o a, olds !! j = Some o → new_ranks keys !! j = Some a → o ≤ a.
Proof.
  intros Hl H0 Honto Hrange Hsorted Hkeys.
  induction j as [|j IH]; intros o a Ho Ha.
  - rewrite H0 in Ho. injection Ho as <-.
    pose proof (new_ranks_bounds _ _ _ Ha). lia.
  - apply lookup_lt_Some in Ho as Hlt.
    destruct (lookup_lt_is_Some_2 olds j) as [o' Ho']; [lia|].
    destruct (lookup_lt_is_Some_2 keys j) as [k' Hk']; [lia|].
    destruct (lookup_lt_is_Some_2 keys (S j)) as [k Hk]; [lia|].
    assert (is_Some (new_ranks keys !! j)) as [a' Ha'].
    { apply lookup_lt_is_Some. rewrite new_ranks_length. lia. }
    specialize (IH o' a' Ho' Ha').
    rewrite (new_ranks_step keys j k' k a' Hk' Hk Ha') in Ha.
    injection Ha as <-.
    pose proof (Hsorted j (S j) o' o ltac:(lia) Ho' Ho) as Hle.
    destruct (decide (o' = o)) as [->|Hne].
    + destruct (k' =? k); lia.
    + pose proof (Hkeys j o' o k' k Ho' Ho Hk' Hk Hne) as Hkne.
      apply Z.eqb_neq in Hkne. rewrite Hkne.
      (* the value [o' + 1] occurs, and only at [S j] can it be first *)
      assert (o ≤ o' + 1); [|lia].
      pose proof (Hrange o (list_elem_of_lookup_2 _ _ _ Ho)) as Hr.
      pose proof (Hrange o' (list_elem_of_lookup_2 _ _ _ Ho')) as Hr'.
      pose proof (Honto (o' + 1) ltac:(lia)) as Hin.
      apply list_elem_of_lookup_1 in Hin as [p Hp].
      destruct (Nat.le_gt_cases p j) as [Hpj|Hpj].
      * destruct (decide (p = j)) as [->|Hpne].
        -- rewrite Ho' in Hp. injection Hp. lia.
        -- pose proof (Hsorted p j _ _ ltac:(lia) Hp Ho'). lia.
      * destruct (decide (p = S j)) as [->|Hpne].
        -- rewrite Ho in Hp. injection Hp. lia.
        -- pose proof (Hsorted (S j) p _ _ ltac:(lia) Ho Hp). lia.
Qed.

(** A round of the loop lowers no rank, and does not lower [sigma]. *)
Lemma doubling_round_grows x r0 st st' :
  doubling_round st = Ok st' → Z.of_nat (S (length x)) ≤ 2 ^ 30 →
  coded x r0 → pd_inv (length x) st → pd_sem r0 st →
  pd_sigma st < Z.of_nat (S (length x)) →
  pd_sigma st ≤ pd_sigma st' ∧
  ∀ i r r', pd_rank st !! i = Some r → pd_rank st' !! i = Some r' → r ≤ r'.
Proof.
  intros Hround Hlen Hc Hinv Hsem Hsig.
  set (n := length x) in *.
  assert (Z.of_nat (S n) ≤ max_int32) as Hlen' by (unfold max_int32; lia).
  pose proof (doubling_round_inv n st st' Hround Hlen' Hinv) as Hinv'.
  destruct Hsem as (K & Hk & HK & Hsorted & Hcmp & Hrange & Honto).
  pose proof (pd_inv_ranks _ _ Hinv) as Hranks.
  pose proof Hinv as (Hp & Hlr & Hlb & _ & Hn & _).
  unfold doubling_round in Hround.
  apply bind_Ok in Hround as ([sa1 buf1] & Hsort & Hround).
  apply bind_Ok in Hround as ([buf2 sigma] & Hup & [= <-]).
  destruct Hinv' as (_ & Hl2 & _ & H01 & _).
  cbn [pd_sa pd_rank pd_buf pd_sigma pd_k] in *.
  assert (length (pd_sa st) = S n) as Hls by by rewrite Hp, positions_length.
  pose proof (radixSort_Ok _ _ _ _ _ _ Hsort) as [Hp1 _];
    [lia | unfold len; lia |].
  apply radixSort_sorted in Hsort as Hsorted1;
    [|lia | unfold len; lia | done | done].
  assert (sa1 ≡ₚ positions (S n)) as Hp1' by by rewrite Hp1.
  assert (length sa1 = S n) as Hls1 by by rewrite Hp1', positions_length.
  assert (NoDup sa1) as Hnd1 by (rewrite Hp1'; apply positions_NoDup).
  apply updateRank_Ok in Hup as (_ & Hout & a_last & Hlast & ->);
    [|done | unfold len; lia].
  set (rank := pd_rank st) in *. set (k := pd_k st) in *.
  set (keys := pair_key rank k <$> sa1) in *.
  set (olds := rk rank <$> sa1).
  assert (length keys = S n) as Hlk by (unfold keys; by rewrite length_fmap).
  rewrite last_lookup, new_ranks_length, Hlk in Hlast. simpl in Hlast.
  assert (∀ s, s ∈ sa1 → 0 ≤ s ∧ rank !! Z.to_nat s = Some (rk rank s)) as Hrk.
  { intros s Hs. rewrite Hp1' in Hs. apply positions_elem_of in Hs.
    split; [lia|].
    destruct (lookup_lt_is_Some_2 rank (Z.to_nat s)) as [r Hr]; [lia|].
    rewrite Hr. f_equal. symmetry. apply index_rk.
    by apply index_lookup_Z; [lia|]. }
  assert (∀ j o a, olds !! j = Some o → new_ranks keys !! j = Some a → o ≤ a)
    as Habove.
  { apply (new_ranks_above keys olds (pd_sigma st)).
    - unfold keys, olds. by rewrite !length_fmap.
    - unfold olds. rewrite list_lookup_fmap, H01. simpl. f_equal.
      apply index_rk, index_lookup_Z; [lia|]. by rewrite Nat2Z.id.
    - intros v Hv. apply Honto in Hv.
      apply list_elem_of_lookup_1 in Hv as [i Hi].
      apply lookup_lt_Some in Hi as Hil.
      assert (Z.of_nat i ∈ sa1) as Hin
        by (rewrite Hp1'; apply positions_elem_of; lia).
      unfold olds. apply list_elem_of_fmap. exists (Z.of_nat i).
      split; [|done]. symmetry. apply index_rk. by apply index_lookup.
    - intros o Ho. unfold olds in Ho.
      apply list_elem_of_fmap in Ho as (s & -> & Hs).
      apply Hrange. destruct (Hrk s Hs) as [_ Hr].
      by eapply list_elem_of_lookup_2.
    - intros i j a b Hij Hi Hj. unfold olds in Hi, Hj.
      rewrite list_lookup_fmap in Hi, Hj.
      destruct (sa1 !! i) as [s|] eqn:Hsi; [|done].
      destruct (sa1 !! j) as [t|] eqn:Hsj; [|done].
      injection Hi as <-. injection Hj as <-.
      pose proof (Hsorted1 i j s t Hij Hsi Hsj) as Hle.
      rewrite !pair_key_value in Hle by done.
      pose proof (sort_key_in_range rank k s Hranks).
      pose proof (sort_key_in_range rank k t Hranks).
      unfold max_int32 in *. lia.
    - intros j a b ka kb Ha Hb Hka Hkb Hab. unfold olds, keys in *.
      rewrite list_lookup_fmap in Ha, Hb, Hka, Hkb.
      destruct (sa1 !! j) as [s|] eqn:Hsj; [|done].
      destruct (sa1 !! S j) as [t|] eqn:Hst; [|done].
      injection Ha as <-. injection Hb as <-.
      injection Hka as <-. injection Hkb as <-.
      rewrite !pair_key_value by done.
      pose proof (sort_key_in_range rank k s Hranks).
      pose proof (sort_key_in_range rank k t Hranks).
      unfold max_int32 in *. lia. }
  split.
  - destruct (lookup_lt_is_Some_2 olds n) as [o Ho];
      [unfold olds; rewrite length_fmap; lia|].
    pose proof (Habove n o a_last Ho Hlast) as Hle.
    assert (0 < pd_sigma st) as Hpos.
    { destruct (Hrange 0); [|lia]. by eapply list_elem_of_lookup_2. }
    assert (pd_sigma st - 1 ∈ olds) as Hin.
    { pose proof (Honto (pd_sigma st - 1) ltac:(lia)) as Hv.
      apply list_elem_of_lookup_1 in Hv as [i Hi].
      apply lookup_lt_Some in Hi as Hil.
      assert (Z.of_nat i ∈ sa1) as Hin
        by (rewrite Hp1'; apply positions_elem_of; lia).
      unfold olds. apply list_elem_of_fmap. exists (Z.of_nat i).
      split; [|done]. symmetry. apply index_rk. by apply index_lookup. }
    apply list_elem_of_lookup_1 in Hin as [p Hp'].
    apply lookup_lt_Some in Hp' as Hpl.
    unfold olds in Hpl. rewrite length_fmap in Hpl.
    assert (pd_sigma st - 1 ≤ o); [|lia].
    destruct (decide (p = n)) as [->|Hne].
    + rewrite Ho in Hp'. injection Hp'. lia.
    + unfold olds in Hp', Ho. rewrite list_lookup_fmap in Hp', Ho.
      destruct (sa1 !! p) as [s|] eqn:Hsp; [|done].
      destruct (sa1 !! n) as [t|] eqn:Hsn; [|done].
      injection Hp' as Hs. injection Ho as Ht.
      pose proof (Hsorted1 p n s t ltac:(lia) Hsp Hsn) as Hle'.
      rewrite !pair_key_value in Hle' by done.
      pose proof (sort_key_in_range rank k s Hranks).
      pose proof (sort_key_in_range rank k t Hranks).
      unfold max_int32 in *. lia.
  - intros i r r' Hr Hr'. apply lookup_lt_Some in Hr as Hil.
    assert (Z.of_nat i ∈ sa1) as Hin
      by (rewrite Hp1'; apply positions_elem_of; lia).
    apply list_elem_of_lookup_1 in Hin as [p Hp'].
    destruct (Hout _ _ Hp') as [_ Hlook]. rewrite Nat2Z.id in Hlook.
    apply (Habove p); [|by rewrite <- Hlook].
    unfold olds. rewrite list_lookup_fmap, Hp'. simpl. f_equal.
    apply index_rk. by apply index_lookup.
Qed.

(** Two letters that are the same, ["aa"]. *)
Definition aa : list byte := bytes_of [97; 97].

(** X27. From round to round of the loop of [PrefixDoubling], on a string
    of less than [2^30] bytes, [sigma] does not decrease, and no suffix
    gets a smaller rank than it had. *)
Theorem sigma_grows (x : list byte) (st st' : pd_state) :
  pd_reach x st → len x + 1 ≤ 2 ^ 30 → pd_sigma st < len x + 1 →
  doubling_round st = Ok st' →
  pd_sigma st ≤ pd_sigma st' ∧
  ∀ i r r', pd_rank st !! i = Some r → pd_rank st' !! i = Some r' → r ≤ r'.
Proof.
  intros Hreach Hlen Hsig Hround.
  destruct (pd_reach_inv x st Hreach Hlen) as (r0 & Hc & Hinv & Hsem).
  replace (len x + 1) with (Z.of_nat (S (length x))) in *
    by (unfold len; lia).
  by apply (doubling_round_grows x r0 st st' Hround).
Qed.

Lemma sigma_grows_witness :
  ∃ st st', doubling_init aa = Ok st ∧ doubling_round st = Ok st' ∧
    pd_sigma st ≤ pd_sigma st' ∧
    ∀ i r r', pd_rank st !! i = Some r → pd_rank st' !! i = Some r' → r ≤ r'.
Proof.
  eexists _, _. split; [vm_compute; reflexivity|].
  split; [vm_compute; reflexivity|].
  apply (sigma_grows aa).
  - apply reach_init. vm_compute. reflexivity.
  - vm_compute. discriminate.
  - vm_compute. reflexivity.
  - vm_compute. reflexivity.
Defined.

(** X28. Whenever [Bwt] returns, [PrefixDoubling] has returned an array
    [sa], the result has [len(x) + 1] bytes, and its character at position
    [i] is the sentinel 0 when [sa[i]] is 0, and [x[sa[i]-1]] otherwise. *)
Theorem Bwt_characters (x y : list byte) :
  Bwt x = Ok y → len x + 1 ≤ max_int32 →
  ∃ sa, PrefixDoubling x = Ok sa ∧ len y = len x + 1 ∧
    ∀ i j, sa !! i = Some j →
      y !! i = Some (if j =? 0 then x00 else default x00 (x !! Z.to_nat (j - 1))).
Proof.
  intros Hy Hlen.
  destruct (Bwt_Ok x y Hy) as (sa & Hsa & Hly & Hchar).
  destruct (PrefixDoubling_Ok x sa Hsa Hlen) as [Hperm _].
  exists sa. split; [done|]. split; [unfold len; lia|].
  intros i j Hj. destruct (Hchar i j Hj) as [_ ->].
  assert (0 ≤ j < Z.of_nat (S (length x))) as Hjr.
  { apply positions_elem_of. rewrite <- Hperm. by eapply list_elem_of_lookup_2. }
  unfold bwt_char. destruct (Z.eqb_spec j 0) as [->|Hj0]; [done|].
  destruct (Z.ltb_spec j 0); [lia|].
  destruct (lookup_lt_is_Some_2 x (Z.to_nat (j - 1))) as [c Hc]; [lia|].
  by rewrite Hc.
Qed.

Lemma Bwt_characters_witness :
  ∃ sa, PrefixDoubling ab = Ok sa ∧ len (bytes_of [98; 0; 97]) = len ab + 1 ∧
    ∀ i j, sa !! i = Some j →
      bytes_of [98; 0; 97] !! i =
      Some (if j =? 0 then x00 else default x00 (ab !! Z.to_nat (j - 1))).
Proof.
  apply (Bwt_characters ab (bytes_of [98; 0; 97]));
    [vm_compute; reflexivity | vm_compute; discriminate].
Defined.

(** X29. Whenever [Bwt] returns on a string without zero byte, the
    sentinel 0 stands in the result at one position only, the position at
    which the suffix array of [PrefixDoubling] holds 0. *)
Theorem Bwt_one_sentinel (x y : list byte) :
  Bwt x = Ok y → Forall (λ c, c ≠ x00) x → len x + 1 ≤ max_int32 →
  ∃ sa i, PrefixDoubling x = Ok sa ∧ sa !! i = Some 0 ∧
    ∀ j, y !! j = Some x00 ↔ j = i.
Proof.
  intros Hy Hnz Hlen.
  destruct (Bwt_sentinel x y Hy Hnz Hlen)
    as (sa & Hsa & _ & Hiff & i & Hi & Huniq).
  exists sa, i. split; [done|]. split; [done|].
  intros j. rewrite Hiff. split; [apply Huniq | by intros ->].
Qed.

Lemma Bwt_one_sentinel_witness :
  ∃ sa i, PrefixDoubling ab = Ok sa ∧ sa !! i = Some 0 ∧
    ∀ j, bytes_of [98; 0; 97] !! j = Some x00 ↔ j = i.
Proof.
  apply (Bwt_one_sentinel ab (bytes_of [98; 0; 97])).
  - vm_compute. reflexivity.
  - repeat constructor; discriminate.
  - vm_compute. discriminate.
Defined.
